(** * GolangTutorial: the TCP servers of the networking examples

    A shallow embedding of the connection-oriented servers of the
    repository and the properties of their specification:

    - [networking/network_tcp.go]: the line-oriented [TCPServer]
      ([Start], [handleConnection], [processMessage], [Shutdown]) and the
      [ChatServer] ([Start], [handleBroadcast], [handleChatClient]);
    - the networking guide (its chapter on TCP): the chat [TCPServer] with
      its name-keyed registry and the [sendChan] of every client ([Start],
      [handleConnection], [readMessages], [broadcast]), and the
      [HeartbeatServer] with its periodic sweep ([handleConnection],
      [heartbeatChecker]).

    Around them, the code that these servers talk to and the other
    components of the guide that share their patterns:

    - the [TCPClient] of either file ([NewTCPClient], [Send], [Close],
      [Run]), with the [bufio.Scanner] that frames the lines of the
      line-oriented protocol;
    - the HTTP middleware of the guide ([LoggerMiddleware],
      [AuthMiddleware], [CORSMiddleware], [RecoveryMiddleware],
      [ChainMiddleware]) over a recorded [ResponseWriter];
    - the WebSocket [Hub] ([Run], [HandleWebSocket]) with its bounded
      [send] channels;
    - the connection [Pool] ([NewPool], [Get], [Put], [Close]).

    Go strings are byte strings: they are [string] here, one [ascii] per
    byte.  A map is a [gmap], a set of sockets a [gset].  A goroutine is
    modelled by the turns it takes on the shared state: what it does
    between two calls that can wait (a read, an accept, a lock, a send on a
    channel) is one function on the state, and a scheduler is a list of
    turns.  What a waiting call delivers (a line, an error, a connection,
    the time on the clock) comes with the turn.  A registry holds its
    clients by value: a client is reached by other goroutines through the
    registry only.  The writer goroutine of the guide's chat server, which
    drains a [sendChan] to its socket, takes no turn in the schedules of
    that server, where a [sendChan] holds what [broadcast] has put into
    it; its receive on the channel is [receive], and [deliver] gives it
    its turns between the broadcasts. *)

From Stdlib Require Import ZArith NArith Lia Ascii String List Bool.
From stdpp Require Import gmap strings list fin_maps pretty.

(** ** Go strings: the [strings] functions the servers call *)

Module GoStrings.

Definition byte (c : ascii) : N := N_of_ascii c.

(** The line feed, ["\n"] in the Go sources. *)
Definition LF : string := String "010"%char "".

(** [asciiSpace] of package [strings]: tab, line feed, vertical tab, form
    feed, carriage return and space. *)
Definition asciiSpace (c : ascii) : bool :=
  let n := byte c in
  ((9 <=? n) && (n <=? 13) || (n =? 32))%N.

(** [unicode.IsSpace] on the two-byte UTF-8 sequences: U+0085 (C2 85) and
    U+00A0 (C2 A0). *)
Definition latin1Space (c0 c1 : ascii) : bool :=
  ((byte c0 =? 194) && ((byte c1 =? 133) || (byte c1 =? 160)))%N.

(** [unicode.IsSpace] on the three-byte UTF-8 sequences: U+1680
    (E1 9A 80), U+2000..U+200A (E2 80 80 .. E2 80 8A), U+2028, U+2029
    (E2 80 A8, E2 80 A9), U+202F (E2 80 AF), U+205F (E2 81 9F) and U+3000
    (E3 80 80). *)
Definition wideSpace (c0 c1 c2 : ascii) : bool :=
  let n0 := byte c0 in
  let n1 := byte c1 in
  let n2 := byte c2 in
  ((n0 =? 225) && (n1 =? 154) && (n2 =? 128)
   || (n0 =? 226) && (n1 =? 128)
      && ((128 <=? n2) && (n2 <=? 138)
          || (n2 =? 168) || (n2 =? 169) || (n2 =? 175))
   || (n0 =? 226) && (n1 =? 129) && (n2 =? 159)
   || (n0 =? 227) && (n1 =? 128) && (n2 =? 128))%N.

(** Strip, from the front, every character that the three tests accept:
    [p1] reads one byte, [p2] two, [p3] three.  [TrimLeftFunc] decodes one
    rune at a time; a rune that the test accepts is dropped with all its
    bytes, anything else (an undecodable byte too) stops the scan. *)
Section Strip.
Variable p1 : ascii -> bool.
Variable p2 : ascii -> ascii -> bool.
Variable p3 : ascii -> ascii -> ascii -> bool.

Fixpoint strip (s : string) : string :=
  match s with
  | String c0 r0 =>
      if p1 c0 then strip r0
      else match r0 with
           | String c1 r1 =>
               if p2 c0 c1 then strip r1
               else match r1 with
                    | String c2 r2 => if p3 c0 c1 c2 then strip r2 else s
                    | EmptyString => s
                    end
           | EmptyString => s
           end
  | EmptyString => s
  end.

(** The strings that the scan eats whole, one accepted character after
    the other. *)
Inductive Eaten : string -> Prop :=
| eaten_nil : Eaten ""
| eaten1 c s : p1 c = true -> Eaten s -> Eaten (String c s)
| eaten2 c0 c1 s :
    p1 c0 = false -> p2 c0 c1 = true -> Eaten s ->
    Eaten (String c0 (String c1 s))
| eaten3 c0 c1 c2 s :
    p1 c0 = false -> p2 c0 c1 = false -> p3 c0 c1 c2 = true -> Eaten s ->
    Eaten (String c0 (String c1 (String c2 s))).
End Strip.

(** [inner] marks the bytes that can follow the first byte of a
    character; a string that starts outside them cannot complete a
    character that was begun before it. *)
Definition startsOuter (inner : ascii -> bool) (x : string) : Prop :=
  match x with
  | String c _ => inner c = false
  | EmptyString => True
  end.

(** The continuation bytes of UTF-8, 80..BF. *)
Definition continuation (c : ascii) : bool :=
  ((128 <=? byte c) && (byte c <? 192))%N.

Definition nonAscii (c : ascii) : bool := (128 <=? byte c)%N.

(** [strings.TrimLeftFunc(s, unicode.IsSpace)]. *)
Definition TrimLeftSpace (s : string) : string :=
  strip asciiSpace latin1Space wideSpace s.

(** [strings.TrimRightFunc(s, unicode.IsSpace)]: the same scan from the
    last byte backwards, so each test reads its bytes in reverse. *)
Definition stripRev (s : string) : string :=
  strip asciiSpace (fun c1 c0 => latin1Space c0 c1)
        (fun c2 c1 c0 => wideSpace c0 c1 c2) s.

Definition TrimRightSpace (s : string) : string :=
  String.rev (stripRev (String.rev s)).

(** [strings.TrimSpace]: leading and trailing white space removed, as
    defined by Unicode. *)
Definition TrimSpace (s : string) : string :=
  TrimRightSpace (TrimLeftSpace s).

(** [strings.HasPrefix(s, prefix)]. *)
Definition HasPrefix (s prefix : string) : bool := String.prefix prefix s.

Fixpoint drop (n : nat) (s : string) : string :=
  match n, s with
  | S n', String _ s' => drop n' s'
  | _, _ => s
  end.

(** [strings.TrimPrefix(s, prefix)]. *)
Definition TrimPrefix (s prefix : string) : string :=
  if HasPrefix s prefix then drop (String.length prefix) s else s.

(** A string made of white-space characters only. *)
Inductive WhiteSpace : string -> Prop :=
| ws_nil : WhiteSpace ""
| ws_ascii c s :
    asciiSpace c = true -> WhiteSpace s -> WhiteSpace (String c s)
| ws_latin1 c0 c1 s :
    latin1Space c0 c1 = true -> WhiteSpace s ->
    WhiteSpace (String c0 (String c1 s))
| ws_wide c0 c1 c2 s :
    wideSpace c0 c1 c2 = true -> WhiteSpace s ->
    WhiteSpace (String c0 (String c1 (String c2 s))).

End GoStrings.

(** ** Package [net]: connections, errors and what blocking calls deliver *)

Module GoNet.

(** A [net.Conn], by the number of the connection. *)
Definition Conn := nat.

(** What has been written to a connection so far. *)
Definition received (outbox : gmap Conn (list string)) (conn : Conn)
  : list string :=
  default [] (outbox !! conn).

(** A write to a connection; nothing reaches a connection that this side
    has closed. *)
Definition write (closed : gset Conn) (conn : Conn) (data : string)
    (outbox : gmap Conn (list string)) : gmap Conn (list string) :=
  if decide (conn ∈ closed) then outbox
  else <[conn := received outbox conn ++ [data]]> outbox.

(** An [error] value: its text, whether it is a [net.Error], and what its
    [Temporary()] answers. *)
Record error := mkError {
  Error : string;
  isNetError : bool;
  Temporary : bool
}.

(** What [scanner.Scan()] delivers: the next line, without its line feed,
    or the end of the stream with [scanner.Err()]. *)
Inductive ScanResult :=
| Line (text : string)
| ScanEnd (err : option error).

Inductive AcceptResult :=
| Accepted (conn : Conn)
| AcceptFailed (err : error).

(** How far a blocking call got on the script given to it. *)
Inductive Outcome :=
| Returned (err : option string)
| Blocked.

(** What [reader.ReadString] or [conn.Read] delivers: the data read, or an
    error (with the data read before it). *)
Inductive ReadResult :=
| ReadOk (data : string)
| ReadFailed (data : string).

Definition dataOf (r : ReadResult) : string :=
  match r with
  | ReadOk data => data
  | ReadFailed data => data
  end.

End GoNet.

(** ** Package [bufio]: the scanner of lines *)

Module GoBufio.
Import GoNet.

(** [bufio.MaxScanTokenSize]: the size to which the buffer of a scanner
    grows. *)
Definition MaxScanTokenSize : N := 65536.

(** The carriage return, ["\r"] in the Go sources. *)
Definition CR : ascii := "013"%char.

(** [dropCR] of package [bufio]: a carriage return at the end of the data
    is dropped. *)
Fixpoint dropCR (data : string) : string :=
  match data with
  | EmptyString => EmptyString
  | String c EmptyString => if Ascii.eqb c CR then EmptyString else data
  | String c rest => String c (dropCR rest)
  end.

(** The data cut at its first line feed, as [ScanLines] cuts it with
    [bytes.IndexByte(data, '\n')]: what is before the line feed and what is
    behind it; [None] when the data holds no line feed. *)
Fixpoint cut (data : string) : option (string * string) :=
  match data with
  | EmptyString => None
  | String c rest =>
      if Ascii.eqb c "010" then Some (EmptyString, rest)
      else match cut rest with
           | Some (line, rest') => Some (String c line, rest')
           | None => None
           end
  end.

(** [bufio.ErrTooLong]. *)
Definition ErrTooLong : error :=
  mkError "bufio.Scanner: token too long" false false.

(** A call of [scanner.Scan()] with [ScanLines], the split function of a
    new scanner, on a stream that holds [data] and is still open: the next
    line without its end-of-line marker, or the error of a line that does
    not fit the buffer, with what is left of the stream; [None] when the
    scanner has to wait for more data. *)
Definition Scan (data : string) : option (ScanResult * string) :=
  match cut data with
  | Some (line, rest) =>
      if decide (N.of_nat (String.length line) < MaxScanTokenSize)%N
      then Some (Line (dropCR line), rest)
      else Some (ScanEnd (Some ErrTooLong), data)
  | None =>
      if decide (N.of_nat (String.length data) < MaxScanTokenSize)%N then None
      else Some (ScanEnd (Some ErrTooLong), data)
  end.

(** The last byte of a string. *)
Fixpoint lastByte (s : string) : option ascii :=
  match s with
  | EmptyString => None
  | String c EmptyString => Some c
  | String _ rest => lastByte rest
  end.

(** Every byte of the string passes the test. *)
Fixpoint every (p : ascii -> bool) (s : string) : bool :=
  match s with
  | EmptyString => true
  | String c rest => p c && every p rest
  end.

Definition notLF (c : ascii) : bool := negb (Ascii.eqb c "010").

Definition notCR (c : ascii) : bool := negb (Ascii.eqb c CR).

End GoBufio.

(** ** Package [net/http]: requests and the response writer *)

Module GoHTTP.
Import GoStrings.

(** A [http.Header], by the first value of every key. *)
Abbreviation Header := (gmap string string).

(** [h.Get(key)]: the empty string when the key is absent. *)
Definition Get (h : Header) (key : string) : string := default "" (h !! key).

(** What a handler reads of a [*http.Request]. *)
Record Request := mkRequest {
  Method : string;
  Path : string;
  RemoteAddr : string;
  requestHeader : Header
}.

(** A [http.ResponseWriter]: [header] is the map of [w.Header()];
    [status] is the code of the status line once it has been written,
    [sent] the header map as it was at that moment (the server adds fields
    of its own to it), [body] what has been written after it. *)
Record ResponseWriter := mkResponseWriter {
  header : Header;
  status : option nat;
  sent : Header;
  body : string
}.

Definition NewResponseWriter : ResponseWriter :=
  mkResponseWriter ∅ None ∅ "".

(** [w.Header().Set(key, value)]. *)
Definition Set_ (key value : string) (w : ResponseWriter) : ResponseWriter :=
  mkResponseWriter (<[key := value]> (header w)) (status w) (sent w) (body w).

(** [w.Header().Del(key)]. *)
Definition Del (key : string) (w : ResponseWriter) : ResponseWriter :=
  mkResponseWriter (delete key (header w)) (status w) (sent w) (body w).

(** [w.WriteHeader(code)]: the first call writes the status line and the
    header; a later call is ignored. *)
Definition WriteHeader (code : nat) (w : ResponseWriter) : ResponseWriter :=
  match status w with
  | Some _ => w
  | None => mkResponseWriter (header w) (Some code) (header w) (body w)
  end.

Definition StatusOK : nat := 200.
Definition StatusUnauthorized : nat := 401.
Definition StatusInternalServerError : nat := 500.

(** [w.Write(data)], which [fmt.Fprintf(w, ...)] calls: the status line
    is written first, with [StatusOK], if it has not been. *)
Definition Write (data : string) (w : ResponseWriter) : ResponseWriter :=
  let w := WriteHeader StatusOK w in
  mkResponseWriter (header w) (status w) (sent w) (body w +:+ data).

(** [http.Error(w, error, code)]. *)
Definition Error (error : string) (code : nat) (w : ResponseWriter)
  : ResponseWriter :=
  let w := Del "Content-Length" w in
  let w := Set_ "Content-Type" "text/plain; charset=utf-8" w in
  let w := Set_ "X-Content-Type-Options" "nosniff" w in
  let w := WriteHeader code w in
  Write (error +:+ LF) w.

End GoHTTP.

(** ** [networking/network_tcp.go] *)

Module NetworkTcp.
Import GoStrings GoNet.

(** What [time.Now()] shows on the wall clock. *)
Record Time := mkTime {
  year : N; month : N; day : N;
  hour : N; minute : N; second : N
}.

Definition zeros (n : nat) : string := Nat.iter n (String "0"%char) "".

(** [appendInt] of package [time]: the decimal digits of [x], padded with
    zeros to [width]. *)
Definition appendInt (x : N) (width : nat) : string :=
  let d := pretty x in
  zeros (width - String.length d) +:+ d.

(** [t.Format("2006-01-02")]. *)
Definition Format_date (t : Time) : string :=
  appendInt (year t) 4 +:+ "-" +:+ appendInt (month t) 2 +:+ "-"
    +:+ appendInt (day t) 2.

(** [t.Format("2006-01-02 15:04:05")]. *)
Definition Format_datetime (t : Time) : string :=
  Format_date t +:+ " " +:+ appendInt (hour t) 2 +:+ ":"
    +:+ appendInt (minute t) 2 +:+ ":" +:+ appendInt (second t) 2.

Module TCPServer.

Definition Listener := nat.

Inductive LogLine :=
| LogListening (address : string)
| LogTemporary (err : error)
| LogConnected (conn : Conn)
| LogDisconnected (conn : Conn)
| LogReceived (message : string)
| LogReadError (err : error)
| LogShuttingDown
| LogShutDown.

(** The [TCPServer] struct with the sockets it has opened.  [listener]
    is [None] for [nil]; [wg] is the counter of the [sync.WaitGroup];
    [handling] holds the connections whose [handleConnection] goroutine
    runs. *)
Record State := mkState {
  address : string;
  listener : option Listener;
  wg : Z;
  handling : gset Conn;
  closedListeners : gset Listener;
  closedConns : gset Conn;
  outbox : gmap Conn (list string);
  logs : list LogLine
}.

Definition NewTCPServer (address : string) : State :=
  mkState address None 0 ∅ ∅ ∅ ∅ [].

Definition logPrintf (l : LogLine) (s : State) : State :=
  mkState (address s) (listener s) (wg s) (handling s)
          (closedListeners s) (closedConns s) (outbox s) (logs s ++ [l]).

(** [processMessage]; [now] is the reading of [time.Now()]. *)
Definition processMessage (now : Time) (message : string) : string :=
  let message := TrimSpace message in
  if String.eqb message "ping" then "pong"
  else if String.eqb message "time" then Format_datetime now
  else if String.eqb message "date" then Format_date now
  else if String.eqb message "quit" then "BYE"
  else if String.eqb message "echo" then
    "请提供要回显的内容，格式: echo:<内容>"
  else if HasPrefix message "echo:" then TrimPrefix message "echo:"
  else "未知命令: " +:+ message.

(** [s.wg.Add(1); go s.handleConnection(conn)], up to the first
    [scanner.Scan()]. *)
Definition spawn (conn : Conn) (s : State) : State :=
  logPrintf (LogConnected conn)
    (mkState (address s) (listener s) (wg s + 1)%Z ({[conn]} ∪ handling s)
             (closedListeners s) (closedConns s) (outbox s) (logs s)).

(** The accept loop of [Start] from its test of the listener on, with the
    results that its calls of [Accept] deliver; with no result left the
    loop waits in [Accept].  The test and the call of [Accept] behind it
    are one turn of the loop. *)
Fixpoint acceptLoop (accepts : list AcceptResult) (s : State)
  : Outcome * State :=
  match listener s with
  | None => (Returned None, s)
  | Some _ =>
      match accepts with
      | [] => (Blocked, s)
      | AcceptFailed err :: rest =>
          if isNetError err && Temporary err
          then acceptLoop rest (logPrintf (LogTemporary err) s)
          else (Returned (Some ("接受连接失败: " +:+ Error err)), s)
      | Accepted conn :: rest => acceptLoop rest (spawn conn s)
      end
  end.

(** The loop of [Start] from the return of the [Accept] it was waiting in:
    [Accept] delivers [r], and the later calls deliver [rest].  The loop
    has tested the listener before that call and tests it again only
    before the next: what [Shutdown] has done to the listener meanwhile
    shows in the result of [Accept], not in the test. *)
Definition resume (r : AcceptResult) (rest : list AcceptResult) (s : State)
  : Outcome * State :=
  match r with
  | AcceptFailed err =>
      if isNetError err && Temporary err
      then acceptLoop rest (logPrintf (LogTemporary err) s)
      else (Returned (Some ("接受连接失败: " +:+ Error err)), s)
  | Accepted conn => acceptLoop rest (spawn conn s)
  end.

(** [Start]: [listen] is the result of [net.Listen]. *)
Definition Start (listen : Listener + error) (accepts : list AcceptResult)
    (s : State) : Outcome * State :=
  match listen with
  | inr err => (Returned (Some ("创建监听器失败: " +:+ Error err)), s)
  | inl l =>
      acceptLoop accepts
        (logPrintf (LogListening (address s))
           (mkState (address s) (Some l) (wg s) (handling s)
                    (closedListeners s) (closedConns s) (outbox s)
                    (logs s)))
  end.

(** One turn of the goroutine [handleConnection conn] at
    [scanner.Scan()]: a line is answered; the end of the stream runs the
    deferred [conn.Close()] and [s.wg.Done()]. *)
Definition handleConnection (now : Time) (conn : Conn) (r : ScanResult)
    (s : State) : State :=
  if decide (conn ∈ handling s) then
    match r with
    | Line message =>
        let s := logPrintf (LogReceived message) s in
        mkState (address s) (listener s) (wg s) (handling s)
                (closedListeners s) (closedConns s)
                (write (closedConns s) conn
                       (processMessage now message +:+ LF) (outbox s))
                (logs s)
    | ScanEnd err =>
        let s := match err with
                 | Some e => logPrintf (LogReadError e) s
                 | None => s
                 end in
        logPrintf (LogDisconnected conn)
          (mkState (address s) (listener s) (wg s - 1)%Z
                   (handling s ∖ {[conn]}) (closedListeners s)
                   ({[conn]} ∪ closedConns s) (outbox s) (logs s))
    end
  else s.




(** The counter of the wait group is the number of running handlers. *)
Definition counted (s : State) : Prop :=
  wg s = Z.of_nat (size (handling s)).


(** What happens to the server: [Accept] delivers a result to the loop of
    [Start], or a handler takes a turn. *)
Inductive Event :=
| Accepts (r : AcceptResult)
| Handles (now : Time) (conn : Conn) (r : ScanResult).

(** The server under a schedule, from the accept loop of [Start] on: [o]
    tells whether the loop still waits in [Accept] ([Blocked]) or [Start]
    has returned; once it has, nothing is accepted any more.  A result of
    [Accept] takes the loop on from that call to the next. *)
Fixpoint run (es : list Event) (o : Outcome) (s : State) : Outcome * State :=
  match es with
  | [] => (o, s)
  | Accepts r :: rest =>
      match o with
      | Blocked => let (o', s') := resume r [] s in run rest o' s'
      | Returned _ => run rest o s
      end
  | Handles now conn r :: rest => run rest o (handleConnection now conn r s)
  end.

(** The connections that a schedule accepts. *)
Fixpoint accepted (es : list Event) : list Conn :=
  match es with
  | [] => []
  | Accepts (Accepted conn) :: rest => conn :: accepted rest
  | _ :: rest => accepted rest
  end.

End TCPServer.

Module ChatServer.

(** Where the goroutine [handleChatClient conn] stands: in a
    [scanner.Scan()], in a [cs.mu.Lock()] or in a send on [cs.broadcast].
    It has made the call, and the call has not returned. *)
Inductive PC :=
| ReadName
| LockRegister (username : string)
| SendJoin (username : string)
| ReadMsg (username : string)
| SendMsg (username msg : string)
| LockDeregister (username : string)
| SendLeave (username : string)
| Exited.

(** The [ChatServer] struct ([clients], [broadcast]) with its mutex, the
    goroutines of its clients and the sockets.  [taken] is the message
    that [handleBroadcast] has received from the channel and not written
    yet: it is in [cs.mu.RLock()] with it.  [rlocks] counts the read locks
    on [mu] that [handleBroadcast] holds: it defers every [RUnlock] to its
    return, and its loop over the channel does not end. *)
Record State := mkState {
  clients : gmap Conn string;
  broadcast : list string;
  taken : option string;
  rlocks : nat;
  pcs : gmap Conn PC;
  closedConns : gset Conn;
  outbox : gmap Conn (list string)
}.

(** [make(chan string, 10)]. *)
Definition broadcastCap : nat := 10.

Definition NewChatServer : State := mkState ∅ [] None 0 ∅ ∅ ∅.

(** The accept loop of [Start]: every accepted connection gets its
    goroutine; the first error ends the loop. *)
Fixpoint acceptLoop (accepts : list AcceptResult) (s : State)
  : Outcome * State :=
  match accepts with
  | [] => (Blocked, s)
  | AcceptFailed err :: _ => (Returned (Some (Error err)), s)
  | Accepted conn :: rest =>
      acceptLoop rest
        (mkState (clients s) (broadcast s) (taken s) (rlocks s)
                 (<[conn := ReadName]> (pcs s)) (closedConns s) (outbox s))
  end.

(** [cs.clients[conn] = username]. *)
Definition register (conn : Conn) (username : string) (s : State) : State :=
  mkState (<[conn := username]> (clients s)) (broadcast s) (taken s)
          (rlocks s) (pcs s) (closedConns s) (outbox s).

(** [delete(cs.clients, conn)]. *)
Definition deregister (conn : Conn) (s : State) : State :=
  mkState (delete conn (clients s)) (broadcast s) (taken s) (rlocks s)
          (pcs s) (closedConns s) (outbox s).

Definition goto (conn : Conn) (pc : PC) (s : State) : State :=
  mkState (clients s) (broadcast s) (taken s) (rlocks s)
          (<[conn := pc]> (pcs s)) (closedConns s) (outbox s).

(** The deferred [conn.Close()]. *)
Definition close (conn : Conn) (s : State) : State :=
  mkState (clients s) (broadcast s) (taken s) (rlocks s) (pcs s)
          ({[conn]} ∪ closedConns s) (outbox s).

(** A turn of [handleChatClient conn] on the return of a
    [scanner.Scan()], up to its next call, which is [cs.mu.Lock()] or a
    send on the channel; [None] when the goroutine is not waiting for
    input. *)
Definition handleChatClient_scan (conn : Conn) (r : ScanResult) (s : State)
  : option State :=
  match pcs s !! conn with
  | Some ReadName =>
      match r with
      | Line username => Some (goto conn (LockRegister username) s)
      | ScanEnd _ => Some (goto conn Exited (close conn s))
      end
  | Some (ReadMsg username) =>
      match r with
      | Line msg =>
          if String.eqb msg "/quit"
          then Some (goto conn (LockDeregister username) s)
          else Some (goto conn (SendMsg username msg) s)
      | ScanEnd _ => Some (goto conn (LockDeregister username) s)
      end
  | _ => None
  end.

(** A turn of [handleChatClient conn] on the return of [cs.mu.Lock()],
    with the update of the map and [cs.mu.Unlock()], up to the send on the
    channel; the write lock is not given while a read lock is held. *)
Definition handleChatClient_lock (conn : Conn) (s : State) : option State :=
  if decide (rlocks s = 0) then
    match pcs s !! conn with
    | Some (LockRegister username) =>
        Some (goto conn (SendJoin username) (register conn username s))
    | Some (LockDeregister username) =>
        Some (goto conn (SendLeave username) (deregister conn s))
    | _ => None
    end
  else None.

Definition atLock (pc : PC) : bool :=
  match pc with
  | LockRegister _ | LockDeregister _ => true
  | _ => false
  end.

(** The goroutines that are in [cs.mu.Lock()]. *)
Definition locking (s : State) : gset Conn :=
  dom (filter (fun kv => atLock kv.2 = true) (pcs s)).

(** The goroutines that wait in [cs.mu.Lock()]: they are in the call
    while a read lock is held.  (With no read lock held, a goroutine that
    is in the call is given the lock: that is its next turn.) *)
Definition waiting (s : State) : gset Conn :=
  if decide (rlocks s = 0) then ∅ else locking s.

(** [cs.broadcast <- msg]: the send waits while the channel is full. *)
Definition send (msg : string) (s : State) : option State :=
  if decide (length (broadcast s) < broadcastCap) then
    Some (mkState (clients s) (broadcast s ++ [msg]) (taken s) (rlocks s)
                  (pcs s) (closedConns s) (outbox s))
  else None.

(** A turn of [handleChatClient conn] at a send on [cs.broadcast]. *)
Definition handleChatClient_send (conn : Conn) (s : State) : option State :=
  match pcs s !! conn with
  | Some (SendJoin username) =>
      s' ← send ("[系统] " +:+ username +:+ " 加入聊天") s;
      Some (goto conn (ReadMsg username) s')
  | Some (SendMsg username msg) =>
      s' ← send ("[" +:+ username +:+ "] " +:+ msg) s;
      Some (goto conn (ReadMsg username) s')
  | Some (SendLeave username) =>
      s' ← send ("[系统] " +:+ username +:+ " 离开聊天") s;
      Some (goto conn Exited (close conn s'))
  | _ => None
  end.

(** [fmt.Fprintf(conn, "%s\n", msg)] for every [conn] of [cs.clients]. *)
Definition fanOut (msg : string) (s : State) : gmap Conn (list string) :=
  union_with (fun old new => Some (old ++ new))
    (outbox s)
    ((fun _ => [msg +:+ LF]) <$>
       filter (fun kv => kv.1 ∉ closedConns s) (clients s)).

(** A turn of [handleBroadcast], which waits in two places.  In the
    receive of [for msg := range cs.broadcast] it takes the oldest message
    of the channel ([None] while the channel is empty) and goes to
    [cs.mu.RLock()].  There it gets one more read lock, which it keeps,
    writes the message to every client and goes back to the receive.  A
    [sync.RWMutex] gives no read lock while a goroutine waits in its
    [Lock()]: then [handleBroadcast] waits with the message it has taken
    ([None]). *)
Definition handleBroadcast (s : State) : option State :=
  match taken s with
  | None =>
      match broadcast s with
      | [] => None
      | msg :: rest =>
          Some (mkState (clients s) rest (Some msg) (rlocks s) (pcs s)
                        (closedConns s) (outbox s))
      end
  | Some msg =>
      if decide (waiting s = ∅) then
        Some (mkState (clients s) (broadcast s) None (S (rlocks s)) (pcs s)
                      (closedConns s) (fanOut msg s))
      else None
  end.

(** The turns that a scheduler gives to the goroutines. *)
Inductive Turn :=
| Scan (conn : Conn) (r : ScanResult)
| Lock (conn : Conn)
| Send (conn : Conn)
| Broadcast.

Definition turn (t : Turn) (s : State) : option State :=
  match t with
  | Scan conn r => handleChatClient_scan conn r s
  | Lock conn => handleChatClient_lock conn s
  | Send conn => handleChatClient_send conn s
  | Broadcast => handleBroadcast s
  end.

Fixpoint run (ts : list Turn) (s : State) : option State :=
  match ts with
  | [] => Some s
  | t :: rest => s' ← turn t s; run rest s'
  end.

(** The places of [handleChatClient] between its registration and its
    deregistration. *)
Definition active (pc : PC) : bool :=
  match pc with
  | SendJoin _ | ReadMsg _ | SendMsg _ _ | LockDeregister _ => true
  | _ => false
  end.

(** The registry holds the connections whose goroutine is between the two,
    and a closed connection belongs to a goroutine that has returned. *)
Definition registryInv (s : State) : Prop :=
  forall c,
    (is_Some (clients s !! c) <->
     exists pc, pcs s !! c = Some pc /\ active pc = true)
    /\ (c ∈ closedConns s -> pcs s !! c = Some Exited).

(** One round of the loop of [handleBroadcast]: the receive and the read
    lock with its writes. *)
Definition round : list Turn := [Broadcast; Broadcast].

(** [k] rounds. *)
Definition rounds (k : nat) : list Turn := concat (replicate k round).

End ChatServer.

(** The bytes of a time in the two layouts of [processMessage]. *)
Definition digit (c : ascii) : bool :=
  (48 <=? byte c)%N && (byte c <=? 57)%N.

Definition timeByte (c : ascii) : bool :=
  digit c || Ascii.eqb c "-" || Ascii.eqb c " " || Ascii.eqb c ":".

Module TCPClient.
Import TCPServer GoBufio.

(** [TCPClient]. *)
Record TCPClient := mkTCPClient {
  address : string;
  conn : Conn
}.

(** [NewTCPClient]; [dial] is the result of [net.Dial]. *)
Definition NewTCPClient (address : string) (dial : Conn + error)
  : TCPClient + string :=
  match dial with
  | inl conn => inl (mkTCPClient address conn)
  | inr err => inr ("连接服务器失败: " +:+ Error err)
  end.

(** A client and the server across one connection: [server] is the
    server, [buffered] what the scanner of the handler holds of a line
    that is not complete yet, [inbox] what the server has written to the
    connection and the client has not read. *)
Record Session := mkSession {
  server : State;
  buffered : string;
  inbox : string
}.

(** The loop of [handleConnection] on the data that has arrived: every
    complete line is handed to the handler; the loop ends when the scanner
    has to wait, or with the error of the scanner.  Every line takes at
    least a byte of the data, so its length is fuel enough. *)
Fixpoint serve (fuel : nat) (now : Time) (conn : Conn) (data : string)
    (s : State) : string * State :=
  match fuel with
  | 0 => (data, s)
  | S fuel' =>
      match Scan data with
      | None => (data, s)
      | Some (Line message, rest) =>
          serve fuel' now conn rest (handleConnection now conn (Line message) s)
      | Some (ScanEnd err, rest) =>
          (rest, handleConnection now conn (ScanEnd err) s)
      end
  end.

(** What has been written to [conn] between two states of the server. *)
Definition writtenSince (before after : State) (conn : Conn) : string :=
  String.concat ""
    (skipn (length (received (outbox before) conn))
           (received (outbox after) conn)).

(** What [Send] returns: the response, the error of the scanner, or
    nothing as long as no line has come (the call then waits, or returns
    what the end of the stream gives it). *)
Inductive SendResult :=
| Answered (response : string)
| Failed (err : option error)
| Unanswered.

(** [Send]: the message goes out with a line feed, the handler of the
    server answers the lines it finds, and a new scanner reads one line of
    what has come back.  The clock shows [now] meanwhile; [ahead] is the
    number of bytes behind that line which the scanner has read into its
    buffer as well: they are lost with the scanner. *)
Definition Send (now : Time) (ahead : nat) (message : string) (c : TCPClient)
    (w : Session) : SendResult * Session :=
  let data := buffered w +:+ message +:+ LF in
  let (rest, s') :=
    serve (S (String.length data)) now (conn c) data (server w) in
  let stream := inbox w +:+ writtenSince (server w) s' (conn c) in
  match Scan stream with
  | Some (Line response, behind) =>
      (Answered response, mkSession s' rest (drop ahead behind))
  | Some (ScanEnd err, behind) => (Failed err, mkSession s' rest behind)
  | None => (Unanswered, mkSession s' rest stream)
  end.

(** The session is at rest: the handler of the connection runs and waits
    for a line, and nothing is under way. *)
Definition atRest (c : TCPClient) (w : Session) : Prop :=
  conn c ∈ handling (server w) /\ (conn c ∉ closedConns (server w))
  /\ buffered w = "" /\ inbox w = "".

End TCPClient.

End NetworkTcp.

(** ** The networking guide: chat server and heartbeat server *)

Module NetworkingGuide.
Import GoStrings GoNet.

Module TCPServer.

(** [Client]; [sendChan] holds what is queued in the channel. *)
Record Client := mkClient {
  conn : Conn;
  name : string;
  sendChan : list string
}.

(** [make(chan string, 100)]. *)
Definition sendChanCap : nat := 100.

Inductive LogLine :=
| LogListening (address : string)
| LogAcceptFailed (err : error)
| LogConnected (name : string).

(** The [TCPServer] struct with its goroutines and sockets: [naming]
    holds the connections whose [handleConnection] waits for the name,
    [readers] the running [readMessages] goroutines with the name of
    their client. *)
Record State := mkState {
  address : string;
  clients : gmap string Client;
  naming : gset Conn;
  readers : gmap Conn string;
  closedConns : gset Conn;
  logs : list LogLine
}.

Definition NewTCPServer (address : string) : State :=
  mkState address ∅ ∅ ∅ ∅ [].

Definition logPrintf (l : LogLine) (s : State) : State :=
  mkState (address s) (clients s) (naming s) (readers s) (closedConns s)
          (logs s ++ [l]).

(** The accept loop of [Start]: a failed [Accept] is logged and the loop
    goes on; the loop has no exit. *)
Fixpoint acceptLoop (accepts : list AcceptResult) (s : State) : State :=
  match accepts with
  | [] => s
  | AcceptFailed err :: rest =>
      acceptLoop rest (logPrintf (LogAcceptFailed err) s)
  | Accepted conn :: rest =>
      acceptLoop rest
        (mkState (address s) (clients s) ({[conn]} ∪ naming s) (readers s)
                 (closedConns s) (logs s))
  end.

(** [Start]: [listen] is the result of [net.Listen]; once the server
    listens, [Start] does not return. *)
Definition Start (listen : nat + error) (accepts : list AcceptResult)
    (s : State) : Outcome * State :=
  match listen with
  | inr err => (Returned (Some (Error err)), s)
  | inl _ =>
      (Blocked, acceptLoop accepts (logPrintf (LogListening (address s)) s))
  end.

(** [select { case client.sendChan <- message: default: }]. *)
Definition trySend (message : string) (client : Client) : Client :=
  if decide (length (sendChan client) < sendChanCap) then
    mkClient (conn client) (name client) (sendChan client ++ [message])
  else client.

(** [broadcast]. *)
Definition broadcast (message : string) (s : State) : State :=
  mkState (address s) (trySend message <$> clients s) (naming s)
          (readers s) (closedConns s) (logs s).

(** [s.clients[client.name] = client] under [s.mu.Lock()]. *)
Definition register (client : Client) (s : State) : State :=
  mkState (address s) (<[name client := client]> (clients s)) (naming s)
          (readers s) (closedConns s) (logs s).

(** [delete(s.clients, name)] under [s.mu.Lock()]. *)
Definition deregister (name : string) (s : State) : State :=
  mkState (address s) (delete name (clients s)) (naming s) (readers s)
          (closedConns s) (logs s).

(** [conn.Close()]. *)
Definition close (conn : Conn) (s : State) : State :=
  mkState (address s) (clients s) (naming s) (readers s)
          ({[conn]} ∪ closedConns s) (logs s).

(** [handleConnection], from the read of the name to the start of
    [readMessages]; the error of the read is dropped, as in the
    source. *)
Definition handleConnection (conn : Conn) (r : ReadResult) (s : State)
  : State :=
  if decide (conn ∈ naming s) then
    let client := mkClient conn (TrimSpace (dataOf r)) [] in
    let s := register client s in
    let s := logPrintf (LogConnected (name client)) s in
    let s := broadcast (name client +:+ " 加入聊天室" +:+ LF) s in
    mkState (address s) (clients s) (naming s ∖ {[conn]})
            (<[conn := name client]> (readers s)) (closedConns s) (logs s)
  else s.

Definition stopReader (conn : Conn) (s : State) : State :=
  mkState (address s) (clients s) (naming s) (delete conn (readers s))
          (closedConns s) (logs s).

(** One round of the loop of [readMessages] for the client of [conn]. *)
Definition readMessages (conn : Conn) (r : ReadResult) (s : State) : State :=
  match readers s !! conn with
  | Some name =>
      match r with
      | ReadFailed _ =>
          stopReader conn
            (broadcast (name +:+ " 离开聊天室" +:+ LF) (deregister name s))
      | ReadOk message =>
          let message := TrimSpace message in
          if String.eqb message "/quit" then stopReader conn (close conn s)
          else broadcast ("[" +:+ name +:+ "]: " +:+ message +:+ LF) s
      end
  | None => s
  end.

(** The turns of the goroutines. *)
Inductive Turn :=
| Accept (r : AcceptResult)
| Name (conn : Conn) (r : ReadResult)
| Read (conn : Conn) (r : ReadResult).

Definition turn (t : Turn) (s : State) : State :=
  match t with
  | Accept r => acceptLoop [r] s
  | Name conn r => handleConnection conn r s
  | Read conn r => readMessages conn r s
  end.

Definition run (ts : list Turn) (s : State) : State :=
  foldl (fun s t => turn t s) s ts.

(** The registry alone, under [Register] and [Deregister]. *)
Inductive RegistryOp :=
| Register (client : Client)
| Deregister (name : string).

Definition applyOp (reg : gmap string Client) (op : RegistryOp)
  : gmap string Client :=
  match op with
  | Register client => <[name client := client]> reg
  | Deregister name => delete name reg
  end.

(** Whether [id] has been registered and not deregistered since. *)
Fixpoint registered (id : string) (ops : list RegistryOp) (before : bool)
  : bool :=
  match ops with
  | [] => before
  | Register client :: rest =>
      registered id rest (if decide (name client = id) then true else before)
  | Deregister name :: rest =>
      registered id rest (if decide (name = id) then false else before)
  end.

(** The receive of [for message := range client.sendChan] in
    [writeMessages], by the writer of the client that the registry holds
    under [n]: the oldest message leaves the channel, and the writer
    writes it to the connection.  [None] while the channel is empty: the
    writer waits. *)
Definition receive (n : string) (s : State) : option (string * State) :=
  match clients s !! n with
  | Some client =>
      match sendChan client with
      | [] => None
      | message :: rest =>
          Some (message,
                mkState (address s)
                        (<[n := mkClient (conn client) (name client) rest]>
                           (clients s))
                        (naming s) (readers s) (closedConns s) (logs s))
      end
  | None => None
  end.

(** What happens to the channel of a client: a [broadcast] offers it a
    message, or its writer comes to receive. *)
Inductive ChanOp :=
| Offer (message : string)
| Take.

(** The server under such operations, with the messages that the writer
    of the client under [n] receives, in the order in which it receives
    them; a writer that finds the channel empty waits. *)
Fixpoint deliver (n : string) (ops : list ChanOp) (s : State)
  : list string * State :=
  match ops with
  | [] => ([], s)
  | Offer message :: rest => deliver n rest (broadcast message s)
  | Take :: rest =>
      match receive n s with
      | Some (message, s') =>
          let (got, s'') := deliver n rest s' in (message :: got, s'')
      | None => deliver n rest s
      end
  end.

(** The messages that [ops] offers. *)
Fixpoint offered (ops : list ChanOp) : list string :=
  match ops with
  | [] => []
  | Offer message :: rest => message :: offered rest
  | Take :: rest => offered rest
  end.

(** The messages of [ops] that are offered when the channel, which holds
    [queued] messages at first, has room. *)
Fixpoint kept (ops : list ChanOp) (queued : nat) : list string :=
  match ops with
  | [] => []
  | Offer message :: rest =>
      if decide (queued < sendChanCap) then message :: kept rest (S queued)
      else kept rest queued
  | Take :: rest => kept rest (pred queued)
  end.

(** No [sendChan] of the registry holds more than the channel takes. *)
Definition bounded (s : State) : Prop :=
  forall n c, clients s !! n = Some c -> length (sendChan c) <= sendChanCap.

End TCPServer.

Module HeartbeatServer.

(** [time.Duration] counts nanoseconds. *)
Definition Second : Z := 1000000000.
Definition heartbeatInterval : Z := 30 * Second.
Definition heartbeatTimeout : Z := 90 * Second.

(** [ClientInfo]; [lastSeen] is a clock reading in nanoseconds. *)
Record ClientInfo := mkClientInfo {
  lastSeen : Z;
  isActive : bool;
  heartbeat : list bool
}.

(** The [HeartbeatServer] struct with the running [handleConnection]
    goroutines and the sockets. *)
Record State := mkState {
  listeners : gmap Conn ClientInfo;
  handlers : gset Conn;
  closedConns : gset Conn;
  outbox : gmap Conn (list string)
}.

Definition NewHeartbeatServer : State := mkState ∅ ∅ ∅ ∅.

(** [go s.handleConnection(conn)] up to the first [conn.Read]: the
    client is registered with the time of its arrival. *)
Definition accept (now : Z) (conn : Conn) (s : State) : State :=
  mkState (<[conn := mkClientInfo now true []]> (listeners s))
          ({[conn]} ∪ handlers s) (closedConns s) (outbox s).

(** [client.lastSeen = time.Now(); client.isActive = true]. *)
Definition touch (now : Z) (client : ClientInfo) : ClientInfo :=
  mkClientInfo now true (heartbeat client).

(** One round of the loop of [handleConnection]: a failed read (the read
    deadline, the end of the stream, a closed socket) deregisters and
    closes; data refreshes [lastSeen], and a PING is answered.  A read on a
    socket that the sweep has closed fails, whatever the peer has sent. *)
Definition handleConnection (now : Z) (conn : Conn) (r : ReadResult)
    (s : State) : State :=
  if decide (conn ∈ handlers s) then
    match r with
    | ReadOk data =>
        if decide (conn ∈ closedConns s) then
          mkState (delete conn (listeners s)) (handlers s ∖ {[conn]})
                  ({[conn]} ∪ closedConns s) (outbox s)
        else
          mkState (alter (touch now) conn (listeners s)) (handlers s)
                  (closedConns s)
                  (if String.eqb data "PING"
                   then <[conn := default [] (outbox s !! conn) ++ ["PONG"]]>
                          (outbox s)
                   else outbox s)
    | ReadFailed _ =>
        mkState (delete conn (listeners s)) (handlers s ∖ {[conn]})
                ({[conn]} ∪ closedConns s) (outbox s)
    end
  else s.

(** [time.Since(client.lastSeen) > heartbeatTimeout]. *)
Definition expired (now : Z) (client : ClientInfo) : Prop :=
  (heartbeatTimeout < now - lastSeen client)%Z.

Global Instance expired_dec now client : Decision (expired now client) :=
  decide (heartbeatTimeout < now - lastSeen client)%Z.

(** One tick of [heartbeatChecker], with the clock at [now]: every expired
    client is deleted from the map and its connection closed. *)
Definition heartbeatChecker (now : Z) (s : State) : State :=
  mkState (filter (fun kv => ¬ expired now kv.2) (listeners s))
          (handlers s)
          (dom (filter (fun kv => expired now kv.2) (listeners s))
             ∪ closedConns s)
          (outbox s).

Inductive Event :=
| Accept (conn : Conn)
| Read (conn : Conn) (r : ReadResult)
| Tick.

(** An event with the reading of the clock when it happens. *)
Definition step (s : State) (te : Z * Event) : State :=
  match te.2 with
  | Accept conn => accept te.1 conn s
  | Read conn r => handleConnection te.1 conn r s
  | Tick => heartbeatChecker te.1 s
  end.

Definition run (trace : list (Z * Event)) (s : State) : State :=
  foldl step s trace.

(** The clock reading of the last arrival or data of [conn] in a trace;
    [seen] when there is none. *)
Definition heard (conn : Conn) (seen : Z) (te : Z * Event) : Z :=
  match te.2 with
  | Accept c => if decide (c = conn) then te.1 else seen
  | Read c (ReadOk _) => if decide (c = conn) then te.1 else seen
  | _ => seen
  end.

Definition lastHeard (conn : Conn) (trace : list (Z * Event)) (seen : Z) : Z :=
  foldl (heard conn) seen trace.

(** The events of [conn] that the claim excludes: on the silent side its
    data and arrival, on the lively side the failure of a read. *)
Definition speaks (conn : Conn) (e : Event) : Prop :=
  match e with
  | Accept c => c = conn
  | Read c (ReadOk _) => c = conn
  | _ => False
  end.

Definition fails (conn : Conn) (e : Event) : Prop :=
  match e with
  | Read c (ReadFailed _) => c = conn
  | _ => False
  end.

(** The client [c] has left: it is out of the registry and its socket is
    closed. *)
Definition gone (c : Conn) (s : State) : Prop :=
  listeners s !! c = None /\ c ∈ closedConns s.

(** The client [c] is registered and was last seen at [seen]. *)
Definition seenAt (c : Conn) (seen : Z) (s : State) : Prop :=
  exists ci, listeners s !! c = Some ci /\ lastSeen ci = seen.

(** The invariant of a lively client: registered, handled, open, and seen
    when it was last heard. *)
Definition lively (c : Conn) (seen : Z) (s : State) : Prop :=
  seenAt c seen s /\ c ∈ handlers s /\ c ∉ closedConns s.

(** At every sweep of the trace the last arrival or data of [conn] is at
    most [heartbeatTimeout] old; [seen] is when it was last seen before the
    trace. *)
Fixpoint timely (conn : Conn) (seen : Z) (trace : list (Z * Event)) : Prop :=
  match trace with
  | [] => True
  | te :: rest =>
      match te.2 with
      | Tick => (te.1 - seen <= heartbeatTimeout)%Z
      | _ => True
      end
      /\ timely conn (heard conn seen te) rest
  end.

(** The connections that a trace accepts. *)
Fixpoint accepted (trace : list (Z * Event)) : list Conn :=
  match trace with
  | [] => []
  | (_, Accept conn) :: rest => conn :: accepted rest
  | _ :: rest => accepted rest
  end.

(** Every client of the registry has its handler and an open socket. *)
Definition registryInv (s : State) : Prop :=
  forall c, is_Some (listeners s !! c) ->
    c ∈ handlers s /\ c ∉ closedConns s.

End HeartbeatServer.

Module TCPClient.

(** The [TCPClient] with its connection: [sent] is what has been written
    to the connection, message by message, [closed] whether the client has
    closed it. *)
Record State := mkState {
  address : string;
  sent : list string;
  closed : bool
}.

(** [NewTCPClient]; [dial] is the result of [net.DialTimeout]. *)
Definition NewTCPClient (address : string) (dial : Conn + error)
  : State + error :=
  match dial with
  | inl _ => inl (mkState address [] false)
  | inr err => inr err
  end.

(** [Send]: a write to a connection that the client has closed fails, and
    nothing is written. *)
Definition Send (message : string) (c : State) : State :=
  if closed c then c else mkState (address c) (sent c ++ [message]) false.

(** [Close]. *)
Definition Close (c : State) : State := mkState (address c) (sent c) true.

(** The loop of [Run] over what [reader.ReadString('\n')] returns from
    the terminal, call after call: a line with its line feed, or, at the
    end of the input, what is left of it without one (the error is
    dropped).  The result tells whether the loop has been left (then [Run]
    waits for its reading goroutine) or waits for the next input. *)
Fixpoint Run (inputs : list string) (c : State) : bool * State :=
  match inputs with
  | [] => (false, c)
  | input :: rest =>
      if String.eqb (TrimSpace input) "/quit" then (true, Close c)
      else Run rest (Send input c)
  end.

(** [reader.ReadString('\n')], call after call, on a stream that holds
    [data]: the lines that the calls return, each with its line feed, and
    what is behind the last line feed.  [line] is what the call under way
    has read. *)
Fixpoint ReadStrings (line data : string) : list string * string :=
  match data with
  | EmptyString => ([], line)
  | String c rest =>
      if Ascii.eqb c "010" then
        let (lines, behind) := ReadStrings "" rest in
        ((line +:+ String c "") :: lines, behind)
      else ReadStrings (line +:+ String c "") rest
  end.

(** What [readMessages] reads from the connection of such a client.  The
    stream of the connection holds the messages of the client, one behind
    the other.  The reader of [readMessages] is a new one: it starts
    behind the [skip] bytes that the reader of [handleConnection] has
    taken from the stream for the name, the line of the name and what it
    held in its buffer behind that line.  Every line of the stream is a
    [ReadString] that succeeds; when the client has closed the connection,
    the last [ReadString] fails at the end of the stream, with what is
    behind the last line feed. *)
Definition reads (conn : Conn) (skip : nat) (c : State)
  : list TCPServer.Turn :=
  let (lines, behind) :=
    ReadStrings "" (drop skip (String.concat "" (sent c))) in
  map (fun m => TCPServer.Read conn (ReadOk m)) lines
    ++ (if closed c then [TCPServer.Read conn (ReadFailed behind)] else []).

(** What [reader.ReadString('\n')] returns with no error: a line with its
    line feed, which is its last byte and its only line feed. *)
Definition fullLine (input : string) : bool :=
  match GoBufio.cut input with
  | Some (_, EmptyString) => true
  | _ => false
  end.

End TCPClient.

Module HTTPMiddleware.
Import GoHTTP.

Inductive LogLine :=
| LogRequest (method path remoteAddr : string)
| LogPanic (err : string).

(** What a handler works on: the response writer and the log. *)
Record World := mkWorld {
  response : ResponseWriter;
  logs : list LogLine
}.

(** How [ServeHTTP] ends: it returns, or it panics with a value. *)
Inductive Result :=
| Done (w : World)
| Panicked (err : string) (w : World).

(** A [http.Handler], by its [ServeHTTP]. *)
Definition Handler := Request -> World -> Result.

Definition Middleware := Handler -> Handler.

Definition logPrintf (l : LogLine) (w : World) : World :=
  mkWorld (response w) (logs w ++ [l]).

Definition respond (f : ResponseWriter -> ResponseWriter) (w : World) : World :=
  mkWorld (f (response w)) (logs w).

(** [LoggerMiddleware]: the line is logged when [next] has returned (the
    time it took, which the clock decides, is not in the line here). *)
Definition LoggerMiddleware : Middleware :=
  fun next r w =>
    match next r w with
    | Done w' =>
        Done (logPrintf (LogRequest (Method r) (Path r) (RemoteAddr r)) w')
    | Panicked err w' => Panicked err w'
    end.

(** [AuthMiddleware(token)]. *)
Definition AuthMiddleware (token : string) : Middleware :=
  fun next r w =>
    let auth := Get (requestHeader r) "Authorization" in
    if negb (String.eqb auth ("Bearer " +:+ token)) then
      Done (respond (Error "Unauthorized" StatusUnauthorized) w)
    else next r w.

(** [CORSMiddleware]. *)
Definition CORSMiddleware : Middleware :=
  fun next r w =>
    let w := respond (Set_ "Access-Control-Allow-Origin" "*") w in
    let w := respond (Set_ "Access-Control-Allow-Methods"
                           "GET, POST, PUT, DELETE") w in
    let w := respond (Set_ "Access-Control-Allow-Headers"
                           "Content-Type, Authorization") w in
    if String.eqb (Method r) "OPTIONS" then
      Done (respond (WriteHeader StatusOK) w)
    else next r w.

(** [RecoveryMiddleware]: the deferred function recovers a panic of
    [next], logs it and answers with [http.Error]. *)
Definition RecoveryMiddleware : Middleware :=
  fun next r w =>
    match next r w with
    | Done w' => Done w'
    | Panicked err w' =>
        Done (respond (Error "Internal Server Error" StatusInternalServerError)
                      (logPrintf (LogPanic err) w'))
    end.

(** The loop of [ChainMiddleware], [for i := len(mids) - 1; i >= 0; i--],
    with [rounds] rounds to go: the next one has [i = rounds - 1]. *)
Fixpoint chainFrom (rounds : nat) (mids : list Middleware) (h : Handler)
  : Handler :=
  match rounds with
  | 0 => h
  | S i =>
      match mids !! i with
      | Some mid => chainFrom i mids (mid h)
      | None => h
      end
  end.

(** [ChainMiddleware(h, mids...)]. *)
Definition ChainMiddleware (h : Handler) (mids : list Middleware) : Handler :=
  chainFrom (length mids) mids h.

(** The handler of [main]. *)
Definition handler : Handler :=
  fun r w => Done (respond (Write ("Hello, World!" +:+ LF)) w).

(** The chain of [main] around a handler. *)
Definition wrapped (h : Handler) : Handler :=
  ChainMiddleware h
    [LoggerMiddleware; AuthMiddleware "secret-token"; CORSMiddleware;
     RecoveryMiddleware].

(** [wrappedHandler] of [main]. *)
Definition wrappedHandler : Handler := wrapped handler.

End HTTPMiddleware.

Module WebSocketHub.

(** A [*Client], by its address. *)
Definition Client := nat.

(** [make(chan []byte, 256)]. *)
Definition sendCap : nat := 256.

(** A channel: what is queued in it, the oldest first, and whether it has
    been closed. *)
Record Chan := mkChan {
  queue : list string;
  closed : bool
}.

(** The [Hub] with the clients made so far: [clients] is [h.clients],
    [send] holds [client.send] of every client that [HandleWebSocket] has
    made, [writers] the clients whose writing goroutine runs, [written]
    what [conn.WriteMessage] has written for each client. *)
Record State := mkState {
  clients : gmap Client bool;
  send : gmap Client Chan;
  writers : gset Client;
  written : gmap Client (list string)
}.

Definition NewHub : State := mkState ∅ ∅ ∅ ∅.

(** [close(client.send)]: to close a closed channel, or a [nil] channel,
    panics ([None]). *)
Definition closeSend (client : Client) (s : State) : option State :=
  match send s !! client with
  | Some ch =>
      if closed ch then None
      else Some (mkState (clients s)
                         (<[client := mkChan (queue ch) true]> (send s))
                         (writers s) (written s))
  | None => None
  end.

(** [delete(h.clients, client)]. *)
Definition deleteClient (client : Client) (s : State) : State :=
  mkState (delete client (clients s)) (send s) (writers s) (written s).

(** The case [client := <-h.register] of [Run]. *)
Definition register (client : Client) (s : State) : State :=
  mkState (<[client := true]> (clients s)) (send s) (writers s) (written s).

(** The case [client := <-h.unregister] of [Run]. *)
Definition unregister (client : Client) (s : State) : option State :=
  match clients s !! client with
  | Some _ => closeSend client (deleteClient client s)
  | None => Some s
  end.

(** The body of the loop over [h.clients] in the case
    [message := <-h.broadcast]: the [select] sends if the channel has room
    (a send on a closed channel panics), and closes the channel and deletes
    the client otherwise. *)
Definition offer (message : string) (client : Client) (s : State)
  : option State :=
  match send s !! client with
  | Some ch =>
      if closed ch then None
      else if decide (length (queue ch) < sendCap) then
        Some (mkState (clients s)
                      (<[client := mkChan (queue ch ++ [message]) false]>
                         (send s))
                      (writers s) (written s))
      else
        s' ← closeSend client s; Some (deleteClient client s')
  | None => None
  end.

(** The case [message := <-h.broadcast] of [Run]: the loop visits every
    client of the map once. *)
Definition broadcast (message : string) (s : State) : option State :=
  map_fold (fun client _ acc => acc ≫= offer message client) (Some s)
           (clients s).

(** [HandleWebSocket] after a successful upgrade: the client is made and
    handed to [Run] on [h.register], and its two goroutines start. *)
Definition HandleWebSocket (s : State) : State :=
  let client := fresh (dom (send s)) in
  register client
    (mkState (clients s) (<[client := mkChan [] false]> (send s))
             ({[client]} ∪ writers s) (written s)).

(** One round of the writing goroutine of [client]: it takes the next
    message from [client.send] and writes it, [ok] telling whether
    [conn.WriteMessage] succeeds; it returns after a failed write and when
    the channel is closed and empty. *)
Definition writeMessage (client : Client) (ok : bool) (s : State) : State :=
  if decide (client ∈ writers s) then
    match send s !! client with
    | Some ch =>
        match queue ch with
        | message :: rest =>
            let sends := <[client := mkChan rest (closed ch)]> (send s) in
            if ok then
              mkState (clients s) sends (writers s)
                      (<[client := received (written s) client ++ [message]]>
                         (written s))
            else
              mkState (clients s) sends (writers s ∖ {[client]}) (written s)
        | [] =>
            if closed ch then
              mkState (clients s) (send s) (writers s ∖ {[client]})
                      (written s)
            else s
        end
    | None => s
    end
  else s.

(** What [Run] receives on its channels, and the rounds of the writers. *)
Inductive Event :=
| Connect
| Unregister (client : Client)
| Broadcast (message : string)
| Writes (client : Client) (ok : bool).

(** A step of the hub; [None] is a panic. *)
Definition step (e : Event) (s : State) : option State :=
  match e with
  | Connect => Some (HandleWebSocket s)
  | Unregister client => unregister client s
  | Broadcast message => broadcast message s
  | Writes client ok => Some (writeMessage client ok s)
  end.

Fixpoint run (es : list Event) (s : State) : option State :=
  match es with
  | [] => Some s
  | e :: rest => s' ← step e s; run rest s'
  end.

(** The messages that a run broadcasts. *)
Fixpoint broadcasts (es : list Event) : list string :=
  match es with
  | [] => []
  | Broadcast message :: rest => message :: broadcasts rest
  | _ :: rest => broadcasts rest
  end.

(** What is in [client.send]. *)
Definition queued (s : State) (client : Client) : list string :=
  match send s !! client with
  | Some ch => queue ch
  | None => []
  end.

(** Whether [client.send] has room. *)
Definition hasRoom (s : State) (client : Client) : bool :=
  bool_decide (length (queued s client) < sendCap).

(** What the [select] of a broadcast leaves of an open channel. *)
Definition offered (message : string) (ch : Chan) : Chan :=
  if decide (length (queue ch) < sendCap)
  then mkChan (queue ch ++ [message]) false
  else mkChan (queue ch) true.

(** Every client of [h.clients] has an open channel. *)
Definition registryInv (s : State) : Prop :=
  forall client, is_Some (clients s !! client) ->
    exists ch, send s !! client = Some ch /\ closed ch = false.

End WebSocketHub.

Module ConnPool.

(** Go's [int], 64 bits wide: the value that an addition or a subtraction
    leaves. *)
Definition wrap (z : Z) : Z := ((z + 2 ^ 63) mod 2 ^ 64 - 2 ^ 63)%Z.

(** What [p.factory()] delivers. *)
Inductive Dial :=
| Dialed (conn : Conn)
| DialFailed (err : error).

(** What [Get] returns: a connection, the error of the limit (its text is
    damaged in the source), or the error of the factory. *)
Inductive GetResult :=
| Got (conn : Conn)
| LimitReached
| FactoryFailed (err : error).

(** [Pool]; [conns] holds what is queued in the channel, the oldest
    first, and [maxIdle] is its capacity; [closedConns] holds the
    connections that the pool has closed. *)
Record Pool := mkPool {
  conns : list Conn;
  maxIdle : nat;
  maxOpen : Z;
  openConn : Z;
  closedConns : gset Conn
}.

Definition NewPool (maxIdle : nat) (maxOpen : Z) : Pool :=
  mkPool [] maxIdle maxOpen 0 ∅.

(** [Get]; [dial] is what the factory delivers if it is called. *)
Definition Get (dial : Dial) (p : Pool) : GetResult * Pool :=
  match conns p with
  | conn :: rest =>
      (Got conn,
       mkPool rest (maxIdle p) (maxOpen p) (openConn p) (closedConns p))
  | [] =>
      if (maxOpen p <=? openConn p)%Z then (LimitReached, p)
      else
        let p := mkPool (conns p) (maxIdle p) (maxOpen p)
                        (wrap (openConn p + 1)) (closedConns p) in
        match dial with
        | Dialed conn => (Got conn, p)
        | DialFailed err => (FactoryFailed err, p)
        end
  end.

(** [Put]: the connection is queued if the channel has room, and closed
    otherwise (the result is that of [conn.Close()] then). *)
Definition Put (conn : Conn) (p : Pool) : Pool :=
  if decide (length (conns p) < maxIdle p) then
    mkPool (conns p ++ [conn]) (maxIdle p) (maxOpen p) (openConn p)
           (closedConns p)
  else
    mkPool (conns p) (maxIdle p) (maxOpen p) (wrap (openConn p - 1))
           ({[conn]} ∪ closedConns p).

(** The loop of [Close], [for i := 0; i < len(p.conns); i++ { <-p.conns }],
    from [i] on. *)
Fixpoint drain (i : nat) (conns : list Conn) : list Conn :=
  match conns with
  | [] => []
  | _ :: rest => if decide (i < length conns) then drain (S i) rest else conns
  end.

(** [Close]. *)
Definition Close (p : Pool) : Pool :=
  mkPool (drain 0 (conns p)) (maxIdle p) (maxOpen p) (openConn p)
         (closedConns p).

(** The calls on a pool, one at a time. *)
Inductive Op :=
| OpGet (dial : Dial)
| OpPut (conn : Conn)
| OpClose.

Definition apply (p : Pool) (op : Op) : Pool :=
  match op with
  | OpGet dial => (Get dial p).2
  | OpPut conn => Put conn p
  | OpClose => Close p
  end.

Definition run (ops : list Op) (p : Pool) : Pool := foldl apply p ops.

End ConnPool.

End NetworkingGuide.

(** ** Scenarios *)

Module Scenarios.
Import GoStrings GoNet.

(** Two errors of [Accept]: one that is temporary, one that is not. *)
Definition tooManyFiles : error :=
  mkError "accept tcp [::]:8080: accept4: too many open files" true true.


Module Guide.
Import NetworkingGuide.TCPServer.

(** alice and bob have connected and given their names. *)
Definition joined : State :=
  run [Accept (Accepted 1); Name 1 (ReadOk ("alice" +:+ LF));
       Accept (Accepted 2); Name 2 (ReadOk ("bob" +:+ LF))]
      (NewTCPServer ":8080").

(** Scenario A: then alice sends "hi". *)
Definition scenarioA : State := run [Read 1 (ReadOk ("hi" +:+ LF))] joined.

(** Scenario C: then alice sends "/quit". *)
Definition scenarioC : State :=
  run [Read 1 (ReadOk ("/quit" +:+ LF))] scenarioA.

(** Two clients give the same name. *)
Definition sameName : State :=
  run [Accept (Accepted 1); Name 1 (ReadOk ("bob" +:+ LF));
       Accept (Accepted 2); Name 2 (ReadOk ("bob" +:+ LF))]
      (NewTCPServer ":8080").

(** One client whose [sendChan] is full. *)
Definition slow : Client := mkClient 1 "bob" (replicate 100 "m").

Definition congested : State :=
  mkState ":8080" {[ "bob" := slow ]} ∅ {[ 1 := "bob" ]} ∅ [].

(** A full [sendChan] next to one with room. *)
Definition mixed : State :=
  mkState ":8080" {[ "bob" := slow; "alice" := mkClient 2 "alice" ["m"] ]} ∅
          {[ 1 := "bob"; 2 := "alice" ]} ∅ [].

End Guide.

Module Chat.
Import NetworkTcp.ChatServer.

(** alice and bob have connected and registered; their arrivals have been
    announced. *)
Definition joined : option State :=
  run ([Scan 1 (Line "alice"); Lock 1; Send 1;
        Scan 2 (Line "bob"); Lock 2; Send 2] ++ rounds 2)
      (acceptLoop [Accepted 1; Accepted 2] NewChatServer).2.

(** Scenario A: then alice sends "hi". *)
Definition scenarioA : option State :=
  s ← joined; run ([Scan 1 (Line "hi"); Send 1] ++ round) s.


Definition queued : State :=
  default NewChatServer (s ← joined; run [Scan 1 (Line "hi"); Send 1] s).


End Chat.

Module Echo.
Import NetworkTcp NetworkTcp.TCPServer.

Definition noon : Time := mkTime 2024 1 2 12 0 0.

(** The server listens and handles one connection. *)
Definition serving : State :=
  (Start (inl 0) [Accepted 1] (NewTCPServer ":8080")).2.

End Echo.

Module Heartbeat.
Import NetworkingGuide.HeartbeatServer.

(** One client has connected at time 0. *)
Definition connected : State := run [(0%Z, Accept 1)] NewHeartbeatServer.

(** Two minutes in which nothing is read from the client. *)
Definition silence : list (Z * Event) :=
  [(30 * Second, Tick); (60 * Second, Tick); (90 * Second, Tick);
   (120 * Second, Tick)]%Z.

(** Two minutes with one PING of the client after 50 seconds. *)
Definition pinging : list (Z * Event) :=
  [(30 * Second, Tick); (50 * Second, Read 1%nat (ReadOk "PING"));
   (60 * Second, Tick); (90 * Second, Tick); (120 * Second, Tick)]%Z.

End Heartbeat.

Module Main.
Import NetworkTcp NetworkTcp.TCPServer NetworkTcp.TCPClient.

(** The client of [main], connected to the server of [Echo.serving]. *)
Definition client : TCPClient := mkTCPClient "localhost:8080" 1.

Definition session : Session := mkSession Echo.serving "" "".

(** Two connections are accepted; the first sends a line and ends. *)
Definition schedule : list Event :=
  [Accepts (Accepted 1); Accepts (Accepted 2);
   Handles Echo.noon 1 (Line "ping"); Handles Echo.noon 1 (ScanEnd None)].

End Main.

Module Beat.
Import NetworkingGuide.HeartbeatServer.

(** Two clients arrive; the first is silent and is swept. *)
Definition trace : list (Z * Event) :=
  [(0, Accept 1%nat); (100 * Second, Accept 2%nat); (120 * Second, Tick)]%Z.

End Beat.

Module Http.
Import GoHTTP NetworkingGuide.HTTPMiddleware.

(** A preflight request, as a browser sends it: without credentials. *)
Definition preflight : Request :=
  mkRequest "OPTIONS" "/" "192.0.2.1:50000" ∅.

(** A request with the token of [main]. *)
Definition authorized (method : string) : Request :=
  mkRequest method "/" "192.0.2.1:50000"
            {[ "Authorization" := "Bearer secret-token" ]}.

(** Nothing has been written or logged. *)
Definition blank : World := mkWorld NewResponseWriter [].

(** A handler that panics at once. *)
Definition faulty : Handler := fun _ w => Panicked "boom" w.

End Http.

Module Hub.
Import NetworkingGuide.WebSocketHub.

(** One client has connected. *)
Definition one : State := HandleWebSocket NewHub.

(** Two clients; the channel of the first is full. *)
Definition crowded : State :=
  mkState {[ 0 := true; 1 := true ]}
          {[ 0 := mkChan (replicate 256 "m") false; 1 := mkChan ["m"] false ]}
          {[ 0; 1 ]} ∅.

(** Two broadcasts, and a write between them. *)
Definition chatter : list Event :=
  [Broadcast "a"; Writes 0 true; Broadcast "b"].

End Hub.

Module Pooling.
Import NetworkingGuide.ConnPool.

(** Three connections are asked for and two of them given back. *)
Definition busy : list Op :=
  [OpGet (Dialed 1); OpGet (Dialed 2); OpGet (Dialed 3); OpPut 1; OpPut 2;
   OpGet (Dialed 4)].

End Pooling.

End Scenarios.

(** ** Short names and proof automation *)

Import GoStrings GoNet.

Module GuideTCP := NetworkingGuide.TCPServer.
Module ChatTCP := NetworkTcp.ChatServer.
Module GuideClient := NetworkingGuide.TCPClient.

(** Goals on the byte tests: unfold them into arithmetic on the byte
    values. *)
Ltac bytes :=
  unfold asciiSpace, latin1Space, wideSpace, continuation, nonAscii in *;
  repeat match goal with
         | H : _ = false |- _ => apply not_true_iff_false in H
         | |- _ = false => apply not_true_iff_false
         end;
  cbv zeta in *;
  repeat first [ rewrite andb_true_iff in * | rewrite orb_true_iff in *
               | rewrite N.eqb_eq in * | rewrite N.leb_le in *
               | rewrite N.ltb_lt in * ];
  lia.

(** What the scans of [TrimLeftSpace] and [TrimRightSpace] eat. *)
Abbreviation EatenFwd := (Eaten asciiSpace latin1Space wideSpace).
Abbreviation EatenRev :=
  (Eaten asciiSpace (fun c1 c0 => latin1Space c0 c1)
         (fun c2 c1 c0 => wideSpace c0 c1 c2)).

(** * Properties *)

(** ** Facts on byte strings *)

Lemma string_app_cons c s x : String c s +:+ x = String c (s +:+ x).
Proof. reflexivity. Qed.

Lemma string_app_nil_l x : "" +:+ x = x.
Proof. reflexivity. Qed.

Lemma string_app_nil_r s : s +:+ "" = s.
Proof.
  induction s as [|c s IH]; [reflexivity|]. now rewrite string_app_cons, IH.
Qed.

Lemma string_app_assoc (a b c : string) : (a +:+ b) +:+ c = a +:+ (b +:+ c).
Proof.
  induction a as [|x a IH]; [reflexivity|]. now rewrite !string_app_cons, IH.
Qed.

Lemma string_rev_app_spec s t : String.rev_app s t = String.rev s +:+ t.
Proof.
  revert t. induction s as [|c s IH]; intros t; [reflexivity|].
  unfold String.rev. simpl. rewrite (IH (String c "")), IH, string_app_assoc.
  reflexivity.
Qed.

Lemma string_rev_cons c s :
  String.rev (String c s) = String.rev s +:+ String c "".
Proof. unfold String.rev at 1. simpl. apply string_rev_app_spec. Qed.

Lemma string_rev_app_distr a b :
  String.rev (a +:+ b) = String.rev b +:+ String.rev a.
Proof.
  induction a as [|c a IH].
  - now rewrite string_app_nil_l, string_app_nil_r.
  - now rewrite string_app_cons, !string_rev_cons, IH, string_app_assoc.
Qed.

Lemma string_rev_involutive s : String.rev (String.rev s) = s.
Proof.
  induction s as [|c s IH]; [reflexivity|].
  now rewrite string_rev_cons, string_rev_app_distr, IH.
Qed.

Lemma string_app_cancel_r a b w : a +:+ w = b +:+ w -> a = b.
Proof.
  intros H. apply (f_equal String.rev) in H. rewrite !string_rev_app_distr in H.
  apply String.app_inj in H. apply (f_equal String.rev) in H.
  now rewrite !string_rev_involutive in H.
Qed.

Lemma string_app_eq_nil a b : a +:+ b = "" -> a = "" /\ b = "".
Proof. destruct a; [now rewrite string_app_nil_l | discriminate]. Qed.

(** ** The scan of [strip] *)

Section StripFacts.
Variable p1 : ascii -> bool.
Variable p2 : ascii -> ascii -> bool.
Variable p3 : ascii -> ascii -> ascii -> bool.

Lemma strip_eaten w s :
  Eaten p1 p2 p3 w -> strip p1 p2 p3 (w +:+ s) = strip p1 p2 p3 s.
Proof.
  induction 1 as [|c w H1 _ IH|c0 c1 w H1 H2 _ IH|c0 c1 c2 w H1 H2 H3 _ IH];
    rewrite ?string_app_cons, ?string_app_nil_l; simpl.
  - reflexivity.
  - now rewrite H1.
  - now rewrite H1, H2.
  - now rewrite H1, H2, H3.
Qed.

Lemma Eaten_app a b :
  Eaten p1 p2 p3 a -> Eaten p1 p2 p3 b -> Eaten p1 p2 p3 (a +:+ b).
Proof.
  induction 1; intros Hb; rewrite ?string_app_cons, ?string_app_nil_l;
    [assumption | apply eaten1 | apply eaten2 | apply eaten3]; auto.
Qed.

Lemma strip_split_bounded n : forall s,
  String.length s <= n ->
  exists w, Eaten p1 p2 p3 w /\ s = w +:+ strip p1 p2 p3 s.
Proof.
  induction n as [|n IH]; intros s Hlen.
  - destruct s; [|simpl in Hlen; lia].
    exists "". split; [constructor | reflexivity].
  - destruct s as [|c0 r0]; [exists ""; split; [constructor | reflexivity]|].
    simpl in Hlen. simpl.
    destruct (p1 c0) eqn:E1.
    { destruct (IH r0) as (w & Hw & Heq); [lia|].
      exists (String c0 w). split; [now constructor|].
      now rewrite string_app_cons, <- Heq. }
    destruct r0 as [|c1 r1]; [exists ""; split; [constructor | reflexivity]|].
    simpl in Hlen.
    destruct (p2 c0 c1) eqn:E2.
    { destruct (IH r1) as (w & Hw & Heq); [lia|].
      exists (String c0 (String c1 w)). split; [now constructor|].
      now rewrite !string_app_cons, <- Heq. }
    destruct r1 as [|c2 r2]; [exists ""; split; [constructor | reflexivity]|].
    simpl in Hlen.
    destruct (p3 c0 c1 c2) eqn:E3.
    { destruct (IH r2) as (w & Hw & Heq); [lia|].
      exists (String c0 (String c1 (String c2 w))). split; [now constructor|].
      now rewrite !string_app_cons, <- Heq. }
    exists "". split; [constructor | reflexivity].
Qed.

Lemma strip_split s : exists w, Eaten p1 p2 p3 w /\ s = w +:+ strip p1 p2 p3 s.
Proof. apply (strip_split_bounded (String.length s)). lia. Qed.

Lemma strip_idem_bounded n : forall s,
  String.length s <= n ->
  strip p1 p2 p3 (strip p1 p2 p3 s) = strip p1 p2 p3 s.
Proof.
  induction n as [|n IH]; intros s Hlen.
  - destruct s; [reflexivity | simpl in Hlen; lia].
  - destruct s as [|c0 r0]; [reflexivity|].
    simpl in Hlen. simpl.
    destruct (p1 c0) eqn:E1; [apply IH; lia|].
    destruct r0 as [|c1 r1]; [simpl; now rewrite E1|].
    simpl in Hlen.
    destruct (p2 c0 c1) eqn:E2; [apply IH; lia|].
    destruct r1 as [|c2 r2]; [simpl; now rewrite E1, E2|].
    simpl in Hlen.
    destruct (p3 c0 c1 c2) eqn:E3; [apply IH; lia|].
    simpl. now rewrite E1, E2, E3.
Qed.

Lemma strip_idem s : strip p1 p2 p3 (strip p1 p2 p3 s) = strip p1 p2 p3 s.
Proof. apply (strip_idem_bounded (String.length s)). lia. Qed.

Variable inner : ascii -> bool.
Hypothesis p2_inner : forall c0 c1, p2 c0 c1 = true -> inner c1 = true.
Hypothesis p3_inner :
  forall c0 c1 c2, p3 c0 c1 c2 = true -> inner c1 = true /\ inner c2 = true.

Lemma strip_app_bounded n : forall m x,
  String.length m <= n -> startsOuter inner x ->
  strip p1 p2 p3 (m +:+ x) =
    match strip p1 p2 p3 m with
    | EmptyString => strip p1 p2 p3 x
    | r => r +:+ x
    end.
Proof.
  induction n as [|n IH]; intros m x Hlen Hx.
  - destruct m; [reflexivity | simpl in Hlen; lia].
  - destruct m as [|c0 r0]; [reflexivity|].
    simpl in Hlen. rewrite ?string_app_cons, ?string_app_nil_l. simpl.
    destruct (p1 c0) eqn:E1; [apply IH; [lia | assumption]|].
    destruct r0 as [|c1 r1].
    { rewrite ?string_app_cons, ?string_app_nil_l. simpl.
      destruct x as [|a x']; [reflexivity|].
      simpl in Hx.
      destruct (p2 c0 a) eqn:E2; [apply p2_inner in E2; congruence|].
      destruct x' as [|b x'']; [reflexivity|].
      destruct (p3 c0 a b) eqn:E3;
        [apply p3_inner in E3; destruct E3; congruence|].
      reflexivity. }
    simpl in Hlen. rewrite ?string_app_cons, ?string_app_nil_l. simpl.
    destruct (p2 c0 c1) eqn:E2; [apply IH; [lia | assumption]|].
    destruct r1 as [|c2 r2].
    { rewrite ?string_app_cons, ?string_app_nil_l. simpl.
      destruct x as [|a x']; [reflexivity|].
      simpl in Hx.
      destruct (p3 c0 c1 a) eqn:E3;
        [apply p3_inner in E3; destruct E3; congruence|].
      reflexivity. }
    simpl in Hlen. rewrite ?string_app_cons, ?string_app_nil_l. simpl.
    destruct (p3 c0 c1 c2) eqn:E3; [apply IH; [lia | assumption]|].
    reflexivity.
Qed.

Lemma strip_app m x :
  startsOuter inner x ->
  strip p1 p2 p3 (m +:+ x) =
    match strip p1 p2 p3 m with
    | EmptyString => strip p1 p2 p3 x
    | r => r +:+ x
    end.
Proof. apply (strip_app_bounded (String.length m)). lia. Qed.
End StripFacts.

(** ** White space at the byte level *)

Lemma WhiteSpace_Eaten w : WhiteSpace w <-> EatenFwd w.
Proof.
  split; induction 1.
  - constructor.
  - now apply eaten1.
  - apply eaten2; [bytes | assumption ..].
  - apply eaten3; [bytes | bytes | assumption ..].
  - constructor.
  - now apply ws_ascii.
  - now apply ws_latin1.
  - now apply ws_wide.
Qed.

Lemma WhiteSpace_rev w : WhiteSpace w -> EatenRev (String.rev w).
Proof.
  induction 1;
    rewrite ?string_rev_cons, ?string_app_assoc, ?string_app_cons,
      ?string_app_nil_l.
  - constructor.
  - apply Eaten_app; [assumption|]. apply eaten1; [assumption | constructor].
  - apply Eaten_app; [assumption|].
    apply eaten2; [bytes | assumption | constructor].
  - apply Eaten_app; [assumption|].
    apply eaten3; [bytes | bytes | assumption | constructor].
Qed.

Lemma EatenRev_rev w : EatenRev w -> WhiteSpace (String.rev w).
Proof.
  intros H. apply WhiteSpace_Eaten.
  induction H;
    rewrite ?string_rev_cons, ?string_app_assoc, ?string_app_cons,
      ?string_app_nil_l.
  - constructor.
  - apply Eaten_app; [assumption|]. apply eaten1; [assumption | constructor].
  - apply Eaten_app; [assumption|].
    apply eaten2; [bytes | assumption | constructor].
  - apply Eaten_app; [assumption|].
    apply eaten3; [bytes | bytes | assumption | constructor].
Qed.

Lemma WhiteSpace_startsOuter w : WhiteSpace w -> startsOuter continuation w.
Proof. destruct 1; simpl; [exact I | bytes ..]. Qed.

Lemma TrimLeftSpace_WhiteSpace w s :
  WhiteSpace w -> TrimLeftSpace (w +:+ s) = TrimLeftSpace s.
Proof. intros H. apply strip_eaten. now apply WhiteSpace_Eaten. Qed.

Lemma TrimRightSpace_WhiteSpace w s :
  WhiteSpace w -> TrimRightSpace (s +:+ w) = TrimRightSpace s.
Proof.
  intros H. unfold TrimRightSpace, stripRev. rewrite string_rev_app_distr.
  rewrite strip_eaten; [reflexivity | now apply WhiteSpace_rev].
Qed.

Lemma TrimLeftSpace_app m x :
  startsOuter continuation x ->
  TrimLeftSpace (m +:+ x) =
    match TrimLeftSpace m with
    | EmptyString => TrimLeftSpace x
    | r => r +:+ x
    end.
Proof. apply strip_app; intros; bytes. Qed.

Lemma stripRev_app m x :
  startsOuter nonAscii x ->
  stripRev (m +:+ x) =
    match stripRev m with
    | EmptyString => stripRev x
    | r => r +:+ x
    end.
Proof. apply strip_app; intros; bytes. Qed.

(** What [TrimRightSpace] removes is white space. *)
Lemma TrimRightSpace_split s :
  exists w, WhiteSpace w /\ s = TrimRightSpace s +:+ w.
Proof.
  destruct (strip_split asciiSpace (fun c1 c0 => latin1Space c0 c1)
              (fun c2 c1 c0 => wideSpace c0 c1 c2) (String.rev s))
    as (w & Hw & Heq).
  exists (String.rev w). split; [now apply EatenRev_rev|].
  apply (f_equal String.rev) in Heq.
  now rewrite string_rev_involutive, string_rev_app_distr in Heq.
Qed.

Lemma TrimLeftSpace_idem s : TrimLeftSpace (TrimLeftSpace s) = TrimLeftSpace s.
Proof. apply strip_idem. Qed.

Lemma TrimRightSpace_idem s :
  TrimRightSpace (TrimRightSpace s) = TrimRightSpace s.
Proof.
  unfold TrimRightSpace. rewrite string_rev_involutive. unfold stripRev.
  now rewrite strip_idem.
Qed.

(** Trimming on the right keeps a string free of leading white space. *)
Lemma TrimLeftSpace_TrimRightSpace b :
  TrimLeftSpace b = b -> TrimLeftSpace (TrimRightSpace b) = TrimRightSpace b.
Proof.
  intros Hb. destruct (TrimRightSpace_split b) as (w & Hw & Heq).
  pose proof (TrimLeftSpace_app (TrimRightSpace b) w
                (WhiteSpace_startsOuter w Hw)) as Happ.
  rewrite <- Heq, Hb in Happ.
  destruct (TrimLeftSpace (TrimRightSpace b)) as [|c r] eqn:E.
  - pose proof (TrimLeftSpace_WhiteSpace w "" Hw) as Hnil.
    rewrite string_app_nil_r in Hnil. rewrite Hnil in Happ.
    change (TrimLeftSpace "") with "" in Happ. subst b. reflexivity.
  - rewrite Heq in Happ at 1. now apply string_app_cancel_r in Happ.
Qed.

Lemma TrimSpace_idem s : TrimSpace (TrimSpace s) = TrimSpace s.
Proof.
  unfold TrimSpace.
  rewrite TrimLeftSpace_TrimRightSpace by apply TrimLeftSpace_idem.
  apply TrimRightSpace_idem.
Qed.

Lemma TrimSpace_pad ws1 m ws2 :
  WhiteSpace ws1 -> WhiteSpace ws2 ->
  TrimSpace (ws1 +:+ m +:+ ws2) = TrimSpace m.
Proof.
  intros H1 H2. unfold TrimSpace.
  rewrite TrimLeftSpace_WhiteSpace by assumption.
  rewrite TrimLeftSpace_app by now apply WhiteSpace_startsOuter.
  destruct (TrimLeftSpace m) as [|c r] eqn:E.
  - pose proof (TrimLeftSpace_WhiteSpace ws2 "" H2) as Hnil.
    rewrite string_app_nil_r in Hnil. rewrite Hnil. reflexivity.
  - apply TrimRightSpace_WhiteSpace. assumption.
Qed.

(** A prefix that ends in an ASCII byte other than white space shields
    what is before it from the scan on the right. *)
Lemma TrimSpace_echo text :
  TrimSpace ("echo:" +:+ text) = "echo:" +:+ TrimRightSpace text.
Proof.
  unfold TrimSpace.
  assert (TrimLeftSpace ("echo:" +:+ text) = "echo:" +:+ text) as ->.
  { rewrite !string_app_cons, string_app_nil_l. unfold TrimLeftSpace. simpl.
    destruct text as [|a [|b t]]; reflexivity. }
  unfold TrimRightSpace. rewrite string_rev_app_distr.
  rewrite stripRev_app by reflexivity.
  destruct (stripRev (String.rev text)) as [|c r] eqn:E.
  - reflexivity.
  - rewrite string_rev_app_distr. reflexivity.
Qed.

(** A string that ends in an ASCII byte other than white space has no
    trailing white space. *)
Lemma TrimRightSpace_plain t c :
  nonAscii c = false -> asciiSpace c = false ->
  TrimRightSpace (t +:+ String c "") = t +:+ String c "".
Proof.
  intros Hc Hs. unfold TrimRightSpace.
  rewrite string_rev_app_distr, string_rev_cons, !string_app_nil_l.
  rewrite string_app_cons, string_app_nil_l.
  assert (stripRev (String c (String.rev t)) = String c (String.rev t)) as ->.
  { unfold stripRev. simpl. rewrite Hs.
    destruct (String.rev t) as [|c1 [|c2 r]]; [reflexivity | |].
    - assert (latin1Space c1 c = false) as -> by bytes. reflexivity.
    - assert (latin1Space c1 c = false) as -> by bytes.
      assert (wideSpace c2 c1 c = false) as -> by bytes. reflexivity. }
  now rewrite string_rev_cons, string_rev_involutive.
Qed.

(** ** [processMessage] *)

Section ProcessMessage.
Import NetworkTcp NetworkTcp.TCPServer.

Variable now : Time.

Lemma processMessage_echo_trimmed t :
  (if String.eqb ("echo:" +:+ t) "ping" then "pong"
   else if String.eqb ("echo:" +:+ t) "time" then Format_datetime now
   else if String.eqb ("echo:" +:+ t) "date" then Format_date now
   else if String.eqb ("echo:" +:+ t) "quit" then "BYE"
   else if String.eqb ("echo:" +:+ t) "echo" then
     "请提供要回显的内容，格式: echo:<内容>"
   else if HasPrefix ("echo:" +:+ t) "echo:"
        then TrimPrefix ("echo:" +:+ t) "echo:"
        else "未知命令: " +:+ ("echo:" +:+ t)) = t.
Proof.
  rewrite !string_app_cons, string_app_nil_l. unfold TrimPrefix, HasPrefix.
  simpl.
  destruct t; reflexivity.
Qed.

(** C9, as the code has it: "ping" is answered by "pong", "time" by the
    current time in the layout 2006-01-02 15:04:05, and "echo:<text>" by
    <text> without its trailing white space, because the whole message is
    trimmed before it is dispatched. *)
Theorem processMessage_tokens (text : string) :
  processMessage now "ping" = "pong"
  /\ processMessage now "time" = Format_datetime now
  /\ processMessage now ("echo:" +:+ text) = TrimRightSpace text.
Proof.
  split; [reflexivity|]. split; [reflexivity|].
  unfold processMessage. cbv zeta. rewrite TrimSpace_echo.
  apply processMessage_echo_trimmed.
Qed.

(** C10: white space around a message does not change the answer of
    [processMessage]: the padded message, the message and the trimmed
    message are answered alike. *)
Theorem processMessage_trims (m ws1 ws2 : string) :
  WhiteSpace ws1 -> WhiteSpace ws2 ->
  processMessage now (ws1 +:+ m +:+ ws2) = processMessage now (TrimSpace m)
  /\ processMessage now (ws1 +:+ m +:+ ws2) = processMessage now m.
Proof.
  intros H1 H2. unfold processMessage. cbv zeta.
  rewrite TrimSpace_pad by assumption. rewrite TrimSpace_idem.
  split; reflexivity.
Qed.
End ProcessMessage.

(** C9 as stated fails: the answer to "echo:hi " is "hi", not "hi ". *)
Lemma processMessage_echo_not_exact :
  ~ (forall now text,
       NetworkTcp.TCPServer.processMessage now ("echo:" +:+ text) = text).
Proof.
  intros H.
  specialize (H (NetworkTcp.mkTime 2024 1 2 3 4 5) "hi ").
  vm_compute in H. discriminate H.
Qed.

Lemma processMessage_trims_witness :
  WhiteSpace "  " /\ WhiteSpace (" " +:+ LF)
  /\ NetworkTcp.TCPServer.processMessage (NetworkTcp.mkTime 2024 1 2 3 4 5)
       ("  " +:+ "ping" +:+ " " +:+ LF) = "pong".
Proof.
  assert (W1 : WhiteSpace "  ")
    by (repeat (apply ws_ascii; [reflexivity|]); apply ws_nil).
  assert (W2 : WhiteSpace (" " +:+ LF))
    by (repeat (apply ws_ascii; [reflexivity|]); apply ws_nil).
  split; [exact W1|]. split; [exact W2|].
  destruct (processMessage_trims (NetworkTcp.mkTime 2024 1 2 3 4 5) "ping" "  "
              (" " +:+ LF) W1 W2) as [_ ->].
  reflexivity.
Defined.

(** ** The chat server of the guide: registry and broadcast *)

Section GuideChat.
Import NetworkingGuide NetworkingGuide.TCPServer.

Lemma trySend_room message c :
  length (sendChan c) < sendChanCap ->
  trySend message c = mkClient (conn c) (name c) (sendChan c ++ [message]).
Proof. intros H. unfold trySend. now rewrite decide_True. Qed.

Lemma trySend_full message c :
  sendChanCap <= length (sendChan c) -> trySend message c = c.
Proof. intros H. unfold trySend. rewrite decide_False; [reflexivity | lia]. Qed.

Lemma broadcast_lookup message s n :
  clients (broadcast message s) !! n = trySend message <$> clients s !! n.
Proof. unfold broadcast. simpl. apply lookup_fmap. Qed.

Lemma broadcast_all_full message s :
  (forall n c, clients s !! n = Some c -> sendChanCap <= length (sendChan c)) ->
  broadcast message s = s.
Proof.
  intros Hfull. destruct s as [a cl nm rd cc lg]. unfold broadcast. simpl in *.
  f_equal. apply map_eq. intros n. rewrite lookup_fmap.
  destruct (cl !! n) as [c|] eqn:E; [|reflexivity].
  simpl. f_equal. apply trySend_full. eauto.
Qed.

(** X11.  The registry under [Register] and [Deregister]: the snapshot holds an
    identity exactly when its last operation was a registration. *)
Lemma registry_ops_consistent ops : forall reg id,
  is_Some (foldl applyOp reg ops !! id)
  <-> registered id ops (bool_decide (is_Some (reg !! id))) = true.
Proof.
  induction ops as [|op ops IH]; intros reg id; simpl.
  - rewrite bool_decide_eq_true. reflexivity.
  - rewrite IH. destruct op as [client|who]; simpl.
    + destruct (decide (name client = id)) as [->|Hne].
      * rewrite lookup_insert_eq.
        rewrite bool_decide_eq_true_2; [reflexivity | eauto].
      * rewrite lookup_insert_ne by assumption. reflexivity.
    + destruct (decide (who = id)) as [->|Hne].
      * rewrite lookup_delete_eq.
        rewrite bool_decide_eq_false_2; [reflexivity|].
        intros [x Hx]. discriminate.
      * rewrite lookup_delete_ne by assumption. reflexivity.
Qed.

Lemma register_lookup client s n :
  clients (register client s) !! n =
    if decide (name client = n) then Some client else clients s !! n.
Proof. unfold register. simpl. apply lookup_insert. Qed.


(** The sibling path of "/quit": a failed read deregisters the client. *)
Lemma read_error_deregisters (s : State) (c0 : Conn) (who data : string) :
  readers s !! c0 = Some who ->
  clients (readMessages c0 (ReadFailed data) s) !! who = None.
Proof.
  intros Hr. unfold readMessages. rewrite Hr.
  unfold stopReader. simpl. rewrite lookup_fmap, lookup_delete_eq. reflexivity.
Qed.

(** C4, as the code has it: a payload that meets a full [sendChan] is
    dropped for that client, whose entry stays as it was; the clients with
    room get the payload; nothing else of the server changes, so the drop
    leaves no trace: a broadcast that meets only full buffers returns the
    state it was given.  [broadcast] is a total function: it does not
    wait. *)
Theorem broadcast_full_buffer (s : State) (message n : string) (c : Client) :
  clients s !! n = Some c ->
  sendChanCap <= length (sendChan c) ->
  clients (broadcast message s) !! n = Some c
  /\ (forall n' c', clients s !! n' = Some c' ->
         length (sendChan c') < sendChanCap ->
         clients (broadcast message s) !! n' =
           Some (mkClient (conn c') (name c') (sendChan c' ++ [message])))
  /\ closedConns (broadcast message s) = closedConns s
  /\ logs (broadcast message s) = logs s
  /\ ((forall n' c', clients s !! n' = Some c' ->
          sendChanCap <= length (sendChan c')) ->
      broadcast message s = s).
Proof.
  intros Hn Hfull. repeat split.
  - rewrite broadcast_lookup, Hn. simpl. now rewrite trySend_full.
  - intros n' c' Hn' Hroom. rewrite broadcast_lookup, Hn'. simpl.
    now rewrite trySend_room.
  - apply broadcast_all_full.
Qed.

(** C5 on the guide's server: "/quit" closes the socket of the client and
    ends its reader, and the registry is left as it was, the entry of the
    client included; no other socket is closed. *)
Theorem quit_keeps_registration (s : State) (c0 : Conn) (who : string) :
  readers s !! c0 = Some who ->
  clients (readMessages c0 (ReadOk ("/quit" +:+ LF)) s) = clients s
  /\ c0 ∈ closedConns (readMessages c0 (ReadOk ("/quit" +:+ LF)) s)
  /\ readers (readMessages c0 (ReadOk ("/quit" +:+ LF)) s) !! c0 = None
  /\ (forall c, c <> c0 ->
        (c ∈ closedConns (readMessages c0 (ReadOk ("/quit" +:+ LF)) s)
         <-> c ∈ closedConns s)).
Proof.
  intros Hr. unfold readMessages. rewrite Hr.
  change (TrimSpace ("/quit" +:+ LF)) with "/quit". simpl.
  split; [reflexivity|]. split; [|split].
  - apply elem_of_union_l, elem_of_singleton. reflexivity.
  - apply lookup_delete_eq.
  - intros c Hc. rewrite elem_of_union, elem_of_singleton. tauto.
Qed.

End GuideChat.

(** ** The chat server of [network_tcp.go] *)

Section Chat.
Import NetworkTcp NetworkTcp.ChatServer.


Lemma elem_of_locking s c :
  c ∈ locking s <-> exists pc, pcs s !! c = Some pc /\ atLock pc = true.
Proof.
  unfold locking. rewrite elem_of_dom. split.
  - intros [pc H]. apply map_lookup_filter_Some in H as [H1 H2]. eauto.
  - intros (pc & H1 & H2). exists pc. now apply map_lookup_filter_Some.
Qed.


Lemma elem_of_waiting s c :
  c ∈ waiting s <->
  rlocks s <> 0 /\ exists pc, pcs s !! c = Some pc /\ atLock pc = true.
Proof.
  unfold waiting. destruct (decide (rlocks s = 0)) as [H0|H0].
  - split; [intros H; now apply not_elem_of_empty in H | tauto].
  - rewrite elem_of_locking. tauto.
Qed.




(** "/quit" in the chat server: the client asks for the write lock and,
    when no read lock is held, is deleted from the registry; the other
    entries stay. *)
Lemma chat_quit_deregisters (s : State) (conn : Conn) (username : string) :
  pcs s !! conn = Some (ReadMsg username) ->
  rlocks s = 0 ->
  exists s', run [Scan conn (Line "/quit"); Lock conn] s = Some s'
    /\ clients s' = delete conn (clients s)
    /\ pcs s' !! conn = Some (SendLeave username).
Proof.
  intros Hpc Hl. simpl. unfold handleChatClient_scan. rewrite Hpc. simpl.
  unfold handleChatClient_lock. simpl. rewrite decide_True by assumption.
  rewrite lookup_insert_eq. simpl. eexists. repeat split.
  apply lookup_insert_eq.
Qed.

(** The same "/quit" once [handleBroadcast] holds a read lock: the client
    is not given the write lock; it waits for it, and stays in the
    registry. *)
Lemma chat_quit_waits (s : State) (conn : Conn) (username : string) :
  pcs s !! conn = Some (ReadMsg username) ->
  0 < rlocks s ->
  exists s', run [Scan conn (Line "/quit")] s = Some s'
    /\ clients s' = clients s
    /\ conn ∈ waiting s'
    /\ handleChatClient_lock conn s' = None.
Proof.
  intros Hpc Hl. simpl. unfold handleChatClient_scan. rewrite Hpc. simpl.
  eexists. split; [reflexivity|]. split; [reflexivity|]. split.
  - apply elem_of_waiting. cbn [rlocks pcs goto]. split; [lia|].
    exists (LockDeregister username). split; [apply lookup_insert_eq | done].
  - unfold handleChatClient_lock. cbn [rlocks goto].
    now rewrite decide_False by lia.
Qed.

Lemma chat_leave_closes (s : State) (conn : Conn) (username : string) :
  pcs s !! conn = Some (SendLeave username) ->
  length (broadcast s) < broadcastCap ->
  exists s', handleChatClient_send conn s = Some s'
    /\ conn ∈ closedConns s' /\ clients s' = clients s.
Proof.
  intros Hpc Hroom. unfold handleChatClient_send, send. rewrite Hpc.
  rewrite decide_True by assumption. simpl. eexists. repeat split. set_solver.
Qed.

(** The registry of the chat server is keyed by the connection; a
    registration overwrites there too. *)
Lemma chat_register_overwrites (s : State) (conn : Conn) (username : string) :
  clients (register conn username s) !! conn = Some username
  /\ forall c, c <> conn ->
       clients (register conn username s) !! c = clients s !! c.
Proof.
  unfold register. simpl. split; [apply lookup_insert_eq|].
  intros c Hc. now apply lookup_insert_ne.
Qed.

(** The registry of the chat server against the life of its clients: every
    turn keeps [registryInv]. *)
Lemma turn_registryInv t s s' :
  registryInv s -> turn t s = Some s' -> registryInv s'.
Proof.
  intros Hinv Ht. destruct t as [conn r|conn|conn|]; simpl in Ht.
  - unfold handleChatClient_scan in Ht.
    destruct (pcs s !! conn) as [pc|] eqn:Epc; [|discriminate].
    destruct pc; try discriminate.
    + destruct r as [u|e]; injection Ht as <-; intros c;
        destruct (Hinv c) as [H1 H2]; simpl;
        destruct (decide (c = conn)) as [->|Hne];
        rewrite ?lookup_insert_eq, ?lookup_insert_ne by congruence.
      * split.
        -- rewrite H1, Epc. split; intros (pc & [= <-] & Ha); discriminate.
        -- intros Hc. apply H2 in Hc. congruence.
      * auto.
      * split.
        -- rewrite H1, Epc. split; intros (pc & [= <-] & Ha); discriminate.
        -- reflexivity.
      * split; [exact H1|]. rewrite elem_of_union, elem_of_singleton.
        intros [->|Hc]; [contradiction | auto].
    + assert (forall pc', active pc' = true ->
                registryInv (goto conn pc' s)) as Hgo.
      { intros pc' Ha c. destruct (Hinv c) as [H1 H2]. simpl.
        destruct (decide (c = conn)) as [->|Hne];
          rewrite ?lookup_insert_eq, ?lookup_insert_ne by congruence; [|auto].
        split.
        - rewrite H1, Epc. split; intros _; eauto.
        - intros Hc. apply H2 in Hc. congruence. }
      destruct r as [msg|e].
      * destruct (String.eqb msg "/quit"); injection Ht as <-; now apply Hgo.
      * injection Ht as <-. now apply Hgo.
  - unfold handleChatClient_lock in Ht.
    destruct (decide (rlocks s = 0)); [|discriminate].
    destruct (pcs s !! conn) as [pc|] eqn:Epc; [|discriminate].
    destruct pc; try discriminate; injection Ht as <-; intros c;
      destruct (Hinv c) as [H1 H2]; simpl;
      destruct (decide (c = conn)) as [->|Hne];
      rewrite ?lookup_insert_eq, ?lookup_insert_ne, ?lookup_delete_eq,
        ?lookup_delete_ne by congruence; auto.
    + split; [split; intros _; eauto|].
      intros Hc. apply H2 in Hc. congruence.
    + split; [split; [intros [x Hx] | intros (pc & [= <-] & Ha)]; discriminate|].
      intros Hc. apply H2 in Hc. congruence.
  - unfold handleChatClient_send, send in Ht.
    destruct (pcs s !! conn) as [pc|] eqn:Epc; [|discriminate].
    destruct pc; try discriminate;
      (destruct (decide (length (broadcast s) < broadcastCap));
         [|discriminate]);
      simpl in Ht; injection Ht as <-; intros c;
      destruct (Hinv c) as [H1 H2]; simpl;
      destruct (decide (c = conn)) as [->|Hne];
      rewrite ?lookup_insert_eq, ?lookup_insert_ne by congruence; auto.
    + split; [rewrite H1, Epc; split; intros _; eauto|].
      intros Hc. apply H2 in Hc. congruence.
    + split; [rewrite H1, Epc; split; intros _; eauto|].
      intros Hc. apply H2 in Hc. congruence.
    + split; [|reflexivity].
      rewrite H1, Epc. split; intros (pc & [= <-] & Ha); discriminate.
    + split; [exact H1|]. rewrite elem_of_union, elem_of_singleton.
      intros [->|Hc]; [contradiction | auto].
  - unfold handleBroadcast in Ht. destruct (taken s).
    + destruct (decide (waiting s = ∅)); [|discriminate].
      injection Ht as <-. exact Hinv.
    + destruct (broadcast s); [discriminate|].
      injection Ht as <-. exact Hinv.
Qed.

Lemma run_registryInv ts : forall s s',
  registryInv s -> run ts s = Some s' -> registryInv s'.
Proof.
  induction ts as [|t ts IH]; intros s s' Hinv Hrun; simpl in Hrun.
  - now injection Hrun as <-.
  - destruct (turn t s) as [s1|] eqn:Et; [|discriminate]. simpl in Hrun.
    eapply IH; [|exact Hrun]. eapply turn_registryInv; eassumption.
Qed.

(** X7.  In the chat server a connection of the registry is open. *)
Lemma chat_registered_open ts s s' c :
  registryInv s -> run ts s = Some s' ->
  is_Some (clients s' !! c) -> c ∉ closedConns s'.
Proof.
  intros Hinv Hrun Hc Hclosed.
  destruct (run_registryInv ts s s' Hinv Hrun c) as [H1 H2].
  apply H1 in Hc as (pc & Hpc & Ha). rewrite (H2 Hclosed) in Hpc.
  injection Hpc as <-. discriminate.
Qed.

Lemma NewChatServer_registryInv : registryInv NewChatServer.
Proof.
  intros c. unfold NewChatServer. simpl. rewrite !lookup_empty. split.
  - split; [intros [x Hx]; discriminate | intros (pc & Hpc & _); discriminate].
  - intros Hc. now apply not_elem_of_empty in Hc.
Qed.

Lemma accept_registryInv conn s :
  registryInv s -> pcs s !! conn = None ->
  registryInv (acceptLoop [Accepted conn] s).2.
Proof.
  intros Hinv Hfresh c. destruct (Hinv c) as [H1 H2]. simpl.
  destruct (decide (c = conn)) as [->|Hne];
    rewrite ?lookup_insert_eq, ?lookup_insert_ne by congruence; [|auto].
  split.
  - rewrite H1, Hfresh.
    split; intros (pc & Hpc & Ha); [discriminate|].
    injection Hpc as <-. discriminate.
  - intros Hc. apply H2 in Hc. congruence.
Qed.

(** Once [handleBroadcast] has written a message it holds a read lock for
    good, and no client gets the write lock any more: from then on nobody
    is registered or deregistered. *)
Lemma chat_write_lock_waits (s s' : State) (msg : string) (conn : Conn) :
  taken s = Some msg -> handleBroadcast s = Some s' ->
  handleChatClient_lock conn s' = None.
Proof.
  unfold handleBroadcast. intros ->.
  destruct (decide (waiting s = ∅)); [|discriminate].
  intros [= <-]. unfold handleChatClient_lock. simpl. reflexivity.
Qed.

Lemma turn_rlocks t s s' : turn t s = Some s' -> rlocks s <= rlocks s'.
Proof.
  destruct t as [conn r|conn|conn|]; simpl.
  - unfold handleChatClient_scan. destruct (pcs s !! conn) as [[]|];
      try discriminate; destruct r as [x|x];
      try destruct (String.eqb x "/quit"); intros [= <-]; simpl; lia.
  - unfold handleChatClient_lock. destruct (decide (rlocks s = 0));
      [|discriminate].
    destruct (pcs s !! conn) as [[]|]; try discriminate;
      intros [= <-]; simpl; lia.
  - unfold handleChatClient_send, send. destruct (pcs s !! conn) as [[]|];
      try discriminate;
      (destruct (decide (length (broadcast s) < broadcastCap));
         [|discriminate]);
      simpl; intros [= <-]; simpl; lia.
  - unfold handleBroadcast. destruct (taken s).
    + destruct (decide (waiting s = ∅)); [|discriminate].
      intros [= <-]. simpl. lia.
    + destruct (broadcast s); [discriminate|].
      intros [= <-]. simpl. lia.
Qed.

Lemma run_rlocks ts : forall s s',
  run ts s = Some s' -> rlocks s <= rlocks s'.
Proof.
  induction ts as [|t ts IH]; intros s s' Hrun; simpl in Hrun.
  - injection Hrun as <-. lia.
  - destruct (turn t s) as [s1|] eqn:Et; [|discriminate]. simpl in Hrun.
    apply turn_rlocks in Et. apply IH in Hrun. lia.
Qed.

Lemma chat_registry_frozen ts s s' conn :
  0 < rlocks s -> run ts s = Some s' -> handleChatClient_lock conn s' = None.
Proof.
  intros Hl Hrun. apply run_rlocks in Hrun. unfold handleChatClient_lock.
  rewrite decide_False; [reflexivity | lia].
Qed.

End Chat.

(** ** Registration *)

Section Registration.

(** The registration of [handleConnection] takes the name, whoever held
    it. *)
Lemma handleConnection_registers (s : GuideTCP.State) (c0 : Conn)
    (r : ReadResult) :
  c0 ∈ GuideTCP.naming s ->
  exists c',
    GuideTCP.clients (GuideTCP.handleConnection c0 r s) !! TrimSpace (dataOf r)
    = Some c'
    /\ GuideTCP.conn c' = c0.
Proof.
  intros Hn. unfold GuideTCP.handleConnection.
  rewrite decide_True by assumption.
  cbn [GuideTCP.clients GuideTCP.name].
  rewrite broadcast_lookup. cbn [GuideTCP.clients GuideTCP.logPrintf].
  rewrite register_lookup. rewrite decide_True by reflexivity.
  eexists. split; [reflexivity|]. unfold GuideTCP.trySend.
  destruct (decide _); reflexivity.
Qed.

(** C7, as the code has it: a registration overwrites.  In the guide's
    server the registry maps the name, after [Register], to the new client,
    whatever it held for that name before, and no other entry changes; a
    connection that gives a name in [handleConnection] gets the entry of
    that name.  In the chat server of [network_tcp.go], where the
    connection is the key, the assignment overwrites as well. *)
Theorem register_overwrites :
  (forall (s : GuideTCP.State) (client : GuideTCP.Client),
      GuideTCP.clients (GuideTCP.register client s) !! GuideTCP.name client
      = Some client
      /\ forall n, n <> GuideTCP.name client ->
           GuideTCP.clients (GuideTCP.register client s) !! n
           = GuideTCP.clients s !! n)
  /\ (forall (s : GuideTCP.State) (c0 : Conn) (r : ReadResult),
        c0 ∈ GuideTCP.naming s ->
        exists c',
          GuideTCP.clients (GuideTCP.handleConnection c0 r s)
            !! TrimSpace (dataOf r) = Some c'
          /\ GuideTCP.conn c' = c0)
  /\ (forall (s : ChatTCP.State) (conn : Conn) (username : string),
        ChatTCP.clients (ChatTCP.register conn username s) !! conn
        = Some username
        /\ forall c, c <> conn ->
             ChatTCP.clients (ChatTCP.register conn username s) !! c
             = ChatTCP.clients s !! c).
Proof.
  split; [|split].
  - intros s client. split.
    + rewrite register_lookup. now rewrite decide_True.
    + intros n Hn. rewrite register_lookup. now rewrite decide_False.
  - apply handleConnection_registers.
  - apply chat_register_overwrites.
Qed.

End Registration.

(** ** Broadcast: who gets a message *)

Section Reachability.


End Reachability.

Section ReachabilityScenario.
Import NetworkingGuide NetworkingGuide.TCPServer Scenarios.Guide.

Lemma joined_alice :
  clients joined !! "alice"
  = Some (mkClient 1 "alice"
            ["alice 加入聊天室" +:+ LF; "bob 加入聊天室" +:+ LF]).
Proof. vm_compute. reflexivity. Qed.

Lemma joined_reader : readers joined !! 1 = Some "alice".
Proof. vm_compute. reflexivity. Qed.






(** C3 on the guide's server: after the "/quit" of alice her socket is
    closed and her reader has returned, and the registry still holds
    her. *)
Theorem quit_leaves_closed_client_registered :
  (conn <$> clients scenarioC !! "alice") = Some 1
  /\ 1 ∈ closedConns scenarioC
  /\ readers scenarioC !! 1 = None.
Proof. vm_compute. repeat split. Qed.

Lemma quit_keeps_registration_witness :
  clients (readMessages 1 (ReadOk ("/quit" +:+ LF)) scenarioA)
  = clients scenarioA
  /\ 1 ∈ closedConns (readMessages 1 (ReadOk ("/quit" +:+ LF)) scenarioA)
  /\ readers (readMessages 1 (ReadOk ("/quit" +:+ LF)) scenarioA) !! 1 = None.
Proof.
  destruct (quit_keeps_registration scenarioA 1 "alice") as (H1 & H2 & H3 & _).
  - vm_compute. reflexivity.
  - split; [exact H1|]. split; [exact H2 | exact H3].
Defined.

(** C7 as stated fails: a second client that gives the name "bob" takes
    the entry of the first. *)
Lemma register_same_name_replaces :
  (conn <$> clients (run [Accept (Accepted 1); Name 1 (ReadOk ("bob" +:+ LF))]
                       (NewTCPServer ":8080")) !! "bob") = Some 1
  /\ (conn <$> clients sameName !! "bob") = Some 2.
Proof. vm_compute. split; reflexivity. Qed.

Lemma register_overwrites_witness :
  (clients (register (mkClient 2 "bob" []) congested) !! "bob"
   = Some (mkClient 2 "bob" [])
   /\ clients (register (mkClient 2 "bob" []) congested) !! "alice"
      = clients congested !! "alice")
  /\ (exists c',
        clients (handleConnection 2 (ReadOk ("bob" +:+ LF))
                   (acceptLoop [Accepted 2] congested)) !! "bob" = Some c'
        /\ conn c' = 2).
Proof.
  destruct register_overwrites as (H & H' & _). split.
  - destruct (H congested (mkClient 2 "bob" [])) as [H1 H2].
    split; [exact H1|]. apply H2. discriminate.
  - apply (H' (acceptLoop [Accepted 2] congested) 2 (ReadOk ("bob" +:+ LF))).
    vm_compute. reflexivity.
Defined.

Lemma congested_full :
  clients congested !! "bob" = Some slow
  /\ sendChanCap <= length (sendChan slow).
Proof. vm_compute. split; [reflexivity | lia]. Qed.

Lemma congested_all_full (n' : string) (c' : Client) :
  clients congested !! n' = Some c' -> sendChanCap <= length (sendChan c').
Proof.
  destruct congested_full as [Hb Hfull]. intros Hn'.
  destruct (decide (n' = "bob")) as [->|Hne].
  - rewrite Hb in Hn'. injection Hn' as <-. exact Hfull.
  - unfold congested in Hn'. simpl in Hn'.
    rewrite lookup_singleton_ne in Hn' by congruence. discriminate.
Qed.

Lemma mixed_clients :
  clients mixed !! "bob" = Some slow
  /\ clients mixed !! "alice" = Some (mkClient 2 "alice" ["m"]).
Proof. vm_compute. split; reflexivity. Qed.

Lemma broadcast_full_buffer_witness :
  (clients (broadcast "x" congested) !! "bob" = Some slow
   /\ broadcast "x" congested = congested)
  /\ (clients (broadcast "x" mixed) !! "bob" = Some slow
      /\ clients (broadcast "x" mixed) !! "alice"
         = Some (mkClient 2 "alice" ["m"; "x"])).
Proof.
  destruct congested_full as [Hb Hfull].
  destruct mixed_clients as [Mb Ma]. split.
  - destruct (broadcast_full_buffer congested "x" "bob" slow Hb Hfull)
      as (H1 & _ & _ & _ & H5).
    split; [exact H1 | exact (H5 congested_all_full)].
  - destruct (broadcast_full_buffer mixed "x" "bob" slow Mb Hfull)
      as (H1 & H2 & _).
    split; [exact H1|].
    apply (H2 "alice" (mkClient 2 "alice" ["m"]) Ma). vm_compute. lia.
Defined.

(** C4 as stated fails: no drop is counted.  Whatever number one reads off
    the state of the server, it is the same before and after a broadcast
    that drops its payload. *)
Lemma drop_is_not_counted :
  ~ (exists drops : State -> nat,
       forall (s : State) (message n : string) (c : Client),
         clients s !! n = Some c ->
         sendChanCap <= length (sendChan c) ->
         drops s < drops (broadcast message s)).
Proof.
  intros (drops & Hdrops).
  destruct congested_full as [Hb Hfull].
  specialize (Hdrops congested "x" "bob" slow Hb Hfull).
  rewrite (broadcast_all_full "x" congested congested_all_full) in Hdrops.
  lia.
Qed.

End ReachabilityScenario.

(** ** The line server of [network_tcp.go]: accept loop and shutdown *)

Section LineServer.
Import NetworkTcp NetworkTcp.TCPServer.

Lemma handleConnection_counted t conn r s :
  counted s -> counted (handleConnection t conn r s).
Proof.
  unfold counted, handleConnection. intros Hc.
  destruct (decide (conn ∈ handling s)) as [Hin|Hout]; [|assumption].
  destruct r as [message|err]; simpl; [assumption|].
  destruct err; simpl; rewrite Hc;
    rewrite size_difference by (apply singleton_subseteq_l; assumption);
    rewrite size_singleton;
    assert (size (handling s) <> 0)
      by (intros H0; apply size_empty_inv in H0; set_solver);
    lia.
Qed.

Lemma NewTCPServer_counted address : counted (NewTCPServer address).
Proof. reflexivity. Qed.

Lemma spawn_counted conn s :
  conn ∉ handling s -> counted s -> counted (spawn conn s).
Proof.
  unfold counted, spawn. simpl. intros Hn Hc.
  rewrite size_union by (apply disjoint_singleton_l; assumption).
  rewrite size_singleton. lia.
Qed.




Lemma counted_zero s : counted s -> wg s = 0%Z -> handling s = ∅.
Proof.
  unfold counted. intros Hc H0. rewrite H0 in Hc.
  apply leibniz_equiv, size_empty_inv. lia.
Qed.











(** The accept loop of [Start] in [network_tcp.go]. *)
Lemma acceptLoop_temporary err rest s l :
  listener s = Some l -> isNetError err = true -> Temporary err = true ->
  acceptLoop (AcceptFailed err :: rest) s
  = acceptLoop rest (logPrintf (LogTemporary err) s).
Proof. intros Hl Hn Ht. simpl. now rewrite Hl, Hn, Ht. Qed.

Lemma acceptLoop_fatal err rest s l :
  listener s = Some l -> isNetError err && Temporary err = false ->
  acceptLoop (AcceptFailed err :: rest) s
  = (Returned (Some ("接受连接失败: " +:+ Error err)), s).
Proof. intros Hl Hf. simpl. now rewrite Hl, Hf. Qed.

End LineServer.

Section GuideAccept.
Import NetworkingGuide NetworkingGuide.TCPServer.




End GuideAccept.

(** ** The heartbeat server *)

Section Heartbeat.
Import NetworkingGuide NetworkingGuide.HeartbeatServer.

Lemma elem_of_difference_ne (c c' : Conn) (X : gset Conn) :
  c' <> c -> c ∈ X -> c ∈ X ∖ {[c']}.
Proof.
  intros Hne Hin. apply elem_of_difference. split; [assumption|].
  rewrite elem_of_singleton. congruence.
Qed.

Lemma not_elem_of_union_ne (c c' : Conn) (X : gset Conn) :
  c' <> c -> c ∉ X -> c ∉ {[c']} ∪ X.
Proof.
  intros Hne Hin. rewrite elem_of_union, elem_of_singleton.
  intros [->|H]; contradiction.
Qed.

Lemma sweep_lookup now s c :
  listeners (heartbeatChecker now s) !! c =
    match listeners s !! c with
    | Some ci => if decide (expired now ci) then None else Some ci
    | None => None
    end.
Proof.
  unfold heartbeatChecker. simpl. rewrite map_lookup_filter.
  destruct (listeners s !! c) as [ci|]; simpl; [|reflexivity].
  destruct (decide (expired now ci)) as [He|He].
  - rewrite option_guard_False; [reflexivity | simpl; tauto].
  - rewrite option_guard_True; [reflexivity | simpl; tauto].
Qed.

Lemma sweep_closed now s c :
  c ∈ closedConns (heartbeatChecker now s) <->
  (exists ci, listeners s !! c = Some ci /\ expired now ci)
  \/ c ∈ closedConns s.
Proof.
  unfold heartbeatChecker. simpl. rewrite elem_of_union, elem_of_dom.
  split; intros [H|H]; auto; left.
  - destruct H as [ci Hci]. apply map_lookup_filter_Some in Hci as [H1 H2].
    eauto.
  - destruct H as (ci & H1 & H2). exists ci.
    apply map_lookup_filter_Some. auto.
Qed.

Lemma step_gone c s te :
  ~ speaks c te.2 -> gone c s -> gone c (step s te).
Proof.
  destruct te as [t e]. unfold gone, step. cbn [fst snd]. intros Hq [Hl Hc].
  destruct e as [c'|c' r|]; cbn [speaks fails heard fst snd] in *.
  - unfold accept. simpl. rewrite lookup_insert_ne by assumption. auto.
  - unfold handleConnection. destruct (decide (c' ∈ handlers s)); [|auto].
    destruct r as [d|d]; [destruct (decide (c' ∈ closedConns s))|]; simpl.
    + split; [|set_solver]. destruct (decide (c' = c)) as [->|Hne];
        [apply lookup_delete_eq | now rewrite lookup_delete_ne].
    + split; [|assumption]. destruct (decide (c' = c)) as [->|Hne];
        [now rewrite lookup_alter_eq, Hl | now rewrite lookup_alter_ne].
    + split; [|set_solver]. destruct (decide (c' = c)) as [->|Hne];
        [apply lookup_delete_eq | now rewrite lookup_delete_ne].
  - split; [now rewrite sweep_lookup, Hl | apply sweep_closed; auto].
Qed.

Lemma step_silent c seen s te :
  ~ speaks c te.2 -> seenAt c seen s ->
  seenAt c seen (step s te) \/ gone c (step s te).
Proof.
  destruct te as [t e]. unfold step. cbn [fst snd]. intros Hq (ci & Hl & Hs).
  destruct e as [c'|c' r|]; cbn [speaks fails heard fst snd] in *.
  - left. exists ci. unfold accept. simpl.
    now rewrite lookup_insert_ne by assumption.
  - unfold handleConnection.
    destruct (decide (c' ∈ handlers s)); [|left; now exists ci].
    destruct (decide (c' = c)) as [->|Hne].
    + destruct r as [d|d]; [contradiction (Hq eq_refl)|].
      right. split; simpl; [apply lookup_delete_eq | set_solver].
    + left. exists ci.
      destruct r as [d|d]; [destruct (decide (c' ∈ closedConns s))|]; simpl.
      * now rewrite lookup_delete_ne.
      * now rewrite lookup_alter_ne.
      * now rewrite lookup_delete_ne.
  - destruct (decide (expired t ci)) as [He|He].
    + right. split; [rewrite sweep_lookup, Hl; now rewrite decide_True|].
      apply sweep_closed. left. eauto.
    + left. exists ci. rewrite sweep_lookup, Hl. now rewrite decide_False.
Qed.

Lemma tick_evicts c seen s t :
  (heartbeatTimeout < t - seen)%Z -> seenAt c seen s ->
  gone c (step s (t, Tick)).
Proof.
  intros Ht (ci & Hl & Hs). unfold step. cbn [fst snd].
  assert (expired t ci) as He by (unfold expired; now rewrite Hs).
  split; [rewrite sweep_lookup, Hl; now rewrite decide_True|].
  apply sweep_closed. left. eauto.
Qed.

Lemma run_gone c trace : forall s,
  Forall (fun te => ~ speaks c te.2) trace -> gone c s -> gone c (run trace s).
Proof.
  induction trace as [|te trace IH]; intros s Hq Hg; [exact Hg|].
  inversion Hq; subst. simpl. apply IH; [assumption|]. now apply step_gone.
Qed.

Lemma run_silent c seen trace : forall s,
  Forall (fun te => ~ speaks c te.2) trace -> seenAt c seen s ->
  (seenAt c seen (run trace s) \/ gone c (run trace s))
  /\ (forall t, (t, Tick) ∈ trace -> (heartbeatTimeout < t - seen)%Z ->
        gone c (run trace s)).
Proof.
  induction trace as [|te trace IH]; intros s Hq Hs.
  - split; [now left|]. intros t Hin. inversion Hin.
  - inversion Hq as [|? ? Hte Hrest]; subst. simpl.
    destruct (step_silent c seen s te Hte Hs) as [Hs'|Hg'].
    + destruct (IH (step s te) Hrest Hs') as [I1 I2]. split; [exact I1|].
      intros t Hin Ht. apply elem_of_cons in Hin as [<-|Hin].
      * apply run_gone; [assumption|]. now apply (tick_evicts c seen).
      * now apply (I2 t).
    + assert (gone c (run trace (step s te))) by now apply run_gone.
      split; [now right | auto].
Qed.

(** A ticker that was started at [start] ticks between [seen + timeout]
    and [seen + timeout + interval]. *)
Lemma ticker_tick_in_window (start seen : Z) :
  (start <= seen + heartbeatTimeout)%Z ->
  exists k : Z,
    (1 <= k)%Z
    /\ (seen + heartbeatTimeout < start + k * heartbeatInterval)%Z
    /\ (start + k * heartbeatInterval
        <= seen + heartbeatTimeout + heartbeatInterval)%Z.
Proof.
  intros Hs.
  exists ((seen + heartbeatTimeout - start) / heartbeatInterval + 1)%Z.
  assert (0 < heartbeatInterval)%Z as Hpos by reflexivity.
  pose proof (Z.div_mod (seen + heartbeatTimeout - start) heartbeatInterval
                ltac:(lia)) as Hdm.
  pose proof (Z.mod_pos_bound (seen + heartbeatTimeout - start)
                heartbeatInterval Hpos) as Hb.
  pose proof (Z.div_pos (seen + heartbeatTimeout - start) heartbeatInterval
                ltac:(lia) Hpos) as Hq.
  nia.
Qed.

Lemma step_lively c seen s te :
  ~ fails c te.2 ->
  (te.2 = Tick -> (te.1 - seen <= heartbeatTimeout)%Z) ->
  lively c seen s -> lively c (heard c seen te) (step s te).
Proof.
  destruct te as [t e]. unfold lively, step, heard. cbn [fst snd].
  intros Hf Ht ((ci & Hl & Hs) & Hh & Hc).
  destruct e as [c'|c' r|]; cbn [speaks fails heard fst snd] in *.
  - unfold accept, seenAt. simpl. destruct (decide (c' = c)) as [->|Hne].
    + split; [eexists; split; [apply lookup_insert_eq | reflexivity]|].
      split; [set_solver | assumption].
    + split; [exists ci; now rewrite lookup_insert_ne|].
      split; [set_solver | assumption].
  - unfold handleConnection, seenAt.
    destruct (decide (c' = c)) as [->|Hne].
    + rewrite decide_True by assumption.
      destruct r as [d|d]; [|contradiction (Hf eq_refl)].
      rewrite decide_False by assumption. simpl.
      split; [|split; assumption].
      eexists. split; [rewrite lookup_alter_eq, Hl; reflexivity | reflexivity].
    + assert (seen = match r with ReadOk _ => seen | ReadFailed _ => seen end)
        as <- by (now destruct r).
      destruct (decide (c' ∈ handlers s)); [|split; [now exists ci | auto]].
      destruct r as [d|d]; [destruct (decide (c' ∈ closedConns s))|]; simpl.
      * split; [exists ci; now rewrite lookup_delete_ne|].
        split;
          [now apply elem_of_difference_ne | now apply not_elem_of_union_ne].
      * split; [exists ci; now rewrite lookup_alter_ne|]. split; assumption.
      * split; [exists ci; now rewrite lookup_delete_ne|].
        split;
          [now apply elem_of_difference_ne | now apply not_elem_of_union_ne].
  - assert (~ expired t ci) as He
      by (unfold expired; rewrite Hs; specialize (Ht eq_refl); lia).
    split; [exists ci; rewrite sweep_lookup, Hl; now rewrite decide_False|].
    split; [assumption|]. rewrite sweep_closed. intros [(ci' & Hl' & He')|Hc'].
    + rewrite Hl in Hl'. injection Hl' as <-. contradiction.
    + contradiction.
Qed.

Lemma run_lively c trace : forall seen s,
  Forall (fun te => ~ fails c te.2) trace ->
  timely c seen trace ->
  lively c seen s -> lively c (lastHeard c trace seen) (run trace s).
Proof.
  induction trace as [|te trace IH]; intros seen s Hf Ht Hl; [exact Hl|].
  inversion Hf as [|? ? Hte Hrest]; subst. destruct Ht as [Ht Hts].
  simpl. apply IH; [assumption | assumption |].
  apply step_lively; [assumption | | assumption].
  intros He. now rewrite He in Ht.
Qed.

(** C2.  A client of which nothing is read for longer than
    [heartbeatTimeout + heartbeatInterval] is out of the registry with its
    socket closed: the ticker has ticked after the timeout ran out, and
    that sweep, if nothing before it, deleted and closed the client.  A
    client whose last data is at most [heartbeatTimeout] old at every
    sweep, and whose reads do not fail, stays registered and open: every
    read sets [lastSeen] to the time of the read. *)
Theorem heartbeat_eviction (trace : list (Z * Event)) (s : State) (c : Conn)
    (ci : ClientInfo) :
  listeners s !! c = Some ci ->
  (forall start stop : Z,
      Forall (fun te => ~ speaks c te.2) trace ->
      (forall k : Z, (1 <= k)%Z -> (start + k * heartbeatInterval <= stop)%Z ->
         (start + k * heartbeatInterval, Tick)%Z ∈ trace) ->
      (start <= lastSeen ci + heartbeatTimeout)%Z ->
      (heartbeatTimeout + heartbeatInterval < stop - lastSeen ci)%Z ->
      listeners (run trace s) !! c = None /\ c ∈ closedConns (run trace s))
  /\ (c ∈ handlers s -> c ∉ closedConns s ->
      Forall (fun te => ~ fails c te.2) trace ->
      timely c (lastSeen ci) trace ->
      is_Some (listeners (run trace s) !! c) /\ c ∉ closedConns (run trace s)).
Proof.
  intros Hl. assert (seenAt c (lastSeen ci) s) as Hs by (exists ci; auto).
  split.
  - intros start stop Hq Hticks Hstart Hlong.
    destruct (ticker_tick_in_window start (lastSeen ci) Hstart)
      as (k & Hk & Hlo & Hhi).
    destruct (run_silent c (lastSeen ci) trace s Hq Hs) as [_ Hev].
    apply (Hev (start + k * heartbeatInterval)%Z); [|lia].
    apply Hticks; [assumption | lia].
  - intros Hh Hc Hf Ht.
    destruct (run_lively c trace (lastSeen ci) s Hf Ht)
      as ((ci' & Hl' & _) & _ & Hc').
    { split; [exact Hs | auto]. }
    split; [eauto | exact Hc'].
Qed.

End Heartbeat.

Section HeartbeatScenario.
Import NetworkingGuide NetworkingGuide.HeartbeatServer Scenarios.Heartbeat.

Lemma connected_client :
  listeners connected !! 1 = Some (mkClientInfo 0 true []).
Proof. vm_compute. reflexivity. Qed.

Lemma silence_ticks (k : Z) :
  (1 <= k)%Z -> (0 + k * heartbeatInterval <= 121 * Second)%Z ->
  ((0 + k * heartbeatInterval)%Z, Tick) ∈ silence.
Proof.
  unfold heartbeatInterval, Second, silence. intros H1 H2.
  assert (k = 1 \/ k = 2 \/ k = 3 \/ k = 4)%Z as [-> | [-> | [-> | ->]]] by lia;
    simpl; rewrite !elem_of_cons; auto 6.
Qed.

Lemma heartbeat_eviction_witness :
  (listeners (run silence connected) !! 1 = None
   /\ 1 ∈ closedConns (run silence connected))
  /\ (is_Some (listeners (run pinging connected) !! 1)
      /\ 1 ∉ closedConns (run pinging connected)).
Proof.
  split.
  - destruct (heartbeat_eviction silence connected 1 _ connected_client)
      as [H _].
    apply (H 0%Z (121 * Second)%Z).
    + unfold silence. repeat constructor; simpl; auto.
    + exact silence_ticks.
    + vm_compute. discriminate.
    + vm_compute. reflexivity.
  - destruct (heartbeat_eviction pinging connected 1 _ connected_client)
      as [_ H].
    apply H.
    + vm_compute. reflexivity.
    + vm_compute. discriminate.
    + unfold pinging. repeat constructor; simpl; auto.
    + vm_compute. repeat split; discriminate.
Defined.

End HeartbeatScenario.

Section LineServerScenario.
Import NetworkTcp NetworkTcp.TCPServer Scenarios Scenarios.Echo.






End LineServerScenario.


(** * Further properties *)

(** ** The scanner of lines *)

Section Scanner.
Import GoBufio.

Lemma every_app p a b : every p (a +:+ b) = every p a && every p b.
Proof.
  induction a as [|c a IH]; [reflexivity|].
  rewrite string_app_cons. cbn [every]. now rewrite IH, andb_assoc.
Qed.

Lemma every_impl (p q : ascii -> bool) s :
  (forall c, p c = true -> q c = true) -> every p s = true -> every q s = true.
Proof.
  intros Hpq. induction s as [|c s IH]; [reflexivity|]. cbn [every].
  rewrite !andb_true_iff. intros [H1 H2]. auto.
Qed.

Lemma cut_None data : cut data = None <-> every notLF data = true.
Proof.
  induction data as [|c data IH]; [easy|]. cbn [cut every]. unfold notLF at 1.
  destruct (Ascii.eqb c "010"); cbn [negb andb]; [easy|].
  rewrite <- IH. destruct (cut data) as [[line rest]|]; easy.
Qed.

Lemma cut_line m x :
  every notLF m = true -> cut (m +:+ LF +:+ x) = Some (m, x).
Proof.
  induction m as [|c m IH]; [reflexivity|].
  rewrite string_app_cons. cbn [cut every]. unfold notLF at 1.
  destruct (Ascii.eqb c "010"); cbn [negb andb]; [discriminate|].
  intros H. now rewrite IH.
Qed.

Lemma lastByte_app a c b : lastByte (a +:+ String c b) = lastByte (String c b).
Proof.
  induction a as [|c0 a IH]; [reflexivity|].
  rewrite string_app_cons. cbn [lastByte].
  destruct (a +:+ String c b) eqn:E; [|exact IH].
  destruct a; discriminate.
Qed.

Lemma lastByte_app_r a b : b <> "" -> lastByte (a +:+ b) = lastByte b.
Proof. destruct b as [|c b]; [congruence|]. intros _. apply lastByte_app. Qed.

Lemma lastByte_rev s :
  lastByte (String.rev s) = match s with String c _ => Some c | "" => None end.
Proof.
  destruct s as [|c s]; [reflexivity|].
  rewrite string_rev_cons. now rewrite lastByte_app.
Qed.

Lemma lastByte_every p s c :
  every p s = true -> lastByte s = Some c -> p c = true.
Proof.
  induction s as [|c0 s IH]; [discriminate|]. cbn [every lastByte].
  rewrite andb_true_iff. intros [H1 H2]. destruct s; [congruence | auto].
Qed.

Lemma dropCR_id s : lastByte s <> Some CR -> dropCR s = s.
Proof.
  induction s as [|c s IH]; [reflexivity|]. cbn [dropCR lastByte].
  destruct s as [|c' s].
  - destruct (Ascii.eqb_spec c CR) as [->|]; congruence.
  - intros H. now rewrite IH.
Qed.

(** What [dropCR] drops is white space. *)
Lemma dropCR_split s :
  exists w, WhiteSpace w /\ s = dropCR s +:+ w.
Proof.
  induction s as [|c s (w & Hw & IH)].
  - exists "". split; [constructor | reflexivity].
  - cbn [dropCR]. destruct s as [|c' s].
    + destruct (Ascii.eqb_spec c CR) as [->|].
      * exists (String CR ""). split; [|reflexivity].
        apply ws_ascii; [reflexivity | constructor].
      * exists "". split; [constructor | reflexivity].
    + exists w. split; [assumption|]. rewrite string_app_cons. now f_equal.
Qed.

End Scanner.

(** ** The client of [network_tcp.go] *)

Section SendFacts.
Import GoBufio NetworkTcp NetworkTcp.TCPServer NetworkTcp.TCPClient.

Variable now : Time.

Lemma processMessage_dropCR m :
  processMessage now (dropCR m) = processMessage now m.
Proof.
  destruct (dropCR_split m) as (w & Hw & E).
  pose proof (TrimSpace_pad "" (dropCR m) w ws_nil Hw) as H.
  rewrite string_app_nil_l, <- E in H.
  unfold processMessage. cbv zeta. now rewrite H.
Qed.

Lemma pretty_N_char_digit x : digit (pretty_N_char x) = true.
Proof.
  destruct x as [|p]; [reflexivity|].
  repeat (destruct p as [p|p|]; try reflexivity).
Qed.

Lemma pretty_N_go_digits x : forall s,
  every digit s = true -> every digit (pretty_N_go x s) = true.
Proof.
  induction (N.lt_wf_0 x) as [x _ IH]. intros s Hs.
  destruct (decide (x = 0)%N) as [->|Hx]; [now rewrite pretty_N_go_0|].
  rewrite pretty_N_go_step by lia. apply IH.
  - apply N.div_lt; lia.
  - cbn [every]. now rewrite pretty_N_char_digit.
Qed.

Lemma pretty_N_digits (x : N) : every digit (pretty x) = true.
Proof.
  unfold pretty, pretty_N. destruct (decide (x = 0)%N); [reflexivity|].
  now apply pretty_N_go_digits.
Qed.

Lemma zeros_digits n : every digit (zeros n) = true.
Proof. induction n as [|n IH]; [reflexivity|]. exact IH. Qed.

Lemma digit_timeByte c : digit c = true -> timeByte c = true.
Proof. intros H. unfold timeByte. now rewrite H. Qed.

Lemma appendInt_timeBytes x width : every timeByte (appendInt x width) = true.
Proof.
  unfold appendInt. cbv zeta. rewrite every_app.
  rewrite (every_impl digit timeByte _ digit_timeByte (zeros_digits _)).
  now rewrite (every_impl digit timeByte _ digit_timeByte (pretty_N_digits x)).
Qed.

Lemma Format_date_timeBytes : every timeByte (Format_date now) = true.
Proof.
  unfold Format_date. now rewrite !every_app, !appendInt_timeBytes.
Qed.

Lemma Format_datetime_timeBytes : every timeByte (Format_datetime now) = true.
Proof.
  unfold Format_datetime.
  now rewrite !every_app, Format_date_timeBytes, !appendInt_timeBytes.
Qed.

Lemma timeByte_notLF c : timeByte c = true -> notLF c = true.
Proof.
  unfold timeByte, digit, notLF. destruct (Ascii.eqb_spec c "010") as [->|];
    [vm_compute; discriminate | reflexivity].
Qed.

Lemma timeByte_notCR c : timeByte c = true -> notCR c = true.
Proof.
  unfold timeByte, digit, notCR. destruct (Ascii.eqb_spec c CR) as [->|];
    [vm_compute; discriminate | reflexivity].
Qed.

Lemma strip_head_bounded p1 p2 p3 n : forall s c r,
  String.length s <= n ->
  strip p1 p2 p3 s = String c r -> p1 c = false.
Proof.
  induction n as [n IH] using lt_wf_ind. intros s c r Hlen.
  destruct s as [|c0 r0]; [discriminate|]. cbn [strip].
  destruct (p1 c0) eqn:E1.
  { apply (IH (String.length r0)); cbn [String.length] in *; lia. }
  destruct r0 as [|c1 r1]; [now intros [= <- _]|].
  destruct (p2 c0 c1).
  { apply (IH (String.length r1)); cbn [String.length] in *; lia. }
  destruct r1 as [|c2 r2]; [now intros [= <- _]|].
  destruct (p3 c0 c1 c2); [|now intros [= <- _]].
  apply (IH (String.length r2)); cbn [String.length] in *; lia.
Qed.

Lemma TrimRightSpace_lastByte s c :
  lastByte (TrimRightSpace s) = Some c -> asciiSpace c = false.
Proof.
  unfold TrimRightSpace. rewrite lastByte_rev.
  destruct (stripRev (String.rev s)) as [|c0 r] eqn:E; [discriminate|].
  intros [= <-]. unfold stripRev in E.
  eapply strip_head_bounded; [reflexivity | exact E].
Qed.

Lemma TrimSpace_every p m : every p m = true -> every p (TrimSpace m) = true.
Proof.
  intros H. unfold TrimSpace.
  destruct (strip_split asciiSpace latin1Space wideSpace m) as (w1 & _ & E1).
  fold (TrimLeftSpace m) in E1.
  destruct (TrimRightSpace_split (TrimLeftSpace m)) as (w2 & _ & E2).
  rewrite E1, E2, !every_app, !andb_true_iff in H. tauto.
Qed.

Lemma drop_every p n : forall s, every p s = true -> every p (drop n s) = true.
Proof.
  induction n as [|n IH]; intros [|c s]; cbn [drop every]; auto.
  rewrite andb_true_iff. intros [_ H]. auto.
Qed.

Lemma drop_lastByte n : forall s c,
  lastByte (drop n s) = Some c -> lastByte s = Some c.
Proof.
  induction n as [|n IH]; intros [|c0 s] c; cbn [drop]; auto.
  intros H. apply IH in H. cbn [lastByte]. destruct s; [discriminate | exact H].
Qed.

(** The answer of [processMessage] to a message without a line feed holds
    no line feed either, and it never ends in a carriage return: on the
    wire it is one line, and the scanner of the client gives it back as it
    is. *)
Lemma processMessage_one_line m :
  every notLF m = true ->
  every notLF (processMessage now m) = true
  /\ lastByte (processMessage now m) <> Some CR.
Proof.
  intros Hm. unfold processMessage. cbv zeta.
  pose proof (TrimSpace_every notLF m Hm) as Ht.
  assert (forall c, lastByte (TrimSpace m) = Some c -> c <> CR) as Hl.
  { intros c Hc ->. apply TrimRightSpace_lastByte in Hc. discriminate. }
  destruct (String.eqb (TrimSpace m) "ping");
    [split; [reflexivity | discriminate]|].
  destruct (String.eqb (TrimSpace m) "time").
  { split; [exact (every_impl _ _ _ timeByte_notLF Format_datetime_timeBytes)|].
    intros H. apply (lastByte_every notCR) in H; [discriminate|].
    exact (every_impl _ _ _ timeByte_notCR Format_datetime_timeBytes). }
  destruct (String.eqb (TrimSpace m) "date").
  { split; [exact (every_impl _ _ _ timeByte_notLF Format_date_timeBytes)|].
    intros H. apply (lastByte_every notCR) in H; [discriminate|].
    exact (every_impl _ _ _ timeByte_notCR Format_date_timeBytes). }
  destruct (String.eqb (TrimSpace m) "quit");
    [split; [reflexivity | discriminate]|].
  destruct (String.eqb (TrimSpace m) "echo");
    [split; [vm_compute; reflexivity | vm_compute; discriminate]|].
  destruct (HasPrefix (TrimSpace m) "echo:") eqn:Ep.
  - unfold TrimPrefix. rewrite Ep. split; [now apply drop_every|].
    intros H. apply drop_lastByte in H. now apply Hl in H.
  - split.
    + rewrite every_app, Ht. reflexivity.
    + destruct (TrimSpace m) as [|c t] eqn:E; [vm_compute; discriminate|].
      rewrite lastByte_app. intros H. now apply Hl in H.
Qed.

Lemma string_length_app a b :
  String.length (a +:+ b) = String.length a + String.length b.
Proof.
  induction a as [|c a IH]; [reflexivity|].
  rewrite string_app_cons. cbn [String.length]. now rewrite IH.
Qed.

Lemma Scan_line m x :
  every notLF m = true ->
  (N.of_nat (String.length m) < MaxScanTokenSize)%N ->
  Scan (m +:+ LF +:+ x) = Some (Line (dropCR m), x).
Proof.
  intros Hm Hlen. unfold Scan. rewrite cut_line by assumption.
  now rewrite decide_True.
Qed.

Lemma serve_empty fuel conn s : serve fuel now conn "" s = ("", s).
Proof. destruct fuel; reflexivity. Qed.

Lemma handleConnection_answer conn message s :
  conn ∈ handling s -> conn ∉ closedConns s ->
  handling (handleConnection now conn (Line message) s) = handling s
  /\ closedConns (handleConnection now conn (Line message) s) = closedConns s
  /\ received (outbox (handleConnection now conn (Line message) s)) conn
     = received (outbox s) conn ++ [processMessage now message +:+ LF].
Proof.
  intros Hh Hc. unfold handleConnection. rewrite decide_True by assumption.
  cbn [handling closedConns outbox logPrintf]. repeat split.
  unfold write. rewrite decide_False by assumption.
  unfold received. now rewrite lookup_insert_eq.
Qed.

Lemma serve_two_lines fuel conn a b s :
  2 <= fuel ->
  every notLF a = true -> every notLF b = true ->
  (N.of_nat (String.length a) < MaxScanTokenSize)%N ->
  (N.of_nat (String.length b) < MaxScanTokenSize)%N ->
  serve fuel now conn (a +:+ LF +:+ b +:+ LF) s
  = ("", handleConnection now conn (Line (dropCR b))
           (handleConnection now conn (Line (dropCR a)) s)).
Proof.
  intros Hf Ha Hb La Lb. destruct fuel as [|[|fuel]]; [lia | lia|].
  cbn [serve]. rewrite (Scan_line a (b +:+ LF) Ha La).
  pose proof (Scan_line b "" Hb Lb) as Hs.
  rewrite string_app_nil_r in Hs. rewrite Hs. apply serve_empty.
Qed.

(** X1.  A message without a line feed is answered: [Send] returns what
    [processMessage] makes of the message, whatever the scanner of the
    client has read ahead, and the session is at rest again, ready for the
    next [Send].  (The message and the answer have to fit the buffer of a
    scanner.) *)
Theorem Send_round_trip (ahead : nat) (message : string) (c : TCPClient)
    (w : Session) :
  atRest c w ->
  every notLF message = true ->
  (N.of_nat (String.length message) < MaxScanTokenSize)%N ->
  (N.of_nat (String.length (processMessage now message))
   < MaxScanTokenSize)%N ->
  (Send now ahead message c w).1 = Answered (processMessage now message)
  /\ atRest c (Send now ahead message c w).2
  /\ received (outbox (server (Send now ahead message c w).2)) (conn c)
     = received (outbox (server w)) (conn c)
         ++ [processMessage now message +:+ LF].
Proof.
  intros (Hh & Hc & Hb & Hi) Hm Hlen Hrlen. unfold Send. cbv zeta.
  rewrite Hb, Hi, !string_app_nil_l. cbn [serve].
  pose proof (Scan_line message "" Hm Hlen) as Hs.
  rewrite string_app_nil_r in Hs. rewrite Hs, serve_empty.
  destruct (handleConnection_answer (conn c) (dropCR message) (server w) Hh Hc)
    as (A1 & A2 & A3).
  rewrite processMessage_dropCR in A3.
  unfold writtenSince. rewrite A3, drop_app_length. cbn [String.concat].
  destruct (processMessage_one_line message Hm) as [R1 R2].
  pose proof (Scan_line (processMessage now message) "" R1 Hrlen) as Hs'.
  rewrite string_app_nil_r in Hs'.
  rewrite ?string_app_nil_l, Hs', dropCR_id by assumption.
  cbn [fst snd server buffered inbox]. split; [reflexivity|].
  split; [|exact A3].
  unfold atRest. cbn [server buffered inbox]. rewrite A1, A2.
  repeat split; try assumption. now destruct ahead.
Qed.

(** X2.  A message with a line feed inside is two requests to the server and
    gets two answers, of which [Send] takes the first.  If the second has
    not been read ahead it stays in the connection, and the next [Send]
    returns it, whatever it asks: from then on the client is one answer
    behind. *)
Theorem Send_out_of_step (a b : string) (c : TCPClient) (w : Session) :
  atRest c w ->
  every notLF a = true -> every notLF b = true ->
  (N.of_nat (String.length a) < MaxScanTokenSize)%N ->
  (N.of_nat (String.length b) < MaxScanTokenSize)%N ->
  (N.of_nat (String.length (processMessage now a)) < MaxScanTokenSize)%N ->
  (N.of_nat (String.length (processMessage now b)) < MaxScanTokenSize)%N ->
  (Send now 0 (a +:+ LF +:+ b) c w).1 = Answered (processMessage now a)
  /\ inbox (Send now 0 (a +:+ LF +:+ b) c w).2 = processMessage now b +:+ LF
  /\ forall (ahead : nat) (message : string),
       every notLF message = true ->
       (N.of_nat (String.length message) < MaxScanTokenSize)%N ->
       (Send now ahead message c (Send now 0 (a +:+ LF +:+ b) c w).2).1
       = Answered (processMessage now b).
Proof.
  intros (Hh & Hc & Hb & Hi) Ha Hbb La Lb Lra Lrb.
  destruct (handleConnection_answer (conn c) (dropCR a) (server w) Hh Hc)
    as (A1 & A2 & A3).
  set (s1 := handleConnection now (conn c) (Line (dropCR a)) (server w)) in *.
  destruct (handleConnection_answer (conn c) (dropCR b) s1) as (B1 & B2 & B3);
    [now rewrite A1 | now rewrite A2|].
  set (s2 := handleConnection now (conn c) (Line (dropCR b)) s1) in *.
  rewrite processMessage_dropCR in A3, B3.
  destruct (processMessage_one_line a Ha) as [Ra1 Ra2].
  destruct (processMessage_one_line b Hbb) as [Rb1 Rb2].
  assert (Send now 0 (a +:+ LF +:+ b) c w
          = (Answered (processMessage now a),
             mkSession s2 "" (processMessage now b +:+ LF))) as E.
  { unfold Send. cbv zeta. rewrite Hb, Hi, !string_app_nil_l.
    rewrite string_app_assoc, (string_app_assoc LF).
    rewrite (serve_two_lines _ (conn c) a b (server w)); try assumption.
    - fold s1 s2. unfold writtenSince.
      rewrite B3, A3, <- app_assoc, drop_app_length.
      cbn [app String.concat]. rewrite !string_app_nil_l.
      rewrite string_app_assoc.
      rewrite (Scan_line (processMessage now a) _ Ra1 Lra).
      now rewrite dropCR_id by assumption.
    - rewrite !string_length_app. change (String.length LF) with 1. lia. }
  rewrite E. cbn [fst snd inbox]. split; [reflexivity|].
  split; [reflexivity|]. intros ahead message Hm Lm.
  unfold Send. cbv zeta. cbn [server buffered inbox].
  rewrite string_app_nil_l. cbn [serve].
  pose proof (Scan_line message "" Hm Lm) as Hs.
  rewrite string_app_nil_r in Hs. rewrite Hs, serve_empty.
  destruct (handleConnection_answer (conn c) (dropCR message) s2)
    as (_ & _ & C3); [now rewrite B1, A1 | now rewrite B2, A2|].
  unfold writtenSince. rewrite C3, drop_app_length. cbn [String.concat].
  rewrite string_app_assoc.
  rewrite (Scan_line (processMessage now b) _ Rb1 Lrb).
  now rewrite dropCR_id by assumption.
Qed.

End SendFacts.

(** ** The line server of [network_tcp.go]: handlers and schedules *)

Section LineHandlers.
Import NetworkTcp NetworkTcp.TCPServer.

Lemma handleConnection_line now conn message s :
  conn ∈ handling s -> conn ∉ closedConns s ->
  handling (handleConnection now conn (Line message) s) = handling s
  /\ closedConns (handleConnection now conn (Line message) s) = closedConns s
  /\ wg (handleConnection now conn (Line message) s) = wg s
  /\ listener (handleConnection now conn (Line message) s) = listener s
  /\ forall c,
       received (outbox (handleConnection now conn (Line message) s)) c =
         if decide (c = conn)
         then received (outbox s) c ++ [processMessage now message +:+ LF]
         else received (outbox s) c.
Proof.
  intros Hh Hc. unfold handleConnection. rewrite decide_True by assumption.
  cbn [handling closedConns wg listener outbox logPrintf].
  repeat split. intros c. unfold write. rewrite decide_False by assumption.
  unfold received. destruct (decide (c = conn)) as [->|Hne].
  - now rewrite lookup_insert_eq.
  - now rewrite lookup_insert_ne by congruence.
Qed.

(** X3.  A handler answers every line of its client, in order, each answer on
    a line of its own and on the connection of the client only; it never
    closes the connection on a line, not on "quit" either, which it
    answers with "BYE": the handler stays until the stream ends. *)
Theorem handler_answers_in_order (lines : list (Time * string)) :
  forall (conn : Conn) (s : State),
  conn ∈ handling s -> conn ∉ closedConns s ->
  let s' := foldl (fun s nl => handleConnection nl.1 conn (Line nl.2) s) s
                  lines in
  received (outbox s') conn
  = received (outbox s) conn
      ++ map (fun nl => processMessage nl.1 nl.2 +:+ LF) lines
  /\ (forall c, c <> conn -> received (outbox s') c = received (outbox s) c)
  /\ handling s' = handling s
  /\ closedConns s' = closedConns s
  /\ wg s' = wg s.
Proof.
  induction lines as [|[now message] lines IH]; intros conn s Hh Hc;
    cbn [foldl map fst snd].
  - rewrite app_nil_r. repeat split.
  - destruct (handleConnection_line now conn message s Hh Hc)
      as (L1 & L2 & L3 & _ & L5).
    destruct (IH conn (handleConnection now conn (Line message) s))
      as (I1 & I2 & I3 & I4 & I5).
    { now rewrite L1. }
    { now rewrite L2. }
    cbn zeta in *. rewrite I1, I3, I4, I5, L1, L2, L3, L5.
    rewrite decide_True by reflexivity. rewrite <- app_assoc.
    split; [reflexivity|]. split; [|repeat split].
    intros c Hne. rewrite I2, L5 by assumption. now rewrite decide_False.
Qed.

End LineHandlers.

Section LineSchedule.
Import NetworkTcp NetworkTcp.TCPServer.

Lemma handleConnection_shrinks now conn r s :
  handling (handleConnection now conn r s) ⊆ handling s.
Proof.
  unfold handleConnection. destruct (decide (conn ∈ handling s)); [|done].
  destruct r as [message|[err|]]; cbn [handling logPrintf];
    [reflexivity | apply subseteq_difference_l; reflexivity ..].
Qed.

Lemma run_counted es : forall o s,
  counted s ->
  NoDup (accepted es) ->
  (forall c, c ∈ accepted es -> c ∉ handling s) ->
  counted (run es o s).2.
Proof.
  induction es as [|e es IH]; intros o s Hc Hnd Hfresh; [exact Hc|].
  destruct e as [r|now conn r]; cbn [run].
  - destruct o as [err|].
    + apply IH; [assumption | |].
      * destruct r; cbn [accepted] in Hnd; [now inversion Hnd | assumption].
      * intros c Hin. apply Hfresh. destruct r; cbn [accepted]; [|assumption].
        now apply list_elem_of_further.
    + destruct r as [conn|err]; cbn [accepted resume acceptLoop] in *.
      * inversion Hnd as [|? ? Hnotin Hnd']; subst.
        assert (counted (spawn conn s)) as Hs.
        { apply spawn_counted; [|assumption].
          apply Hfresh. apply list_elem_of_here. }
        assert (forall c, c ∈ accepted es -> c ∉ handling (spawn conn s))
          as Hf.
        { intros c Hin. cbn [handling spawn logPrintf].
          rewrite elem_of_union, elem_of_singleton.
          intros [->|Hh]; [contradiction|].
          revert Hh. apply Hfresh. now apply list_elem_of_further. }
        destruct (listener (spawn conn s)); now apply IH.
      * destruct (isNetError err && Temporary err); [|now apply IH].
        destruct (listener (logPrintf (LogTemporary err) s)); now apply IH.
  - cbn [accepted] in *. apply IH; [|assumption|].
    + now apply handleConnection_counted.
    + intros c Hin Hh. apply (Hfresh c Hin).
      revert Hh. apply handleConnection_shrinks.
Qed.

(** X4.  The counter of the wait group is the number of running handlers in
    every state that the server reaches, whatever is accepted and whatever
    the clients send; so it never goes below zero, and [Wait] returns
    exactly when no handler runs. *)
Theorem waitgroup_counts_handlers (es : list Event) (l : Listener)
    (address : string) :
  NoDup (accepted es) ->
  let s := (run es Blocked (Start (inl l) [] (NewTCPServer address)).2).2 in
  wg s = Z.of_nat (size (handling s))
  /\ (0 <= wg s)%Z
  /\ (wg s = 0%Z <-> handling s = ∅).
Proof.
  intros Hnd s.
  assert (counted s) as Hc.
  { apply run_counted; [reflexivity | assumption|].
    intros c _. cbn. apply not_elem_of_empty. }
  split; [exact Hc|]. split; [rewrite Hc; lia|]. split.
  - now apply counted_zero.
  - intros He. rewrite Hc, He, size_empty. reflexivity.
Qed.

End LineSchedule.

(** ** The chat server of [network_tcp.go]: delivery and the lock *)

Section ChatDelivery.
Import NetworkTcp NetworkTcp.ChatServer.






Lemma turn_frozen t s s' :
  0 < rlocks s -> turn t s = Some s' -> clients s' = clients s.
Proof.
  intros Hl. destruct t as [conn r|conn|conn|]; cbn [turn].
  - unfold handleChatClient_scan. destruct (pcs s !! conn) as [[]|];
      try discriminate; destruct r as [x|x];
      try destruct (String.eqb x "/quit"); intros [= <-]; reflexivity.
  - unfold handleChatClient_lock. rewrite decide_False by lia. discriminate.
  - unfold handleChatClient_send, send. destruct (pcs s !! conn) as [[]|];
      try discriminate;
      (destruct (decide (length (broadcast s) < broadcastCap));
         [|discriminate]);
      cbn; intros [= <-]; reflexivity.
  - unfold handleBroadcast. destruct (taken s).
    + destruct (decide (waiting s = ∅)); [|discriminate].
      intros [= <-]. reflexivity.
    + destruct (broadcast s); [discriminate|]. intros [= <-]. reflexivity.
Qed.

(** X6.  Once [handleBroadcast] holds a read lock, which it takes for the
    first message it writes, the registry never changes again: the read
    lock is released only when [handleBroadcast] returns, and it does not
    return; so no client gets the write lock, and nobody is registered or
    deleted any more. *)
Theorem chat_registry_stays_frozen (ts : list Turn) : forall (s s' : State),
  0 < rlocks s -> run ts s = Some s' ->
  clients s' = clients s
  /\ 0 < rlocks s'
  /\ forall conn, handleChatClient_lock conn s' = None.
Proof.
  induction ts as [|t ts IH]; intros s s' Hl Hrun; cbn [run] in Hrun.
  - injection Hrun as <-. split; [reflexivity|]. split; [assumption|].
    intros conn. unfold handleChatClient_lock. now rewrite decide_False by lia.
  - destruct (turn t s) as [s1|] eqn:Et; [|discriminate].
    cbn [mbind option_bind] in Hrun.
    pose proof (turn_rlocks t s s1 Et) as Hl1.
    destruct (IH s1 s' ltac:(lia) Hrun) as (I1 & I2 & I3).
    split; [|split; assumption].
    rewrite I1. now apply (turn_frozen t).
Qed.

End ChatDelivery.

(** ** The chat server of the guide: buffers *)

Section GuideBuffers.
Import NetworkingGuide NetworkingGuide.TCPServer.

Lemma trySend_fold msgs : forall c,
  foldl (fun c m => trySend m c) c msgs
  = mkClient (conn c) (name c)
             (sendChan c ++ take (sendChanCap - length (sendChan c)) msgs).
Proof.
  induction msgs as [|m msgs IH]; intros c; cbn [foldl].
  - rewrite take_nil, app_nil_r. now destruct c.
  - rewrite IH. unfold trySend.
    destruct (decide (length (sendChan c) < sendChanCap)) as [Hr|Hf];
      cbn [conn name sendChan].
    + rewrite length_app. cbn [length].
      replace (sendChanCap - length (sendChan c))
        with (S (sendChanCap - (length (sendChan c) + 1))) by lia.
      cbn [take]. now rewrite <- app_assoc.
    + replace (sendChanCap - length (sendChan c)) with 0 by lia.
      now rewrite !take_0.
Qed.

Lemma broadcast_fold_lookup msgs : forall s n,
  clients (foldl (fun s m => broadcast m s) s msgs) !! n
  = (fun c => foldl (fun c m => trySend m c) c msgs) <$> clients s !! n.
Proof.
  induction msgs as [|m msgs IH]; intros s n; cbn [foldl].
  - now destruct (clients s !! n).
  - rewrite IH, broadcast_lookup. now destruct (clients s !! n).
Qed.

Lemma kept_sublist ops : forall queued,
  kept ops queued `sublist_of` offered ops.
Proof.
  induction ops as [|[m|] ops IH]; intros queued; cbn [kept offered].
  - constructor.
  - destruct (decide (queued < sendChanCap)).
    + apply sublist_skip, IH.
    + apply sublist_cons, IH.
  - apply IH.
Qed.

Lemma kept_room ops : forall queued,
  queued + length (offered ops) <= sendChanCap -> kept ops queued = offered ops.
Proof.
  induction ops as [|[m|] ops IH]; intros queued Hq; cbn [kept offered] in *.
  - reflexivity.
  - cbn [length] in Hq. rewrite decide_True by lia. f_equal. apply IH. lia.
  - apply IH. lia.
Qed.

Lemma deliver_keeps_order ops : forall (s : State) (n : string) (c : Client),
  clients s !! n = Some c ->
  exists c',
    clients (deliver n ops s).2 !! n = Some c'
    /\ conn c' = conn c /\ name c' = name c
    /\ (deliver n ops s).1 ++ sendChan c'
       = sendChan c ++ kept ops (length (sendChan c)).
Proof.
  induction ops as [|[m|] ops IH]; intros s n c Hn; cbn [deliver kept].
  - exists c. cbn [fst snd]. rewrite app_nil_r. auto.
  - destruct (IH (broadcast m s) n (trySend m c)) as (c' & E & C1 & C2 & C3).
    { rewrite broadcast_lookup, Hn. reflexivity. }
    exists c'. split; [exact E|]. unfold trySend in C1, C2, C3.
    destruct (decide (length (sendChan c) < sendChanCap));
      cbn [conn name sendChan] in *; (split; [exact C1|]); (split; [exact C2|]).
    + rewrite C3, length_app, <- app_assoc. cbn [length app].
      now rewrite Nat.add_1_r.
    + exact C3.
  - unfold receive. rewrite Hn. destruct (sendChan c) as [|m rest] eqn:Ec.
    + destruct (IH s n c Hn) as (c' & E & C1 & C2 & C3).
      exists c'. rewrite Ec in C3. auto.
    + destruct (IH (mkState (address s)
                      (<[n := mkClient (conn c) (name c) rest]> (clients s))
                      (naming s) (readers s) (closedConns s) (logs s))
                   n (mkClient (conn c) (name c) rest))
        as (c' & E & C1 & C2 & C3).
      { cbn [clients]. apply lookup_insert_eq. }
      destruct (deliver n ops _) as [got s''] eqn:Ed. cbn [fst snd] in *.
      exists c'. split; [exact E|]. split; [exact C1|]. split; [exact C2|].
      cbn [sendChan length pred app] in *. now rewrite C3.
Qed.

(** X8.  A client is handed the messages in the order in which they are
    broadcast.  Under any sequence of broadcasts and of receives by its
    writer, what the writer has received followed by what the channel
    holds is what the channel held at first followed by the messages that
    were broadcast while it had room, in their order; a message is left
    out only when the channel holds its hundred messages at that moment.
    So a channel that never gets full passes on every message; and while
    the writer receives nothing, the channel takes the oldest messages
    that fit and the later ones are dropped. *)
Theorem broadcast_keeps_order (s : State) (ops : list ChanOp) (n : string)
    (c : Client) :
  clients s !! n = Some c ->
  (exists c',
     clients (deliver n ops s).2 !! n = Some c'
     /\ conn c' = conn c /\ name c' = name c
     /\ (deliver n ops s).1 ++ sendChan c'
        = sendChan c ++ kept ops (length (sendChan c)))
  /\ kept ops (length (sendChan c)) `sublist_of` offered ops
  /\ (length (sendChan c) + length (offered ops) <= sendChanCap ->
      kept ops (length (sendChan c)) = offered ops)
  /\ (forall msgs,
        clients (foldl (fun s m => broadcast m s) s msgs) !! n
        = Some (mkClient (conn c) (name c)
                  (sendChan c
                     ++ take (sendChanCap - length (sendChan c)) msgs))).
Proof.
  intros Hn. split; [now apply deliver_keeps_order|].
  split; [apply kept_sublist|]. split; [apply kept_room|].
  intros msgs. rewrite broadcast_fold_lookup, Hn. cbn. f_equal.
  apply trySend_fold.
Qed.

Lemma trySend_bounded m c :
  length (sendChan c) <= sendChanCap ->
  length (sendChan (trySend m c)) <= sendChanCap.
Proof.
  intros H. unfold trySend. destruct (decide _); cbn [sendChan]; [|assumption].
  rewrite length_app. cbn [length]. lia.
Qed.

Lemma broadcast_bounded m s : bounded s -> bounded (broadcast m s).
Proof.
  intros Hb n c. rewrite broadcast_lookup.
  destruct (clients s !! n) as [c0|] eqn:E; [|discriminate].
  intros [= <-]. apply trySend_bounded. eauto.
Qed.

Lemma turn_bounded t s : bounded s -> bounded (turn t s).
Proof.
  intros Hb. destruct t as [r|c r|c r]; cbn [turn].
  - destruct r as [c|err]; exact Hb.
  - unfold handleConnection. destruct (decide (c ∈ naming s)); [|exact Hb].
    intros n cl. cbn [clients]. intros Hn.
    refine (broadcast_bounded _ (logPrintf _ (register _ s)) _ n cl Hn).
    intros n' c'. cbn [clients logPrintf register].
    destruct (decide (TrimSpace (dataOf r) = n')) as [<-|Hne].
    + rewrite lookup_insert_eq. intros [= <-]. cbn. lia.
    + rewrite lookup_insert_ne by assumption. apply Hb.
  - unfold readMessages. destruct (readers s !! c) as [who|]; [|exact Hb].
    destruct r as [message|data].
    + destruct (String.eqb (TrimSpace message) "/quit"); [exact Hb|].
      now apply broadcast_bounded.
    + intros n cl. cbn [clients stopReader]. intros Hn.
      refine (broadcast_bounded _ (deregister who s) _ n cl Hn).
      intros n' c'. cbn [clients deregister]. intros Hn'.
      apply lookup_delete_Some in Hn' as [_ Hn']. eauto.
Qed.

Lemma run_bounded ts : forall s, bounded s -> bounded (run ts s).
Proof.
  induction ts as [|t ts IH]; intros s Hb; [exact Hb|].
  apply IH. now apply turn_bounded.
Qed.

(** X9.  The buffer of a client never holds more than its hundred messages,
    whatever the clients do. *)
Theorem sendChan_never_overflows (ts : list Turn) (address n : string)
    (c : Client) :
  clients (run ts (NewTCPServer address)) !! n = Some c ->
  length (sendChan c) <= sendChanCap.
Proof.
  apply (run_bounded ts (NewTCPServer address)).
  intros n' c'. cbn. rewrite lookup_empty. discriminate.
Qed.

(** X10.  A read error ends the reader of the client: the entry under its name
    is deleted from the registry, whichever connection holds it (a second
    client of that name loses its place with the first), the others are
    told, and no socket is closed: the reader leaves that to the
    writer. *)
Theorem read_error_leaves (s : State) (c0 : Conn) (who data : string) :
  readers s !! c0 = Some who ->
  clients (readMessages c0 (ReadFailed data) s) !! who = None
  /\ (forall n c, n <> who -> clients s !! n = Some c ->
        clients (readMessages c0 (ReadFailed data) s) !! n
        = Some (trySend (who +:+ " 离开聊天室" +:+ LF) c))
  /\ readers (readMessages c0 (ReadFailed data) s) = delete c0 (readers s)
  /\ closedConns (readMessages c0 (ReadFailed data) s) = closedConns s.
Proof.
  intros Hr. unfold readMessages. rewrite Hr.
  cbn [clients readers closedConns stopReader].
  split; [|split; [|split; reflexivity]].
  - rewrite broadcast_lookup. cbn [clients deregister].
    now rewrite lookup_delete_eq.
  - intros n c Hne Hn. rewrite broadcast_lookup. cbn [clients deregister].
    now rewrite lookup_delete_ne, Hn by congruence.
Qed.

End GuideBuffers.

(** ** The client of the guide *)

Section GuideClientFacts.
Import NetworkingGuide NetworkingGuide.TCPServer GoBufio.

Lemma cut_Some data : forall line rest,
  cut data = Some (line, rest) ->
  data = line +:+ LF +:+ rest /\ every notLF line = true.
Proof.
  induction data as [|c data IH]; intros line rest; cbn [cut]; [discriminate|].
  destruct (Ascii.eqb_spec c "010") as [->|Hc].
  - intros [= <- <-]. split; reflexivity.
  - destruct (cut data) as [[l r]|]; [|discriminate].
    intros [= <- <-]. destruct (IH l r eq_refl) as [-> Hl].
    split; [now rewrite string_app_cons|].
    cbn [every]. rewrite Hl, andb_true_r. unfold notLF.
    now apply negb_true_iff, Ascii.eqb_neq.
Qed.

Lemma fullLine_spec input :
  GuideClient.fullLine input = true ->
  exists body, input = body +:+ LF /\ every notLF body = true.
Proof.
  unfold GuideClient.fullLine. destruct (cut input) as [[line rest]|] eqn:E;
    [|discriminate].
  destruct rest; [|discriminate]. intros _.
  destruct (cut_Some input line "" E) as [-> Hl].
  exists line. split; [reflexivity | exact Hl].
Qed.

Lemma ReadStrings_line body : forall line x,
  every notLF body = true ->
  GuideClient.ReadStrings line (body +:+ LF +:+ x)
  = ((line +:+ body +:+ LF) :: (GuideClient.ReadStrings "" x).1,
     (GuideClient.ReadStrings "" x).2).
Proof.
  induction body as [|c body IH]; intros line x Hb.
  - rewrite string_app_nil_l. change (LF +:+ x) with (String "010" x).
    cbn [GuideClient.ReadStrings Ascii.eqb Bool.eqb andb].
    now destruct (GuideClient.ReadStrings "" x).
  - cbn [every] in Hb. apply andb_true_iff in Hb as [Hc Hb].
    rewrite string_app_cons. cbn [GuideClient.ReadStrings].
    unfold notLF in Hc. apply negb_true_iff in Hc. rewrite Hc.
    rewrite IH by assumption. rewrite !string_app_assoc.
    now rewrite string_app_cons, string_app_nil_l.
Qed.

Lemma string_concat_cons x xs :
  String.concat "" (x :: xs) = x +:+ String.concat "" xs.
Proof.
  destruct xs as [|y ys]; cbn [String.concat].
  - now rewrite string_app_nil_r.
  - now rewrite string_app_nil_l.
Qed.

Lemma string_concat_app xs : forall ys,
  String.concat "" (xs ++ ys) = String.concat "" xs +:+ String.concat "" ys.
Proof.
  induction xs as [|x xs IH]; intros ys.
  - now rewrite string_app_nil_l.
  - rewrite <- app_comm_cons, !string_concat_cons, IH.
    now rewrite string_app_assoc.
Qed.

Lemma drop_app_string a : forall b, drop (String.length a) (a +:+ b) = b.
Proof.
  induction a as [|c a IH]; intros b; [now destruct b|].
  rewrite string_app_cons. cbn [String.length drop]. apply IH.
Qed.

Lemma ReadStrings_lines lines :
  Forall (fun m => GuideClient.fullLine m = true) lines ->
  GuideClient.ReadStrings "" (String.concat "" lines) = (lines, "").
Proof.
  induction 1 as [|m lines Hm _ IH]; [reflexivity|].
  rewrite string_concat_cons.
  destruct (fullLine_spec m Hm) as (body & -> & Hb).
  rewrite string_app_assoc, ReadStrings_line by assumption.
  now rewrite IH, string_app_nil_l.
Qed.

Lemma Run_sends inputs : forall c,
  GuideClient.closed c = false ->
  exists lines,
    GuideClient.sent (GuideClient.Run inputs c).2 = GuideClient.sent c ++ lines
    /\ Forall (fun m => TrimSpace m <> "/quit") lines
    /\ lines `prefix_of` inputs
    /\ GuideClient.closed (GuideClient.Run inputs c).2
       = (GuideClient.Run inputs c).1
    /\ ((GuideClient.Run inputs c).1 = true <->
        Exists (fun m => TrimSpace m = "/quit") inputs).
Proof.
  induction inputs as [|input rest IH]; intros c Hc; cbn [GuideClient.Run].
  - exists []. rewrite app_nil_r. cbn [fst snd].
    split; [reflexivity|]. split; [constructor|]. split; [apply prefix_nil|].
    split; [assumption|]. split; [discriminate|]. intros H. inversion H.
  - destruct (String.eqb_spec (TrimSpace input) "/quit") as [E|E].
    + exists []. rewrite app_nil_r.
      cbn [fst snd GuideClient.Close GuideClient.sent GuideClient.closed].
      split; [reflexivity|]. split; [constructor|]. split; [apply prefix_nil|].
      split; [reflexivity|]. split; [intros _; now constructor | reflexivity].
    + destruct (IH (GuideClient.Send input c))
        as (lines & I1 & I2 & I3 & I4 & I5).
      { unfold GuideClient.Send. now rewrite Hc. }
      assert (GuideClient.sent (GuideClient.Send input c)
              = GuideClient.sent c ++ [input]) as Es
        by (unfold GuideClient.Send; now rewrite Hc).
      exists (input :: lines). rewrite Es, <- app_assoc in I1.
      split; [exact I1|]. split; [now constructor|].
      split; [now apply prefix_cons|]. split; [exact I4|].
      rewrite I5. split; [now right|].
      intros H. inversion H; subst; [contradiction | assumption].
Qed.

Lemma reads_broadcast lines : forall (s : TCPServer.State) (conn : Conn)
    (who : string),
  readers s !! conn = Some who ->
  Forall (fun m => TrimSpace m <> "/quit") lines ->
  let s' := run (map (fun m => Read conn (ReadOk m)) lines) s in
  readers s' = readers s
  /\ closedConns s' = closedConns s
  /\ dom (clients s') = dom (clients s).
Proof.
  induction lines as [|m lines IH]; intros s conn who Hr Hq; [easy|].
  inversion Hq as [|? ? Hm Hrest]; subst. cbn [map run foldl turn].
  assert (readMessages conn (ReadOk m) s
          = broadcast ("[" +:+ who +:+ "]: " +:+ TrimSpace m +:+ LF) s) as ->.
  { unfold readMessages. rewrite Hr.
    now destruct (String.eqb_spec (TrimSpace m) "/quit"). }
  destruct (IH (broadcast ("[" +:+ who +:+ "]: " +:+ TrimSpace m +:+ LF) s)
              conn who Hr Hrest) as (I1 & I2 & I3).
  cbv zeta in *. unfold run in *. rewrite I1, I2, I3.
  cbn [readers closedConns clients broadcast]. repeat split.
  apply dom_fmap_L.
Qed.

(** The reader of [readMessages] starts on a boundary between two
    messages and the messages are lines: it reads the messages behind the
    boundary, one with every [ReadString]. *)
Lemma reads_lines (conn : Conn) (k : nat) (c : GuideClient.State) :
  Forall (fun m => GuideClient.fullLine m = true) (GuideClient.sent c) ->
  GuideClient.reads conn
    (String.length (String.concat "" (take k (GuideClient.sent c)))) c
  = map (fun m => Read conn (ReadOk m)) (skipn k (GuideClient.sent c))
      ++ (if GuideClient.closed c then [Read conn (ReadFailed "")] else []).
Proof.
  intros Hl. unfold GuideClient.reads.
  rewrite <- (take_drop k (GuideClient.sent c)) at 2.
  rewrite string_concat_app, drop_app_string.
  rewrite ReadStrings_lines; [reflexivity|].
  rewrite <- (take_drop k (GuideClient.sent c)) in Hl.
  now apply Forall_app in Hl as [_ Hl].
Qed.

(** X12.  The "/quit" of the guide's client is not sent: the client sends
    what is typed before it, closes its connection and sends nothing
    more.  When every input is a line of the terminal with its line feed,
    and the reader of [readMessages] starts on a boundary between two
    messages (the reader of [handleConnection] has taken whole messages
    from the stream, the line of the name first), the server reads the
    messages behind that boundary one by one and then the end of the
    stream.  So it does not take the "/quit" branch of [readMessages] for
    such a client: it deletes the client from the registry, ends its
    reader, and closes no socket. *)
Theorem client_quit_is_a_hangup (inputs : list string) (addr : string)
    (s : TCPServer.State) (conn : Conn) (who : string) (k : nat) :
  Forall (fun m => GuideClient.fullLine m = true) inputs ->
  Exists (fun m => TrimSpace m = "/quit") inputs ->
  readers s !! conn = Some who ->
  let c := (GuideClient.Run inputs (GuideClient.mkState addr [] false)).2 in
  let skip :=
    String.length (String.concat "" (take k (GuideClient.sent c))) in
  Forall (fun m => TrimSpace m <> "/quit") (GuideClient.sent c)
  /\ GuideClient.sent c `prefix_of` inputs
  /\ GuideClient.closed c = true
  /\ GuideClient.reads conn skip c
     = map (fun m => Read conn (ReadOk m)) (skipn k (GuideClient.sent c))
         ++ [Read conn (ReadFailed "")]
  /\ clients (run (GuideClient.reads conn skip c) s) !! who = None
  /\ readers (run (GuideClient.reads conn skip c) s) !! conn = None
  /\ closedConns (run (GuideClient.reads conn skip c) s) = closedConns s.
Proof.
  intros Hl Hq Hr c skip.
  destruct (Run_sends inputs (GuideClient.mkState addr [] false) eq_refl)
    as (lines & S1 & S2 & S3 & S4 & S5).
  fold c in S1, S4. cbn [GuideClient.sent app] in S1.
  assert (GuideClient.closed c = true) as Hc by (rewrite S4; now apply S5).
  assert (Forall (fun m => GuideClient.fullLine m = true)
            (GuideClient.sent c)) as Hs.
  { rewrite S1. destruct S3 as [rest ->].
    now apply Forall_app in Hl as [Hl _]. }
  assert (GuideClient.reads conn skip c
          = map (fun m => Read conn (ReadOk m)) (skipn k (GuideClient.sent c))
              ++ [Read conn (ReadFailed "")]) as Er.
  { unfold skip. rewrite reads_lines by assumption. now rewrite Hc. }
  rewrite S1. split; [exact S2|]. split; [exact S3|]. split; [exact Hc|].
  rewrite <- S1. split; [exact Er|]. rewrite Er.
  assert (Forall (fun m => TrimSpace m <> "/quit")
            (skipn k (GuideClient.sent c))) as Hd.
  { rewrite S1. rewrite <- (take_drop k lines) in S2.
    now apply Forall_app in S2 as [_ S2]. }
  unfold run. rewrite foldl_app.
  fold (run (map (fun m => Read conn (ReadOk m))
               (skipn k (GuideClient.sent c))) s).
  destruct (reads_broadcast (skipn k (GuideClient.sent c)) s conn who Hr Hd)
    as (R1 & R2 & R3).
  cbv zeta in R1, R2, R3.
  set (s1 := run (map (fun m => Read conn (ReadOk m))
                    (skipn k (GuideClient.sent c))) s) in *.
  cbn [foldl turn]. unfold readMessages. rewrite R1, Hr.
  cbn [clients readers closedConns stopReader broadcast deregister].
  rewrite lookup_fmap, !lookup_delete_eq. repeat split. exact R2.
Qed.

End GuideClientFacts.

(** ** The heartbeat server: the registry *)

Section HeartbeatRegistry.
Import NetworkingGuide NetworkingGuide.HeartbeatServer.

Lemma step_registryInv s te :
  registryInv s ->
  (forall c, te.2 = Accept c -> c ∉ closedConns s) ->
  registryInv (step s te).
Proof.
  destruct te as [t e]. unfold step. cbn [fst snd]. intros Hinv Hfresh.
  destruct e as [c0|c0 r|].
  - intros c. unfold accept. cbn [listeners handlers closedConns].
    destruct (decide (c = c0)) as [->|Hne].
    + intros _. split; [apply elem_of_union_l, elem_of_singleton; reflexivity|].
      now apply Hfresh.
    + rewrite lookup_insert_ne by congruence. intros Hc.
      destruct (Hinv c Hc). split; [now apply elem_of_union_r | assumption].
  - unfold handleConnection.
    destruct (decide (c0 ∈ handlers s)); [|exact Hinv].
    assert (registryInv
              (mkState (delete c0 (listeners s)) (handlers s ∖ {[c0]})
                       ({[c0]} ∪ closedConns s) (outbox s))) as Hdel.
    { intros c. cbn [listeners handlers closedConns].
      destruct (decide (c = c0)) as [->|Hne].
      - rewrite lookup_delete_eq. intros H. now apply is_Some_None in H.
      - rewrite lookup_delete_ne by congruence. intros Hc.
        destruct (Hinv c Hc). split.
        + apply elem_of_difference_ne; [congruence | assumption].
        + apply not_elem_of_union_ne; [congruence | assumption]. }
    destruct r as [data|data]; [|exact Hdel].
    destruct (decide (c0 ∈ closedConns s)); [exact Hdel|].
    intros c. cbn [listeners handlers closedConns]. intros Hc.
    apply Hinv. destruct (decide (c = c0)) as [->|Hne].
    + rewrite lookup_alter_eq in Hc. destruct (listeners s !! c0); [eauto|].
      cbn in Hc. now apply is_Some_None in Hc.
    + now rewrite lookup_alter_ne in Hc by congruence.
  - intros c. rewrite sweep_lookup. intros Hc.
    destruct (listeners s !! c) as [ci|] eqn:El;
      [|now apply is_Some_None in Hc].
    destruct (decide (expired t ci)) as [He|He];
      [now apply is_Some_None in Hc|].
    destruct (Hinv c) as [H1 H2]; [rewrite El; eauto|].
    split; [exact H1|]. rewrite sweep_closed.
    intros [(ci' & El' & He')|Hcl]; [|contradiction].
    rewrite El in El'. injection El' as <-. contradiction.
Qed.

(** What has been closed or is handled has been in the registry or has a
    handler: a connection that is none of these stays so until it is
    accepted. *)
Lemma step_unknown s te c :
  (forall c', te.2 = Accept c' -> c' <> c) ->
  listeners s !! c = None -> c ∉ handlers s -> c ∉ closedConns s ->
  listeners (step s te) !! c = None
  /\ (c ∉ handlers (step s te)) /\ (c ∉ closedConns (step s te)).
Proof.
  destruct te as [t e]. unfold step. cbn [fst snd]. intros Hne Hl Hh Hc.
  destruct e as [c0|c0 r|].
  - assert (c0 <> c) by (now apply Hne). unfold accept.
    cbn [listeners handlers closedConns].
    rewrite lookup_insert_ne by assumption. split; [assumption|].
    split; [now apply not_elem_of_union_ne | assumption].
  - unfold handleConnection.
    destruct (decide (c0 ∈ handlers s)) as [Hin|]; [|auto].
    assert (c0 <> c) by (intros ->; contradiction).
    assert (delete c0 (listeners s) !! c = None
            /\ (c ∉ handlers s ∖ {[c0]})
            /\ (c ∉ {[c0]} ∪ closedConns s)) as Hdel.
    { rewrite lookup_delete_ne by assumption. split; [assumption|].
      split; [|now apply not_elem_of_union_ne].
      rewrite elem_of_difference. tauto. }
    destruct r as [data|data]; [|exact Hdel].
    destruct (decide (c0 ∈ closedConns s)); [exact Hdel|].
    cbn [listeners handlers closedConns].
    rewrite lookup_alter_ne by assumption. auto.
  - split; [now rewrite sweep_lookup, Hl|]. split; [assumption|].
    rewrite sweep_closed.
    intros [(ci & El & _)|Hcl]; [congruence | contradiction].
Qed.

Lemma run_registryInv_fresh trace : forall s,
  registryInv s ->
  NoDup (accepted trace) ->
  (forall c, c ∈ accepted trace ->
     listeners s !! c = None /\ (c ∉ handlers s) /\ (c ∉ closedConns s)) ->
  registryInv (run trace s).
Proof.
  induction trace as [|[t e] trace IH]; intros s Hinv Hnd Hfresh; [exact Hinv|].
  cbn [run foldl]. apply IH.
  - apply step_registryInv; [assumption|]. cbn [snd]. intros c ->.
    apply Hfresh. cbn [accepted]. apply list_elem_of_here.
  - destruct e; cbn [accepted] in Hnd; [now inversion Hnd | assumption ..].
  - intros c Hin.
    assert (c ∈ accepted ((t, e) :: trace)) as Hin'
      by (destruct e; cbn [accepted]; [now apply list_elem_of_further|
            assumption ..]).
    destruct (Hfresh c Hin') as (F1 & F2 & F3).
    apply step_unknown; [|assumption ..].
    cbn [snd]. intros c' -> ->. cbn [accepted] in Hnd.
    inversion Hnd; subst. contradiction.
Qed.

(** X13.  The registry of the heartbeat server holds live clients only: in every
    state that the server reaches a registered connection is open and has
    its handler running: the sweep and the handler delete a client from
    the registry before they close its connection. *)
Theorem heartbeat_registry_is_live (trace : list (Z * Event)) (c : Conn) :
  NoDup (accepted trace) ->
  is_Some (listeners (run trace NewHeartbeatServer) !! c) ->
  c ∈ handlers (run trace NewHeartbeatServer)
  /\ c ∉ closedConns (run trace NewHeartbeatServer).
Proof.
  intros Hnd. apply run_registryInv_fresh; [|assumption|].
  - intros c' Hc'. cbn in Hc'. rewrite lookup_empty in Hc'.
    now apply is_Some_None in Hc'.
  - intros c' _. cbn. rewrite lookup_empty.
    split; [reflexivity|]. split; apply not_elem_of_empty.
Qed.

Lemma expired_mono t1 t2 ci : (t1 <= t2)%Z -> expired t1 ci -> expired t2 ci.
Proof. unfold expired. lia. Qed.

(** X14.  Two sweeps are as good as the later one of them: a tick that comes
    late, or twice, makes no difference to the registry or to the sockets
    that are closed. *)
Theorem sweeps_compose (t1 t2 : Z) (s : State) :
  (t1 <= t2)%Z ->
  heartbeatChecker t2 (heartbeatChecker t1 s) = heartbeatChecker t2 s.
Proof.
  intros Ht.
  assert (listeners (heartbeatChecker t2 (heartbeatChecker t1 s))
          = listeners (heartbeatChecker t2 s)) as El.
  { apply map_eq. intros c. rewrite !sweep_lookup.
    destruct (listeners s !! c) as [ci|]; [|reflexivity].
    destruct (decide (expired t1 ci)) as [H1|H1]; [|reflexivity].
    rewrite decide_True; [reflexivity|]. now apply (expired_mono t1). }
  assert (closedConns (heartbeatChecker t2 (heartbeatChecker t1 s))
          = closedConns (heartbeatChecker t2 s)) as Ec.
  { apply set_eq. intros c. rewrite !sweep_closed, sweep_lookup.
    split.
    - intros [(ci & Hl & He)|[(ci & Hl & He)|Hc]]; [| |now right].
      + destruct (listeners s !! c) as [ci'|]; [|discriminate].
        destruct (decide (expired t1 ci')); [discriminate|].
        injection Hl as ->. left. eauto.
      + left. exists ci. split; [assumption|]. now apply (expired_mono t1).
    - intros [(ci & Hl & He)|Hc]; [|now right; right].
      rewrite Hl. destruct (decide (expired t1 ci)) as [H1|H1].
      + right. left. eauto.
      + left. eauto. }
  unfold heartbeatChecker in *.
  cbn [listeners closedConns handlers outbox] in *.
  now rewrite El, Ec.
Qed.

End HeartbeatRegistry.

(** ** The middlewares of the guide *)

Section Middleware.
Import GoHTTP NetworkingGuide.HTTPMiddleware.

Lemma chainFrom_app (pre post : list Middleware) (h : Handler) :
  chainFrom (length pre) (pre ++ post) h = foldr (fun mid h => mid h) h pre.
Proof.
  revert h post. induction pre as [|mid pre IH] using rev_ind; intros h post;
    [reflexivity|].
  rewrite length_app, Nat.add_comm. cbn [length Nat.add chainFrom].
  rewrite <- app_assoc.
  rewrite (lookup_app_r pre) by lia. rewrite Nat.sub_diag. cbn [lookup].
  cbn. rewrite IH, foldr_app. reflexivity.
Qed.

(** X15.  [ChainMiddleware] wraps from the last middleware to the first, so the
    first of the list is the outermost: a request passes the middlewares
    in the order of the list. *)
Theorem ChainMiddleware_order (h : Handler) (mids : list Middleware) :
  ChainMiddleware h mids = foldr (fun mid h => mid h) h mids
  /\ forall mid, ChainMiddleware h (mid :: mids) = mid (ChainMiddleware h mids).
Proof.
  assert (forall ms, ChainMiddleware h ms = foldr (fun mid h => mid h) h ms)
    as H.
  { intros ms. unfold ChainMiddleware.
    rewrite <- (app_nil_r ms) at 2. apply chainFrom_app. }
  split; [apply H|]. intros mid. now rewrite !H.
Qed.

Lemma wrapped_unfold (h : Handler) :
  wrapped h
  = LoggerMiddleware
      (AuthMiddleware "secret-token" (CORSMiddleware (RecoveryMiddleware h))).
Proof. reflexivity. Qed.

Lemma Error_response error code w :
  status w = None ->
  status (Error error code w) = Some code
  /\ body (Error error code w) = body w +:+ error +:+ LF
  /\ sent (Error error code w)
     = <["X-Content-Type-Options" := "nosniff"]>
         (<["Content-Type" := "text/plain; charset=utf-8"]>
            (delete "Content-Length" (header w))).
Proof.
  intros Hs. unfold Error, Write, WriteHeader, Set_, Del.
  cbn [status header sent body]. rewrite Hs. cbn [status header sent body].
  repeat split.
Qed.

(** X16.  The chain of [main] on a request without the right token: the answer
    is 401 with the text of [http.Error], the request is logged, and the
    handler inside the chain does not run, whatever it is.  The answer
    has none of the headers of [CORSMiddleware], which stands behind
    [AuthMiddleware] in the chain: so has the answer to an OPTIONS
    request. *)
Theorem unauthorized_is_rejected (h : Handler) (r : Request) (w : World) :
  Get (requestHeader r) "Authorization" <> "Bearer secret-token" ->
  status (response w) = None ->
  exists w',
    wrapped h r w = Done w'
    /\ status (response w') = Some StatusUnauthorized
    /\ body (response w') = body (response w) +:+ "Unauthorized" +:+ LF
    /\ sent (response w') !! "Access-Control-Allow-Origin"
       = header (response w) !! "Access-Control-Allow-Origin"
    /\ logs w' = logs w ++ [LogRequest (Method r) (Path r) (RemoteAddr r)].
Proof.
  intros Hauth Hs. rewrite wrapped_unfold.
  unfold LoggerMiddleware, AuthMiddleware.
  change ("Bearer " +:+ "secret-token") with "Bearer secret-token".
  destruct (String.eqb_spec (Get (requestHeader r) "Authorization")
              "Bearer secret-token") as [E|_]; [contradiction|].
  cbn [negb]. eexists. split; [reflexivity|].
  cbn [response logs logPrintf respond].
  destruct (Error_response "Unauthorized" StatusUnauthorized (response w) Hs)
    as (E1 & E2 & E3).
  rewrite E1, E2, E3. repeat split.
  rewrite !lookup_insert_ne by discriminate.
  now rewrite lookup_delete_ne by discriminate.
Qed.

(** What [CORSMiddleware] leaves in the header map. *)
Lemma cors_headers (w : ResponseWriter) :
  let hs :=
    header (Set_ "Access-Control-Allow-Headers" "Content-Type, Authorization"
              (Set_ "Access-Control-Allow-Methods" "GET, POST, PUT, DELETE"
                 (Set_ "Access-Control-Allow-Origin" "*" w))) in
  hs !! "Access-Control-Allow-Origin" = Some "*"
  /\ hs !! "Access-Control-Allow-Methods" = Some "GET, POST, PUT, DELETE"
  /\ hs !! "Access-Control-Allow-Headers" = Some "Content-Type, Authorization".
Proof.
  cbn [header Set_]. split; [|split].
  - now rewrite !lookup_insert_ne, lookup_insert_eq by discriminate.
  - now rewrite lookup_insert_ne, lookup_insert_eq by discriminate.
  - now rewrite lookup_insert_eq.
Qed.

(** X17.  The chain of [main] on a request with the right token.  An OPTIONS
    request is answered by [CORSMiddleware] with 200, the three headers and
    no body, and the handler does not run; any other request reaches the
    handler, with the three headers set: the handler of [main] answers 200
    and its greeting.  Either way the request is logged. *)
Theorem authorized_is_served (h : Handler) (r : Request) (w : World) :
  Get (requestHeader r) "Authorization" = "Bearer secret-token" ->
  status (response w) = None ->
  (Method r = "OPTIONS" ->
   exists w',
     wrapped h r w = Done w'
     /\ status (response w') = Some StatusOK
     /\ body (response w') = body (response w)
     /\ sent (response w') !! "Access-Control-Allow-Origin" = Some "*"
     /\ sent (response w') !! "Access-Control-Allow-Methods"
        = Some "GET, POST, PUT, DELETE"
     /\ sent (response w') !! "Access-Control-Allow-Headers"
        = Some "Content-Type, Authorization"
     /\ logs w' = logs w ++ [LogRequest (Method r) (Path r) (RemoteAddr r)])
  /\ (Method r <> "OPTIONS" ->
      exists w',
        wrappedHandler r w = Done w'
        /\ status (response w') = Some StatusOK
        /\ body (response w') = body (response w) +:+ "Hello, World!" +:+ LF
        /\ sent (response w') !! "Access-Control-Allow-Origin" = Some "*"
        /\ sent (response w') !! "Access-Control-Allow-Methods"
           = Some "GET, POST, PUT, DELETE"
        /\ sent (response w') !! "Access-Control-Allow-Headers"
           = Some "Content-Type, Authorization"
        /\ logs w' = logs w ++ [LogRequest (Method r) (Path r) (RemoteAddr r)]).
Proof.
  intros Hauth Hs.
  destruct (cors_headers (response w)) as (C1 & C2 & C3).
  split; intros Hm; unfold wrappedHandler; rewrite wrapped_unfold;
    unfold LoggerMiddleware, AuthMiddleware, CORSMiddleware;
    change ("Bearer " +:+ "secret-token") with "Bearer secret-token";
    rewrite Hauth; cbn [String.eqb Ascii.eqb Bool.eqb negb].
  - rewrite Hm. cbn [String.eqb Ascii.eqb Bool.eqb].
    eexists. split; [reflexivity|].
    cbn [response logs logPrintf respond]. unfold WriteHeader.
    cbn [status Set_ header sent body]. rewrite Hs.
    cbn [status header sent body]. repeat split; assumption.
  - destruct (String.eqb_spec (Method r) "OPTIONS") as [E|_]; [contradiction|].
    unfold RecoveryMiddleware, handler. eexists. split; [reflexivity|].
    cbn [response logs logPrintf respond]. unfold Write, WriteHeader.
    cbn [status Set_ header sent body]. rewrite Hs.
    cbn [status header sent body]. repeat split; assumption.
Qed.

(** X18.  No panic leaves the chain of [main]: whatever the handler inside does,
    the chain returns.  A handler that panics before it has written
    anything is answered for with 500 and the text of [http.Error]; the
    panic and the request are logged. *)
Theorem chain_recovers (h : Handler) (r : Request) (w : World) :
  (exists w', wrapped h r w = Done w')
  /\ (forall wc err w1,
        Get (requestHeader r) "Authorization" = "Bearer secret-token" ->
        Method r <> "OPTIONS" ->
        wc = respond (Set_ "Access-Control-Allow-Headers"
                           "Content-Type, Authorization")
               (respond (Set_ "Access-Control-Allow-Methods"
                              "GET, POST, PUT, DELETE")
                  (respond (Set_ "Access-Control-Allow-Origin" "*") w)) ->
        h r wc = Panicked err w1 ->
        status (response w1) = None ->
        exists w',
          wrapped h r w = Done w'
          /\ status (response w') = Some StatusInternalServerError
          /\ body (response w')
             = body (response w1) +:+ "Internal Server Error" +:+ LF
          /\ logs w'
             = logs w1 ++ [LogPanic err;
                           LogRequest (Method r) (Path r) (RemoteAddr r)]).
Proof.
  split.
  - rewrite wrapped_unfold.
    unfold LoggerMiddleware, AuthMiddleware, CORSMiddleware,
      RecoveryMiddleware.
    destruct (negb _); [eauto|].
    destruct (String.eqb (Method r) "OPTIONS"); [eauto|].
    destruct (h r _); eauto.
  - intros wc err w1 Hauth Hm -> Hp Hs. rewrite wrapped_unfold.
    unfold LoggerMiddleware, AuthMiddleware, CORSMiddleware,
      RecoveryMiddleware.
    change ("Bearer " +:+ "secret-token") with "Bearer secret-token".
    rewrite Hauth. cbn [String.eqb Ascii.eqb Bool.eqb negb].
    destruct (String.eqb_spec (Method r) "OPTIONS") as [E|_]; [contradiction|].
    rewrite Hp. eexists. split; [reflexivity|].
    cbn [response logs logPrintf respond].
    destruct (Error_response "Internal Server Error" StatusInternalServerError
                (response w1) Hs) as (E1 & E2 & _).
    rewrite E1, E2. repeat split. now rewrite <- app_assoc.
Qed.

End Middleware.

(** ** The hub of the guide *)

Section Hub.
Import NetworkingGuide.WebSocketHub.

Lemma hasRoom_true s c ch :
  send s !! c = Some ch -> length (queue ch) < sendCap -> hasRoom s c = true.
Proof.
  intros E H. unfold hasRoom, queued. rewrite E. now apply bool_decide_eq_true.
Qed.

Lemma hasRoom_false s c ch :
  send s !! c = Some ch -> ~ length (queue ch) < sendCap ->
  hasRoom s c = false.
Proof.
  intros E H. unfold hasRoom, queued. rewrite E. now apply bool_decide_eq_false.
Qed.

Lemma hub_broadcast_fold message s (m : gmap Client bool) :
  registryInv s ->
  (forall c, is_Some (m !! c) -> is_Some (clients s !! c)) ->
  exists s' : State,
    map_fold (fun client _ acc => acc ≫= offer message client) (Some s) m
    = Some s'
    /\ (forall c, clients s' !! c =
          if decide (is_Some (m !! c))
          then (if hasRoom s c then clients s !! c else None)
          else clients s !! c)
    /\ (forall c, send s' !! c =
          if decide (is_Some (m !! c))
          then offered message <$> send s !! c
          else send s !! c)
    /\ writers s' = writers s /\ written s' = written s.
Proof.
  intros Hinv.
  pose (P := fun (r : option State) (m : gmap Client bool) =>
    (forall c, is_Some (m !! c) -> is_Some (clients s !! c)) ->
    exists s' : State, r = Some s'
    /\ (forall c, clients s' !! c =
          if decide (is_Some (m !! c))
          then (if hasRoom s c then clients s !! c else None)
          else clients s !! c)
    /\ (forall c, send s' !! c =
          if decide (is_Some (m !! c))
          then offered message <$> send s !! c
          else send s !! c)
    /\ writers s' = writers s /\ written s' = written s).
  apply (map_fold_weak_ind P); unfold P; clear P m.
  - intros _. exists s. split; [reflexivity|].
    split; [|split; [|split; reflexivity]]; intros c;
      rewrite lookup_empty; rewrite decide_False; auto using is_Some_None.
  - intros i x m r Hi IH Hsub.
    destruct IH as (s1 & -> & C1 & S1 & W1 & W2).
    { intros c Hc. apply Hsub. destruct (decide (c = i)) as [->|Hne].
      - rewrite Hi in Hc. now apply is_Some_None in Hc.
      - now rewrite lookup_insert_ne. }
    destruct (Hinv i) as (ch & Hch & Hopen).
    { apply Hsub. rewrite lookup_insert_eq. eauto. }
    cbn [mbind option_bind]. unfold offer.
    assert (send s1 !! i = Some ch) as Es1.
    { rewrite S1. rewrite decide_False; [assumption|].
      rewrite Hi. apply is_Some_None. }
    rewrite Es1, Hopen.
    destruct (decide (length (queue ch) < sendCap)) as [Hroom|Hfull].
    + eexists. split; [reflexivity|]. cbn [clients send writers written].
      split; [|split; [|split; assumption]]; intros c;
        destruct (decide (c = i)) as [->|Hne].
      * rewrite decide_True by (rewrite lookup_insert_eq; eauto).
        rewrite (hasRoom_true s i ch) by assumption.
        rewrite C1, decide_False; [reflexivity|].
        rewrite Hi. apply is_Some_None.
      * rewrite C1, lookup_insert_ne by congruence. reflexivity.
      * rewrite lookup_insert_eq.
        rewrite decide_True by (rewrite lookup_insert_eq; eauto).
        rewrite Hch. cbn. unfold offered. now rewrite decide_True.
      * rewrite !lookup_insert_ne by congruence. apply S1.
    + unfold closeSend. rewrite Es1, Hopen. cbn [mbind option_bind].
      eexists. split; [reflexivity|].
      cbn [clients send writers written deleteClient].
      split; [|split; [|split; assumption]]; intros c;
        destruct (decide (c = i)) as [->|Hne].
      * rewrite lookup_delete_eq.
        rewrite decide_True by (rewrite lookup_insert_eq; eauto).
        now rewrite (hasRoom_false s i ch).
      * rewrite lookup_delete_ne, C1, lookup_insert_ne by congruence.
        reflexivity.
      * rewrite lookup_insert_eq.
        rewrite decide_True by (rewrite lookup_insert_eq; eauto).
        rewrite Hch. cbn. unfold offered. now rewrite decide_False.
      * rewrite !lookup_insert_ne by congruence. apply S1.
Qed.

(** A broadcast on a hub that keeps [registryInv]: it does not panic;
    every client of the registry with room gets the message, and every
    other one is closed and deleted. *)
Lemma hub_broadcast_spec message s :
  registryInv s ->
  exists s' : State,
    broadcast message s = Some s'
    /\ (forall c, clients s' !! c =
          if hasRoom s c then clients s !! c else None)
    /\ (forall c, send s' !! c =
          if decide (is_Some (clients s !! c))
          then offered message <$> send s !! c
          else send s !! c)
    /\ writers s' = writers s /\ written s' = written s.
Proof.
  intros Hinv. unfold broadcast.
  destruct (hub_broadcast_fold message s (clients s) Hinv)
    as (s' & E & C & S & W); [auto|].
  exists s'. split; [exact E|]. split; [|split; [exact S | exact W]].
  intros c. rewrite C. destruct (decide (is_Some (clients s !! c))) as [Hs|Hn];
    [reflexivity|].
  apply eq_None_not_Some in Hn. rewrite Hn. now destruct (hasRoom s c).
Qed.

Lemma hub_fresh_client s : send s !! fresh (dom (send s)) = None.
Proof. apply not_elem_of_dom, is_fresh. Qed.

(** No case of [Run] and no goroutine of a client panics on a hub that
    keeps [registryInv], and each of them keeps it. *)
Lemma hub_step_registryInv e s :
  registryInv s -> exists s', step e s = Some s' /\ registryInv s'.
Proof.
  intros Hinv. destruct e as [|c|message|c ok]; cbn [step].
  - eexists. split; [reflexivity|]. intros c Hc.
    unfold HandleWebSocket in *. cbn [clients send register] in *.
    destruct (decide (c = fresh (dom (send s)))) as [->|Hne].
    + rewrite lookup_insert_eq. eauto.
    + rewrite lookup_insert_ne in Hc by congruence.
      rewrite lookup_insert_ne by congruence. auto.
  - unfold unregister. destruct (clients s !! c) as [b|] eqn:Ec; [|eauto].
    destruct (Hinv c) as (ch & Hch & Hopen); [eauto|].
    unfold closeSend. cbn [deleteClient send]. rewrite Hch, Hopen.
    eexists. split; [reflexivity|]. intros c' Hc'.
    cbn [clients send deleteClient] in *.
    destruct (decide (c' = c)) as [->|Hne].
    + rewrite lookup_delete_eq in Hc'. now apply is_Some_None in Hc'.
    + rewrite lookup_delete_ne in Hc' by congruence.
      rewrite lookup_insert_ne by congruence. auto.
  - destruct (hub_broadcast_spec message s Hinv) as (s' & E & C & S & _).
    exists s'. split; [exact E|]. intros c Hc. rewrite C in Hc.
    destruct (hasRoom s c) eqn:Er; [|now apply is_Some_None in Hc].
    destruct (Hinv c Hc) as (ch & Hch & Hopen).
    rewrite S, decide_True, Hch by assumption. cbn.
    eexists. split; [reflexivity|]. unfold offered.
    unfold hasRoom, queued in Er. rewrite Hch in Er.
    apply bool_decide_eq_true in Er. now rewrite decide_True.
  - eexists. split; [reflexivity|]. intros c' Hc'. unfold writeMessage in *.
    destruct (decide (c ∈ writers s)); [|auto].
    destruct (send s !! c) as [ch|] eqn:Ech; [|auto].
    destruct (queue ch) as [|m rest] eqn:Eq.
    + destruct (closed ch); cbn [clients send] in *; auto.
    + assert (is_Some (clients s !! c')) as Hreg
        by (destruct ok; exact Hc').
      destruct (Hinv c' Hreg) as (ch' & Hch' & Hopen').
      assert ((<[c := mkChan rest (closed ch)]> (send s)) !! c'
              = Some (if decide (c' = c) then mkChan rest (closed ch) else ch')
              /\ closed (if decide (c' = c) then mkChan rest (closed ch)
                         else ch') = false) as [E1 E2].
      { destruct (decide (c' = c)) as [->|Hne].
        - rewrite lookup_insert_eq. split; [reflexivity|]. cbn.
          rewrite Ech in Hch'. now injection Hch' as <-.
        - rewrite lookup_insert_ne by congruence. auto. }
      destruct ok; cbn [send]; eauto.
Qed.

Lemma hub_run_registryInv es : forall s,
  registryInv s -> exists s', run es s = Some s' /\ registryInv s'.
Proof.
  induction es as [|e es IH]; intros s Hinv; cbn [run]; [eauto|].
  destruct (hub_step_registryInv e s Hinv) as (s1 & -> & Hinv1).
  cbn [mbind option_bind]. now apply IH.
Qed.

Lemma NewHub_registryInv : registryInv NewHub.
Proof.
  intros c Hc. cbn in Hc. rewrite lookup_empty in Hc.
  now apply is_Some_None in Hc.
Qed.

(** X19.  The hub never panics: whatever clients connect, fail and broadcast, in
    whatever order, [Run] does not close a channel twice and does not send
    on a closed channel, because a client of [h.clients] has an open
    channel at every moment. *)
Theorem hub_never_panics (es : list Event) :
  exists s,
    run es NewHub = Some s
    /\ forall client, is_Some (clients s !! client) ->
         exists ch, send s !! client = Some ch /\ closed ch = false.
Proof. apply hub_run_registryInv, NewHub_registryInv. Qed.

(** X20.  A client that does not keep up is dropped: a broadcast that finds
    [client.send] full closes the channel and deletes the client from the
    registry; what was queued stays for the writer, the message is not
    queued.  The clients with room get the message and stay. *)
Theorem broadcast_drops_slow_client (s : State) (message : string)
    (client : Client) :
  registryInv s ->
  is_Some (clients s !! client) ->
  sendCap <= length (queued s client) ->
  exists s',
    step (Broadcast message) s = Some s'
    /\ clients s' !! client = None
    /\ send s' !! client = Some (mkChan (queued s client) true)
    /\ (forall c, is_Some (clients s !! c) ->
          length (queued s c) < sendCap ->
          clients s' !! c = clients s !! c
          /\ send s' !! c = Some (mkChan (queued s c ++ [message]) false)).
Proof.
  intros Hinv Hreg Hfull. cbn [step].
  destruct (hub_broadcast_spec message s Hinv) as (s' & E & C & S & _).
  exists s'. split; [exact E|].
  destruct (Hinv client Hreg) as (ch & Hch & Hopen).
  assert (queued s client = queue ch) as Eq by (unfold queued; now rewrite Hch).
  rewrite Eq in *.
  split; [|split].
  - rewrite C, (hasRoom_false s client ch); [reflexivity | assumption | lia].
  - rewrite S, decide_True, Hch by assumption. cbn. unfold offered.
    now rewrite decide_False by lia.
  - intros c Hc Hroom. destruct (Hinv c Hc) as (ch' & Hch' & Hopen').
    assert (queued s c = queue ch') as Eq'
      by (unfold queued; now rewrite Hch').
    rewrite Eq' in *.
    split.
    + rewrite C, (hasRoom_true s c ch'); [reflexivity | assumption | lia].
    + rewrite S, decide_True, Hch' by assumption. cbn. unfold offered.
      now rewrite decide_True by lia.
Qed.

(** X21.  The reader and the writer of a client can both report its failure:
    the first [unregister] deletes the client and closes its channel, the
    second finds the client gone and leaves everything as it is.  The same
    holds for a client that a broadcast has dropped. *)
Theorem unregister_twice (s : State) (client : Client) :
  registryInv s ->
  exists s',
    step (Unregister client) s = Some s'
    /\ step (Unregister client) s' = Some s'
    /\ clients s' = delete client (clients s)
    /\ (forall c, queued s' c = queued s c)
    /\ (is_Some (clients s !! client) ->
        exists ch, send s' !! client = Some ch /\ closed ch = true).
Proof.
  intros Hinv. cbn [step]. unfold unregister.
  destruct (clients s !! client) as [b|] eqn:Ec.
  - destruct (Hinv client) as (ch & Hch & Hopen); [eauto|].
    unfold closeSend. cbn [deleteClient send]. rewrite Hch, Hopen.
    eexists. split; [reflexivity|]. cbn [clients send deleteClient].
    rewrite lookup_delete_eq. split; [reflexivity|]. split; [reflexivity|].
    split.
    + intros c. unfold queued. cbn [send].
      destruct (decide (c = client)) as [->|Hne].
      * now rewrite lookup_insert_eq, Hch.
      * now rewrite lookup_insert_ne by congruence.
    + intros _. rewrite lookup_insert_eq. eauto.
  - exists s. rewrite Ec. split; [reflexivity|]. split; [reflexivity|].
    split; [|split; [reflexivity|]].
    + symmetry. now apply delete_id.
    + intros H. now apply is_Some_None in H.
Qed.

Lemma hub_step_send e s s' c :
  registryInv s -> step e s = Some s' ->
  is_Some (send s !! c) -> is_Some (send s' !! c).
Proof.
  intros Hinv He Hc. destruct e as [|c'|message|c' ok]; cbn [step] in He.
  - injection He as <-. unfold HandleWebSocket. cbn [send register].
    destruct (decide (c = fresh (dom (send s)))) as [->|Hne].
    + rewrite lookup_insert_eq. eauto.
    + now rewrite lookup_insert_ne by congruence.
  - unfold unregister in He. destruct (clients s !! c'); [|congruence].
    unfold closeSend in He. cbn [deleteClient send] in He.
    destruct (send s !! c') as [ch|]; [|discriminate].
    destruct (closed ch); [discriminate|]. injection He as <-. cbn [send].
    destruct (decide (c = c')) as [->|Hne].
    + rewrite lookup_insert_eq. eauto.
    + now rewrite lookup_insert_ne by congruence.
  - destruct (hub_broadcast_spec message s Hinv) as (s1 & E & _ & S & _).
    rewrite E in He. injection He as <-. rewrite S.
    destruct (decide _); [|assumption]. destruct Hc as [ch ->]. cbn. eauto.
  - injection He as <-. unfold writeMessage.
    destruct (decide (c' ∈ writers s)); [|assumption].
    destruct (send s !! c') as [ch|] eqn:Ech; [|assumption].
    destruct (queue ch) as [|m rest].
    + destruct (closed ch); assumption.
    + destruct (decide (c = c')) as [->|Hne].
      * destruct ok; cbn [send]; rewrite lookup_insert_eq; eauto.
      * destruct ok; cbn [send]; now rewrite lookup_insert_ne by congruence.
Qed.

(** A client that has been deleted from the registry is not registered
    again: [HandleWebSocket] makes a new client every time. *)
Lemma hub_unregistered_stays e s s' c :
  registryInv s -> step e s = Some s' ->
  is_Some (send s !! c) -> clients s !! c = None -> clients s' !! c = None.
Proof.
  intros Hinv He Hc Hn. destruct e as [|c'|message|c' ok]; cbn [step] in He.
  - injection He as <-. unfold HandleWebSocket. cbn [clients register].
    rewrite lookup_insert_ne; [assumption|].
    intros <-. rewrite hub_fresh_client in Hc. now apply is_Some_None in Hc.
  - unfold unregister in He. destruct (clients s !! c'); [|congruence].
    unfold closeSend in He. cbn [deleteClient send] in He.
    destruct (send s !! c') as [ch|]; [|discriminate].
    destruct (closed ch); [discriminate|]. injection He as <-. cbn [clients].
    destruct (decide (c = c')) as [->|Hne].
    + apply lookup_delete_eq.
    + now rewrite lookup_delete_ne by congruence.
  - destruct (hub_broadcast_spec message s Hinv) as (s1 & E & C & _).
    rewrite E in He. injection He as <-. rewrite C, Hn.
    now destruct (hasRoom s c).
  - injection He as <-. unfold writeMessage.
    destruct (decide (c' ∈ writers s)); [|assumption].
    destruct (send s !! c') as [ch|]; [|assumption].
    destruct (queue ch) as [|m rest].
    + destruct (closed ch); assumption.
    + destruct ok; assumption.
Qed.

Lemma hub_run_unregistered_stays es : forall s s' c,
  registryInv s -> run es s = Some s' ->
  is_Some (send s !! c) -> clients s !! c = None -> clients s' !! c = None.
Proof.
  induction es as [|e es IH]; intros s s' c Hinv Hrun Hc Hn; cbn [run] in Hrun.
  - now injection Hrun as <-.
  - destruct (hub_step_registryInv e s Hinv) as (s1 & E1 & Hinv1).
    rewrite E1 in Hrun. cbn [mbind option_bind] in Hrun.
    apply (IH s1 s' c Hinv1 Hrun).
    + exact (hub_step_send e s s1 c Hinv E1 Hc).
    + exact (hub_unregistered_stays e s s1 c Hinv E1 Hc Hn).
Qed.

Lemma hub_step_fifo e s s' c :
  registryInv s -> step e s = Some s' ->
  is_Some (clients s' !! c) -> e <> Writes c false ->
  received (written s') c ++ queued s' c
  = received (written s) c ++ queued s c ++ broadcasts [e].
Proof.
  intros Hinv He Hreg Hok. destruct e as [|c'|message|c' ok];
    cbn [step broadcasts] in *; rewrite ?app_nil_r.
  - injection He as <-. unfold HandleWebSocket, queued.
    cbn [written send register].
    destruct (decide (c = fresh (dom (send s)))) as [->|Hne].
    + now rewrite lookup_insert_eq, hub_fresh_client.
    + now rewrite lookup_insert_ne by congruence.
  - unfold unregister in He. destruct (clients s !! c') eqn:Ec';
      [|now injection He as <-].
    unfold closeSend in He. cbn [deleteClient send] in He.
    destruct (send s !! c') as [ch|] eqn:Ech; [|discriminate].
    destruct (closed ch); [discriminate|]. injection He as <-.
    cbn [clients] in Hreg. unfold queued. cbn [written send].
    destruct (decide (c = c')) as [->|Hne].
    + rewrite lookup_delete_eq in Hreg. now apply is_Some_None in Hreg.
    + now rewrite lookup_insert_ne by congruence.
  - destruct (hub_broadcast_spec message s Hinv) as (s1 & E & C & S & _ & W).
    rewrite E in He. injection He as <-. rewrite C in Hreg.
    destruct (hasRoom s c) eqn:Er; [|now apply is_Some_None in Hreg].
    destruct (Hinv c Hreg) as (ch & Hch & Hopen).
    unfold queued. rewrite S, decide_True, Hch, W by assumption. cbn.
    unfold hasRoom, queued in Er. rewrite Hch in Er.
    apply bool_decide_eq_true in Er. unfold offered.
    now rewrite decide_True.
  - injection He as <-. unfold writeMessage in *.
    destruct (decide (c' ∈ writers s)); [|reflexivity].
    destruct (send s !! c') as [ch|] eqn:Ech; [|reflexivity].
    destruct (queue ch) as [|m rest] eqn:Eq.
    + destruct (closed ch); reflexivity.
    + destruct (decide (c = c')) as [->|Hne].
      * destruct ok; [|congruence]. unfold queued, received.
        cbn [written send]. rewrite !lookup_insert_eq, Ech, Eq. cbn.
        now rewrite <- app_assoc.
      * unfold queued, received.
        destruct ok; cbn [written send];
          now rewrite ?lookup_insert_ne by congruence.
Qed.

(** X22.  A client that is still in the registry has been served in order and
    without a gap: what has been written to its socket, followed by what
    waits in [client.send], is what it had before followed by every message
    broadcast since, in the order of the broadcasts (as long as no write to
    its socket has failed). *)
Theorem hub_delivers_in_order (es : list Event) : forall (s s' : State)
    (client : Client),
  registryInv s -> run es s = Some s' ->
  is_Some (send s !! client) ->
  is_Some (clients s' !! client) ->
  Forall (fun e => e <> Writes client false) es ->
  received (written s') client ++ queued s' client
  = received (written s) client ++ queued s client ++ broadcasts es.
Proof.
  induction es as [|e es IH]; intros s s' c Hinv Hrun Hc Hreg Hok;
    cbn [run] in Hrun.
  - injection Hrun as <-. cbn. now rewrite app_nil_r.
  - destruct (hub_step_registryInv e s Hinv) as (s1 & E1 & Hinv1).
    rewrite E1 in Hrun. cbn [mbind option_bind] in Hrun.
    inversion Hok as [|? ? Hok1 Hok2]; subst.
    assert (is_Some (send s1 !! c)) as Hc1
      by exact (hub_step_send e s s1 c Hinv E1 Hc).
    destruct (clients s1 !! c) as [b|] eqn:Ereg.
    + rewrite (IH s1 s' c Hinv1 Hrun Hc1 Hreg Hok2).
      rewrite (app_assoc (received (written s1) c)).
      rewrite (hub_step_fifo e s s1 c Hinv E1) by (rewrite ?Ereg; eauto).
      rewrite <- !app_assoc. do 2 f_equal.
      destruct e; reflexivity.
    + rewrite (hub_run_unregistered_stays es s1 s' c Hinv1 Hrun Hc1 Ereg)
        in Hreg.
      now apply is_Some_None in Hreg.
Qed.

End Hub.

(** ** The connection pool of the guide *)

Section ConnectionPool.
Import NetworkingGuide.ConnPool.

Lemma wrap_small z : (- 2 ^ 63 <= z < 2 ^ 63)%Z -> wrap z = z.
Proof.
  intros H. unfold wrap. rewrite Z.mod_small by lia. lia.
Qed.

Lemma drain_drop conns : forall i,
  drain i conns = skipn (Nat.div2 (S (length conns - i))) conns.
Proof.
  induction conns as [|c conns IH]; intros i; [reflexivity|].
  cbn [drain]. destruct (decide (i < length (c :: conns))) as [Hlt|Hge].
  - rewrite IH. cbn [length] in *.
    destruct (decide (i = length conns)) as [->|Hne].
    + replace (length conns - S (length conns)) with 0 by lia.
      replace (S (length conns) - length conns) with 1 by lia. reflexivity.
    + replace (S (length conns) - i) with (S (S (length conns - S i))) by lia.
      reflexivity.
  - cbn [length] in *. replace (S (length conns) - i) with 0 by lia.
    reflexivity.
Qed.

(** X23.  [Close] takes only the older half of the idle connections out of the
    pool, and closes none. *)
Theorem Close_drains_half (p : Pool) :
  conns (Close p) = skipn (Nat.div2 (S (length (conns p)))) (conns p)
  /\ length (conns (Close p)) = Nat.div2 (length (conns p))
  /\ closedConns (Close p) = closedConns p
  /\ openConn (Close p) = openConn p.
Proof.
  unfold Close. cbn [conns closedConns openConn].
  rewrite drain_drop, Nat.sub_0_r. split; [reflexivity|].
  split; [|split; reflexivity].
  rewrite length_skipn, !Nat.div2_div.
  pose proof (Nat.div_mod_eq (length (conns p)) 2).
  pose proof (Nat.div_mod_eq (S (length (conns p))) 2).
  pose proof (Nat.mod_upper_bound (length (conns p)) 2).
  pose proof (Nat.mod_upper_bound (S (length (conns p))) 2).
  lia.
Qed.

Lemma drain_length i conns : length (drain i conns) <= length conns.
Proof. rewrite drain_drop, length_skipn. apply Nat.le_sub_l. Qed.

Lemma pool_apply_bounds p op :
  (- 2 ^ 63 < openConn p <= maxOpen p)%Z -> (maxOpen p < 2 ^ 63)%Z ->
  length (conns p) <= maxIdle p ->
  (openConn p - 1 <= openConn (apply p op) <= maxOpen p)%Z
  /\ maxOpen (apply p op) = maxOpen p
  /\ maxIdle (apply p op) = maxIdle p
  /\ length (conns (apply p op)) <= maxIdle p.
Proof.
  intros Ho Hm Hi. destruct op as [dial|conn|]; cbn [apply].
  - unfold Get. destruct (conns p) as [|c rest] eqn:Ec.
    + destruct (Z.leb_spec (maxOpen p) (openConn p)) as [Hle|Hlt];
        cbn [snd]; [rewrite Ec; cbn [length]; lia|].
      destruct dial; cbn [snd openConn maxOpen maxIdle conns length];
        rewrite wrap_small by lia; lia.
    + cbn [snd openConn maxOpen maxIdle conns length] in *. lia.
  - unfold Put. destruct (decide (length (conns p) < maxIdle p)) as [Hr|Hf];
      cbn [openConn maxOpen maxIdle conns].
    + rewrite length_app. cbn [length]. lia.
    + rewrite wrap_small by lia. lia.
  - unfold Close. cbn [openConn maxOpen maxIdle conns].
    pose proof (drain_length 0 (conns p)). lia.
Qed.

Lemma pool_run_bounds ops : forall p,
  (- 2 ^ 63 + Z.of_nat (length ops) < openConn p <= maxOpen p)%Z ->
  (maxOpen p < 2 ^ 63)%Z ->
  length (conns p) <= maxIdle p ->
  (openConn (run ops p) <= maxOpen p)%Z
  /\ length (conns (run ops p)) <= maxIdle p.
Proof.
  induction ops as [|op ops IH]; intros p Ho Hm Hi; cbn [run foldl length] in *.
  - split; [lia | assumption].
  - destruct (pool_apply_bounds p op) as (B1 & B2 & B3 & B4);
      [lia | lia | lia|].
    destruct (IH (apply p op)) as [I1 I2]; [lia | lia | lia|].
    fold (run ops (apply p op)). rewrite B2, B3 in *. split; assumption.
Qed.

(** X24.  The pool keeps its two limits: over any sequence of [Get], [Put] and
    [Close] on a new pool the counter of open connections stays at or below
    [maxOpen], and the idle connections at or below [maxIdle]. *)
Theorem pool_limits (ops : list Op) (idle : nat) (limit : Z) :
  (0 <= limit < 2 ^ 63)%Z ->
  (Z.of_nat (length ops) < 2 ^ 63)%Z ->
  (openConn (run ops (NewPool idle limit)) <= limit)%Z
  /\ length (conns (run ops (NewPool idle limit))) <= idle.
Proof.
  intros Hl Hn.
  apply (pool_run_bounds ops (NewPool idle limit));
    cbn [NewPool openConn maxOpen conns maxIdle length]; lia.
Qed.

Lemma failed_dials_count errs : forall p,
  conns p = [] ->
  (0 <= openConn p)%Z ->
  (openConn p + Z.of_nat (length errs) <= maxOpen p)%Z ->
  (maxOpen p < 2 ^ 63)%Z ->
  run (map (fun err => OpGet (DialFailed err)) errs) p
  = mkPool [] (maxIdle p) (maxOpen p) (openConn p + Z.of_nat (length errs))
           (closedConns p).
Proof.
  induction errs as [|err errs IH]; intros p Hc Ho Hn Hm;
    cbn [map run foldl length] in *.
  - rewrite Z.add_0_r. destruct p; cbn in *. now subst.
  - fold (run (map (fun err => OpGet (DialFailed err)) errs)
              (apply p (OpGet (DialFailed err)))).
    assert (apply p (OpGet (DialFailed err))
            = mkPool [] (maxIdle p) (maxOpen p) (openConn p + 1)
                     (closedConns p)) as ->.
    { cbn [apply]. unfold Get. rewrite Hc.
      destruct (Z.leb_spec (maxOpen p) (openConn p)) as [Hle|Hlt]; [lia|].
      cbn [snd]. now rewrite wrap_small by lia. }
    rewrite IH; cbn [conns openConn maxOpen maxIdle closedConns]; try lia;
      [|reflexivity].
    f_equal. lia.
Qed.

(** X25.  A dial that fails costs a place for good: [Get] counts the connection
    before it calls the factory and does not take the count back.  After
    [maxOpen] failed dials a new pool holds no connection, and every [Get]
    is refused. *)
Theorem failed_dials_exhaust (errs : list error) (idle : nat) (limit : Z)
    (dial : Dial) :
  (limit < 2 ^ 63)%Z ->
  Z.of_nat (length errs) = limit ->
  conns (run (map (fun err => OpGet (DialFailed err)) errs)
             (NewPool idle limit)) = []
  /\ closedConns (run (map (fun err => OpGet (DialFailed err)) errs)
                      (NewPool idle limit)) = ∅
  /\ Get dial (run (map (fun err => OpGet (DialFailed err)) errs)
                   (NewPool idle limit))
     = (LimitReached,
        run (map (fun err => OpGet (DialFailed err)) errs)
            (NewPool idle limit)).
Proof.
  intros Hl Hn.
  rewrite failed_dials_count;
    cbn [NewPool conns openConn maxOpen maxIdle closedConns]; try lia;
    [|reflexivity].
  split; [reflexivity|]. split; [reflexivity|].
  unfold Get. cbn [conns maxOpen openConn].
  destruct (Z.leb_spec limit (0 + Z.of_nat (length errs))) as [Hle|Hlt];
    [reflexivity | lia].
Qed.

(** X26.  [Put] and then [Get]: a pool with room hands out its oldest idle
    connection, which is the one just put when no other is idle (the pool
    is then as before); a pool without room, one with [maxIdle] 0 always,
    closes what it is given and keeps its idle connections. *)
Theorem Put_then_Get (p : Pool) (conn : Conn) (dial : Dial) :
  (length (conns p) < maxIdle p ->
   (Get dial (Put conn p)).1 = Got (hd conn (conns p))
   /\ conns (Get dial (Put conn p)).2 = tl (conns p ++ [conn])
   /\ closedConns (Get dial (Put conn p)).2 = closedConns p
   /\ openConn (Get dial (Put conn p)).2 = openConn p
   /\ (conns p = [] -> Get dial (Put conn p) = (Got conn, p)))
  /\ (maxIdle p <= length (conns p) ->
      conn ∈ closedConns (Put conn p) /\ conns (Put conn p) = conns p).
Proof.
  split.
  - intros Hr. unfold Put. rewrite decide_True by assumption.
    unfold Get. cbn [conns maxIdle maxOpen openConn closedConns].
    destruct (conns p) as [|c rest] eqn:Ec;
      cbn [app hd tl fst snd conns closedConns openConn].
    + repeat split. intros _. destruct p; cbn in *. now subst.
    + repeat split. discriminate.
  - intros Hf. unfold Put. rewrite decide_False by lia.
    cbn [conns closedConns]. split; [|reflexivity].
    apply elem_of_union_l, elem_of_singleton. reflexivity.
Qed.

End ConnectionPool.

(** ** Scenarios of the further properties *)

Section ChatScenarios.

Lemma sendChan_never_overflows_witness :
  length ["alice 加入聊天室" +:+ LF; "bob 加入聊天室" +:+ LF]
  <= NetworkingGuide.TCPServer.sendChanCap.
Proof.
  exact (sendChan_never_overflows _ ":8080" "alice" _ joined_alice).
Defined.

(** alice gets "one" and "two" behind the two announcements; her writer
    has received the first of the four between the two broadcasts. *)
Lemma broadcast_keeps_order_witness :
  exists c',
    GuideTCP.clients
      (GuideTCP.deliver "alice"
         [GuideTCP.Offer "one"; GuideTCP.Take; GuideTCP.Offer "two"]
         Scenarios.Guide.joined).2 !! "alice" = Some c'
    /\ (GuideTCP.deliver "alice"
          [GuideTCP.Offer "one"; GuideTCP.Take; GuideTCP.Offer "two"]
          Scenarios.Guide.joined).1 = ["alice 加入聊天室" +:+ LF]
    /\ GuideTCP.sendChan c' = ["bob 加入聊天室" +:+ LF; "one"; "two"].
Proof.
  destruct (broadcast_keeps_order Scenarios.Guide.joined
              [GuideTCP.Offer "one"; GuideTCP.Take; GuideTCP.Offer "two"]
              "alice" _ joined_alice)
    as ((c' & E & _ & _ & H) & _ & Hroom & _).
  exists c'. split; [exact E|].
  rewrite Hroom in H by (vm_compute; lia).
  assert ((GuideTCP.deliver "alice"
             [GuideTCP.Offer "one"; GuideTCP.Take; GuideTCP.Offer "two"]
             Scenarios.Guide.joined).1 = ["alice 加入聊天室" +:+ LF]) as Eg
    by (vm_compute; reflexivity).
  split; [exact Eg|]. rewrite Eg in H. cbn in H. now injection H.
Defined.

Lemma read_error_leaves_witness :
  GuideTCP.clients
    (GuideTCP.readMessages 1 (ReadFailed "") Scenarios.Guide.joined)
    !! "alice" = None
  /\ GuideTCP.closedConns
       (GuideTCP.readMessages 1 (ReadFailed "") Scenarios.Guide.joined)
     = GuideTCP.closedConns Scenarios.Guide.joined.
Proof.
  destruct (read_error_leaves Scenarios.Guide.joined 1 "alice" ""
              joined_reader) as (H1 & _ & _ & H4).
  split; assumption.
Defined.


Lemma chat_registry_stays_frozen_witness :
  exists s',
    ChatTCP.run [ChatTCP.Scan 1 (Line "/quit")] Scenarios.Chat.queued = Some s'
    /\ ChatTCP.clients s' = ChatTCP.clients Scenarios.Chat.queued
    /\ ChatTCP.handleChatClient_lock 1 s' = None.
Proof.
  assert (exists s',
    ChatTCP.run [ChatTCP.Scan 1 (Line "/quit")] Scenarios.Chat.queued = Some s')
    as (s' & E) by (vm_compute; eauto).
  exists s'. split; [exact E|].
  destruct (chat_registry_stays_frozen _ Scenarios.Chat.queued s'
              ltac:(vm_compute; lia) E) as (H1 & _ & H3).
  split; [exact H1 | apply H3].
Defined.

End ChatScenarios.

Section LineWitnesses.
Import NetworkTcp NetworkTcp.TCPServer Scenarios.Echo Scenarios.Main.

Lemma serving_handles : 1 ∈ handling serving.
Proof. vm_compute. reflexivity. Qed.

Lemma serving_open : 1 ∉ closedConns serving.
Proof. vm_compute. discriminate. Qed.

Lemma handler_answers_in_order_witness :
  received
    (outbox (foldl (fun s nl => handleConnection nl.1 1 (Line nl.2) s) serving
                   [(noon, "ping"); (noon, "quit")])) 1
  = ["pong" +:+ LF; "BYE" +:+ LF]
  /\ handling (foldl (fun s nl => handleConnection nl.1 1 (Line nl.2) s)
                     serving [(noon, "ping"); (noon, "quit")])
     = handling serving.
Proof.
  destruct (handler_answers_in_order [(noon, "ping"); (noon, "quit")] 1
              serving serving_handles serving_open) as (H1 & _ & H3 & _).
  split; [rewrite H1; reflexivity | exact H3].
Defined.

Lemma waitgroup_counts_handlers_witness :
  wg (run schedule Blocked
        (Start (inl 0) [] (NewTCPServer ":8080")).2).2 = 1%Z.
Proof.
  destruct (waitgroup_counts_handlers schedule 0 ":8080") as (H & _).
  - unfold schedule. cbn [accepted]. apply NoDup_cons.
    split; [|apply NoDup_singleton].
    rewrite list_elem_of_singleton. discriminate.
  - etrans; [exact H | vm_compute; reflexivity].
Defined.

Lemma Send_round_trip_witness :
  (TCPClient.Send noon 0 "echo:Hello World" client session).1
  = TCPClient.Answered "Hello World".
Proof.
  destruct (Send_round_trip noon 0 "echo:Hello World" client session)
    as (H & _).
  - unfold TCPClient.atRest, session, client.
    cbn [TCPClient.server TCPClient.buffered TCPClient.inbox
         TCPClient.conn].
    split; [exact serving_handles|]. split; [exact serving_open|].
    split; reflexivity.
  - reflexivity.
  - vm_compute. reflexivity.
  - vm_compute. reflexivity.
  - rewrite H. reflexivity.
Defined.

Lemma Send_out_of_step_witness :
  (TCPClient.Send noon 0 ("ping" +:+ LF +:+ "date") client session).1
  = TCPClient.Answered "pong"
  /\ (TCPClient.Send noon 0 "quit" client
        (TCPClient.Send noon 0 ("ping" +:+ LF +:+ "date") client session).2).1
     = TCPClient.Answered "2024-01-02".
Proof.
  destruct (Send_out_of_step noon "ping" "date" client session)
    as (H1 & _ & H3).
  - unfold TCPClient.atRest, session, client.
    cbn [TCPClient.server TCPClient.buffered TCPClient.inbox
         TCPClient.conn].
    split; [exact serving_handles|]. split; [exact serving_open|].
    split; reflexivity.
  - reflexivity.
  - reflexivity.
  - vm_compute. reflexivity.
  - vm_compute. reflexivity.
  - vm_compute. reflexivity.
  - vm_compute. reflexivity.
  - split; [rewrite H1; reflexivity|].
    rewrite (H3 0 "quit"); [reflexivity | reflexivity|].
    vm_compute. reflexivity.
Defined.

End LineWitnesses.

Section HeartbeatWitnesses.
Import NetworkingGuide NetworkingGuide.HeartbeatServer Scenarios.Beat.

Lemma heartbeat_registry_is_live_witness :
  is_Some (listeners (run trace NewHeartbeatServer) !! 2)
  /\ 2 ∈ handlers (run trace NewHeartbeatServer)
  /\ (2 ∉ closedConns (run trace NewHeartbeatServer))
  /\ listeners (run trace NewHeartbeatServer) !! 1 = None.
Proof.
  assert (is_Some (listeners (run trace NewHeartbeatServer) !! 2)) as Hs
    by (vm_compute; eauto).
  destruct (heartbeat_registry_is_live trace 2) as [H1 H2].
  - unfold trace. cbn [accepted]. apply NoDup_cons.
    split; [|apply NoDup_singleton].
    rewrite list_elem_of_singleton. discriminate.
  - exact Hs.
  - split; [exact Hs|]. split; [exact H1|]. split; [exact H2|].
    vm_compute. reflexivity.
Defined.

Lemma sweeps_compose_witness :
  heartbeatChecker (120 * Second) (heartbeatChecker (60 * Second)
                                     Scenarios.Heartbeat.connected)
  = heartbeatChecker (120 * Second) Scenarios.Heartbeat.connected.
Proof.
  apply sweeps_compose. vm_compute. discriminate.
Defined.

End HeartbeatWitnesses.

Section ClientWitnesses.
Import NetworkingGuide NetworkingGuide.TCPServer.

(** alice types her name, "hi", "/quit" and "more": her client sends the
    first two lines and closes the connection; the server, whose reader
    starts behind the line of the name, reads "hi" and then the end of the
    stream, and takes alice out of the registry. *)
Lemma client_quit_is_a_hangup_witness :
  GuideClient.sent
    (GuideClient.Run
       ["alice" +:+ LF; "hi" +:+ LF; "/quit" +:+ LF; "more" +:+ LF]
       (GuideClient.mkState "localhost:8080" [] false)).2
  = ["alice" +:+ LF; "hi" +:+ LF]
  /\ GuideClient.reads 1 6
       (GuideClient.Run
          ["alice" +:+ LF; "hi" +:+ LF; "/quit" +:+ LF; "more" +:+ LF]
          (GuideClient.mkState "localhost:8080" [] false)).2
     = [Read 1 (ReadOk ("hi" +:+ LF)); Read 1 (ReadFailed "")]
  /\ clients
       (run (GuideClient.reads 1 6
               (GuideClient.Run
                  ["alice" +:+ LF; "hi" +:+ LF; "/quit" +:+ LF; "more" +:+ LF]
                  (GuideClient.mkState "localhost:8080" [] false)).2)
            Scenarios.Guide.joined) !! "alice" = None.
Proof.
  destruct (client_quit_is_a_hangup
              ["alice" +:+ LF; "hi" +:+ LF; "/quit" +:+ LF; "more" +:+ LF]
              "localhost:8080" Scenarios.Guide.joined 1 "alice" 1)
    as (_ & _ & _ & R & H & _).
  - repeat constructor.
  - do 2 apply Exists_cons_tl. apply Exists_cons_hd. reflexivity.
  - exact joined_reader.
  - split; [reflexivity|]. split; [exact R | exact H].
Defined.

(** The two conditions are needed.  A line that comes without its line
    feed is joined to the next: "/qu" and "it" are two inputs that the
    client sends, and one line "/quit" that the server reads, so that it
    closes the socket.  And a reader of [handleConnection] that has taken
    two bytes behind the line of the name leaves the server the line
    "/quit" of the input "hi/quit". *)
Lemma quit_can_reach_the_server :
  1 ∈ closedConns
        (run (GuideClient.reads 1 6
                (GuideClient.Run ["alice" +:+ LF; "/qu"; "it" +:+ LF]
                   (GuideClient.mkState "localhost:8080" [] false)).2)
             Scenarios.Guide.joined)
  /\ 1 ∈ closedConns
          (run (GuideClient.reads 1 8
                  (GuideClient.Run ["alice" +:+ LF; "hi/quit" +:+ LF]
                     (GuideClient.mkState "localhost:8080" [] false)).2)
               Scenarios.Guide.joined).
Proof. vm_compute. split; reflexivity. Qed.

End ClientWitnesses.

Section HttpWitnesses.
Import GoHTTP NetworkingGuide.HTTPMiddleware Scenarios.Http.

Lemma unauthorized_is_rejected_witness :
  exists w',
    wrappedHandler preflight blank = Done w'
    /\ status (response w') = Some StatusUnauthorized
    /\ sent (response w') !! "Access-Control-Allow-Origin" = None.
Proof.
  destruct (unauthorized_is_rejected handler preflight blank)
    as (w' & E & S & _ & H & _).
  - vm_compute. discriminate.
  - reflexivity.
  - exists w'. split; [exact E|]. split; [exact S|]. rewrite H. reflexivity.
Defined.

Lemma authorized_is_served_witness :
  (exists w',
     wrappedHandler (authorized "OPTIONS") blank = Done w'
     /\ status (response w') = Some StatusOK
     /\ body (response w') = "")
  /\ (exists w',
        wrappedHandler (authorized "GET") blank = Done w'
        /\ status (response w') = Some StatusOK
        /\ body (response w') = "Hello, World!" +:+ LF).
Proof.
  split.
  - destruct (authorized_is_served handler (authorized "OPTIONS") blank)
      as [H _]; [reflexivity | reflexivity|].
    destruct (H eq_refl) as (w' & E & S & B & _).
    exists w'. split; [exact E|]. split; [exact S|]. rewrite B. reflexivity.
  - destruct (authorized_is_served handler (authorized "GET") blank)
      as [_ H]; [reflexivity | reflexivity|].
    destruct H as (w' & E & S & B & _); [discriminate|].
    exists w'. split; [exact E|]. split; [exact S|]. rewrite B. reflexivity.
Defined.

Lemma chain_recovers_witness :
  exists w',
    wrapped faulty (authorized "GET") blank = Done w'
    /\ status (response w') = Some StatusInternalServerError
    /\ body (response w') = "Internal Server Error" +:+ LF.
Proof.
  destruct (chain_recovers faulty (authorized "GET") blank) as [_ H].
  destruct (H _ "boom" _ eq_refl ltac:(discriminate) eq_refl eq_refl eq_refl)
    as (w' & E & S & B & _).
  exists w'. split; [exact E|]. split; [exact S|]. rewrite B. reflexivity.
Defined.

End HttpWitnesses.

Section ChatWitnesses.
Import NetworkTcp NetworkTcp.ChatServer.

Lemma chat_registered_open_witness :
  exists s',
    Scenarios.Chat.joined = Some s'
    /\ is_Some (clients s' !! 1) /\ (1 ∉ closedConns s').
Proof.
  assert (exists s', Scenarios.Chat.joined = Some s') as (s' & E)
    by (vm_compute; eauto).
  exists s'. split; [exact E|].
  assert (is_Some (clients s' !! 1)) as Hs.
  { assert (Scenarios.Chat.joined = Some s') as E' by exact E.
    vm_compute in E'. injection E' as <-. vm_compute. eauto. }
  split; [exact Hs|].
  refine (chat_registered_open _ _ s' 1 _ E Hs).
  apply accept_registryInv; [|reflexivity].
  apply (accept_registryInv 1 NewChatServer NewChatServer_registryInv).
  reflexivity.
Defined.

End ChatWitnesses.

Section HubScenario.
Import NetworkingGuide.WebSocketHub Scenarios.Hub.

Lemma one_registryInv : registryInv one.
Proof.
  destruct (hub_step_registryInv Connect NewHub NewHub_registryInv)
    as (s & E & H).
  injection E as <-. exact H.
Qed.

Lemma crowded_registryInv : registryInv crowded.
Proof.
  intros c Hc. unfold crowded in *. cbn [clients send] in *.
  destruct (decide (c = 0)) as [->|H0]; [eexists; split; reflexivity|].
  destruct (decide (c = 1)) as [->|H1]; [eexists; split; reflexivity|].
  rewrite lookup_insert_ne, lookup_singleton_ne in Hc by congruence.
  now apply is_Some_None in Hc.
Qed.

Lemma broadcast_drops_slow_client_witness :
  exists s',
    step (Broadcast "hi") crowded = Some s'
    /\ clients s' !! 0 = None
    /\ send s' !! 0 = Some (mkChan (replicate 256 "m") true)
    /\ send s' !! 1 = Some (mkChan ["m"; "hi"] false).
Proof.
  destruct (broadcast_drops_slow_client crowded "hi" 0 crowded_registryInv)
    as (s' & E & C & S & R).
  - vm_compute. eauto.
  - vm_compute. lia.
  - exists s'. split; [exact E|]. split; [exact C|]. split; [exact S|].
    destruct (R 1) as [_ R1].
    + vm_compute. eauto.
    + vm_compute. lia.
    + exact R1.
Defined.

Lemma unregister_twice_witness :
  exists s',
    step (Unregister 0) one = Some s'
    /\ step (Unregister 0) s' = Some s'
    /\ clients s' = delete 0 (clients one).
Proof.
  destruct (unregister_twice one 0 one_registryInv) as (s' & E1 & E2 & C & _).
  exists s'. auto.
Defined.

Lemma hub_delivers_in_order_witness :
  exists s',
    run chatter one = Some s'
    /\ received (written s') 0 ++ queued s' 0 = ["a"; "b"].
Proof.
  destruct (hub_run_registryInv chatter one one_registryInv) as (s' & E & _).
  exists s'. split; [exact E|].
  rewrite (hub_delivers_in_order chatter one s' 0 one_registryInv E).
  - reflexivity.
  - vm_compute. eauto.
  - assert (run chatter one = Some s') as E' by exact E.
    vm_compute in E'. injection E' as <-. vm_compute. eauto.
  - unfold chatter. repeat constructor; discriminate.
Defined.

End HubScenario.

Section PoolScenario.
Import NetworkingGuide.ConnPool.

Lemma pool_limits_witness :
  (openConn (run Scenarios.Pooling.busy (NewPool 1 2)) <= 2)%Z
  /\ length (conns (run Scenarios.Pooling.busy (NewPool 1 2))) <= 1.
Proof.
  apply (pool_limits Scenarios.Pooling.busy 1 2%Z);
    [lia | vm_compute; reflexivity].
Defined.

Lemma failed_dials_exhaust_witness :
  Get (Dialed 7)
      (run [OpGet (DialFailed Scenarios.tooManyFiles);
            OpGet (DialFailed Scenarios.tooManyFiles)] (NewPool 4 2))
  = (LimitReached,
     run [OpGet (DialFailed Scenarios.tooManyFiles);
          OpGet (DialFailed Scenarios.tooManyFiles)] (NewPool 4 2)).
Proof.
  apply (failed_dials_exhaust
           [Scenarios.tooManyFiles; Scenarios.tooManyFiles] 4 2%Z (Dialed 7));
    [vm_compute; reflexivity | reflexivity].
Defined.

Lemma Put_then_Get_witness :
  Get (Dialed 9) (Put 5 (NewPool 2 3)) = (Got 5, NewPool 2 3)
  /\ 5 ∈ closedConns (Put 5 (NewPool 0 3)).
Proof.
  split.
  - destruct (Put_then_Get (NewPool 2 3) 5 (Dialed 9)) as [H _].
    destruct H as (_ & _ & _ & _ & H); [cbn; lia|]. apply H. reflexivity.
  - destruct (Put_then_Get (NewPool 0 3) 5 (Dialed 9)) as [_ H].
    destruct H as [H _]; [cbn; lia|]. exact H.
Defined.

End PoolScenario.
